(** * Heredity: exact inference of gene and trait distributions in a family

    A shallow embedding of [heredity.py] and the properties of its
    inference core: the inheritance model ([PROBS], [person_prob]), the
    joint probability evaluator ([joint_probability], [trait_prob]), the
    enumeration in [main] ([powerset], [update]) and the normaliser
    ([get_dist_sum], [normalize]).

    Numbers.  The program computes with Python floats.  The embedding takes
    them as exact rationals in canonical form ([Qc]), so that equality of
    probabilities is Leibniz equality and the field laws hold; every
    statement below is a statement of exact arithmetic.  A division by zero
    raises [ZeroDivisionError] in Python for floats and integers alike, and
    does so here.

    Containers.  A Python [dict] keyed by person names is a [gmap string _],
    a Python [set] of names is a [gset string].  Iterating over a set or a
    dict visits the elements in the container's own order ([elements],
    [map_fold]); the program only ever multiplies or adds what it visits, so
    no result depends on that order. *)

From Stdlib Require Import QArith Qcanon Lia.
From stdpp Require Import gmap strings list fin_maps fin_sets sorting.

Local Open Scope Qc_scope.
#[local] Set Warnings "-clear-no-such-hyp".

(** The arithmetic of [Qc] is used through its laws; tactics are kept from
    unfolding it on symbolic numbers. *)
#[local] Opaque Qcplus Qcmult Qcopp Qcinv Q2Qc.

(** ** Exceptions *)

Inductive exception : Set :=
| KeyError
| ZeroDivisionError.

Inductive result (A : Type) : Type :=
| Ok (v : A)
| Raise (e : exception).
Arguments Ok {A} v.
Arguments Raise {A} e.

#[global] Instance result_ret : MRet result := @Ok.
#[global] Instance result_bind : MBind result := λ A B f m,
  match m with
  | Ok v => f v
  | Raise e => Raise e
  end.

(** [d[k]] on a dict keyed by names. *)
Definition getitem {V : Type} (d : gmap string V) (k : string) : result V :=
  match d !! k with
  | Some v => Ok v
  | None => Raise KeyError
  end.

(** A [for] loop threading an accumulator, stopping at the first exception. *)
Fixpoint for_each {A S : Type} (body : S → A → result S) (l : list A) (s : S)
  : result S :=
  match l with
  | [] => Ok s
  | x :: l' => s' ← body s x; for_each body l' s'
  end.

(** ** Data model *)

(** One row of the data file, as [load_data] stores it. *)
Record Person : Type := {
  name : string;
  mother : option string;
  father : option string;
  trait : option bool
}.

(** The keys [0], [1], [2] of the gene tables. *)
Inductive GeneCount : Set := G0 | G1 | G2.

(** [{"gene": {2: _, 1: _, 0: _}, "trait": {True: _, False: _}}] *)
Record Distributions : Type := {
  gene2 : Qc;
  gene1 : Qc;
  gene0 : Qc;
  traitTrue : Qc;
  traitFalse : Qc
}.

(** The two inner dicts of a person's entry, as the lists of their values
    in the order of their keys. *)
Definition gene (d : Distributions) : list Qc := [gene2 d; gene1 d; gene0 d].
Definition trait_dist (d : Distributions) : list Qc := [traitTrue d; traitFalse d].

(** ** The inheritance model *)

Module PROBS.
Definition gene (g : GeneCount) : Qc :=
  match g with
  | G2 => Q2Qc 0.01
  | G1 => Q2Qc 0.03
  | G0 => Q2Qc 0.96
  end.

Definition trait (g : GeneCount) (t : bool) : Qc :=
  match g, t with
  | G2, true => Q2Qc 0.65
  | G2, false => Q2Qc 0.35
  | G1, true => Q2Qc 0.56
  | G1, false => Q2Qc 0.44
  | G0, true => Q2Qc 0.01
  | G0, false => Q2Qc 0.99
  end.

Definition mutation : Qc := Q2Qc 0.01.
End PROBS.

Definition person_prob (person_name : string)
    (one_gene_names two_genes_names : gset string) : Qc :=
  if decide (person_name ∈ two_genes_names) then Q2Qc 0.99
  else if decide (person_name ∈ one_gene_names) then Q2Qc 0.5 * Q2Qc 0.99
  else PROBS.mutation.

(** ** The joint probability evaluator *)

(** The three loops of [joint_probability] that fill [one_gene_p],
    [two_genes_p] and [zero_gene_p] differ in the set they walk, in the
    unconditional probability they use and in how they combine [poppa_p]
    and [momma_p]. *)
Fixpoint gene_p_loop (unconditional : Qc) (combine : Qc → Qc → Qc)
    (people : gmap string Person) (one_gene two_genes : gset string)
    (names : list string) : result (list (string * Qc)) :=
  match names with
  | [] => Ok []
  | name :: names' =>
      person ← getitem people name;
      let p :=
        match father person, mother person with
        | Some father, Some mother =>
            let poppa_p := person_prob father one_gene two_genes in
            let momma_p := person_prob mother one_gene two_genes in
            combine poppa_p momma_p
        | _, _ => unconditional
        end in
      prob_dict ← gene_p_loop unconditional combine people one_gene two_genes names';
      Ok ((name, p) :: prob_dict)
  end.

Definition trait_prob (prob_dict : list (string * Qc)) (num_copies : GeneCount)
    (have_trait : gset string) : Qc :=
  fold_left (λ product_ '(name, p),
      if decide (name ∈ have_trait)
      then product_ * (p * PROBS.trait num_copies true)
      else product_ * (p * PROBS.trait num_copies false))
    prob_dict 1.

(** The dicts [one_gene_p], [two_genes_p] and [zero_gene_p]. *)
Definition one_gene_p (people : gmap string Person) (one_gene two_genes : gset string)
  : result (list (string * Qc)) :=
  gene_p_loop (PROBS.gene G1)
    (λ poppa_p momma_p, poppa_p * (1 - momma_p) + momma_p * (1 - poppa_p))
    people one_gene two_genes (elements one_gene).

Definition two_genes_p (people : gmap string Person) (one_gene two_genes : gset string)
  : result (list (string * Qc)) :=
  gene_p_loop (PROBS.gene G2)
    (λ poppa_p momma_p, poppa_p * momma_p)
    people one_gene two_genes (elements two_genes).

Definition zero_gene_p (people : gmap string Person) (one_gene two_genes : gset string)
  : result (list (string * Qc)) :=
  let zero_gene : gset string :=
    filter (λ name, (name ∉ one_gene) ∧ (name ∉ two_genes)) (dom people) in
  gene_p_loop (PROBS.gene G0)
    (λ poppa_p momma_p, (1 - poppa_p) * (1 - momma_p))
    people one_gene two_genes (elements zero_gene).

Definition joint_probability (people : gmap string Person)
    (one_gene two_genes have_trait : gset string) : result Qc :=
  one_gene_p ← one_gene_p people one_gene two_genes;
  two_genes_p ← two_genes_p people one_gene two_genes;
  zero_gene_p ← zero_gene_p people one_gene two_genes;
  Ok (fold_left (λ joint_p '(index, prob_dict),
          joint_p * trait_prob prob_dict index have_trait)
        [(G0, zero_gene_p); (G1, one_gene_p); (G2, two_genes_p)] 1).

(** ** The enumeration *)

(** [itertools.combinations(s, r)]: the [r]-element subsequences of [s], in
    the lexicographic order of their positions. *)
Fixpoint combinations {A : Type} (s : list A) (r : nat) {struct s}
  : list (list A) :=
  match r, s with
  | O, _ => [[]]
  | S _, [] => []
  | S r', x :: s' => fmap (cons x) (combinations s' r') ++ combinations s' r
  end.

Definition powerset (s : gset string) : list (gset string) :=
  let s := elements s in
  list_to_set <$> (r ← seq 0 (length s + 1); combinations s r).

Definition update_person (person : string) (one_gene two_genes have_trait : gset string)
    (p : Qc) (d : Distributions) : Distributions :=
  let d :=
    if decide (person ∈ have_trait)
    then {| gene2 := gene2 d; gene1 := gene1 d; gene0 := gene0 d;
            traitTrue := traitTrue d + p; traitFalse := traitFalse d |}
    else {| gene2 := gene2 d; gene1 := gene1 d; gene0 := gene0 d;
            traitTrue := traitTrue d; traitFalse := traitFalse d + p |} in
  if decide (person ∈ one_gene)
  then {| gene2 := gene2 d; gene1 := gene1 d + p; gene0 := gene0 d;
          traitTrue := traitTrue d; traitFalse := traitFalse d |}
  else if decide (person ∈ two_genes)
  then {| gene2 := gene2 d + p; gene1 := gene1 d; gene0 := gene0 d;
          traitTrue := traitTrue d; traitFalse := traitFalse d |}
  else {| gene2 := gene2 d; gene1 := gene1 d; gene0 := gene0 d + p;
          traitTrue := traitTrue d; traitFalse := traitFalse d |}.

Definition update (probabilities : gmap string Distributions)
    (one_gene two_genes have_trait : gset string) (p : Qc)
  : gmap string Distributions :=
  map_imap (λ person d,
      Some (update_person person one_gene two_genes have_trait p d))
    probabilities.

(** The zero-initialised entry of a person in [probabilities]. *)
Definition zero_distributions : Distributions :=
  {| gene2 := 0; gene1 := 0; gene0 := 0; traitTrue := 0; traitFalse := 0 |}.

(** [any(... for x in l)], with a predicate that may raise. *)
Fixpoint any_of {A : Type} (f : A → result bool) (l : list A) : result bool :=
  match l with
  | [] => Ok false
  | x :: l' => b ← f x; if b : bool then Ok true else any_of f l'
  end.

(** [p["trait"] is not None and p["trait"] != (person in have_trait)] *)
Definition contradicts (have_trait : gset string) (person : string) (p : Person)
  : bool :=
  match trait p with
  | Some t => negb (eqb t (bool_decide (person ∈ have_trait)))
  | None => false
  end.

(** The test of [main] on a candidate set [have_trait]. *)
Definition fails_evidence (people : gmap string Person)
    (names have_trait : gset string) : result bool :=
  any_of (λ person, p ← getitem people person; Ok (contradicts have_trait person p))
    (elements names).

(** The two inner loops of [main], for one set [have_trait]. *)
Definition gene_loops (people : gmap string Person) (names have_trait : gset string)
    (probabilities : gmap string Distributions)
  : result (gmap string Distributions) :=
  for_each (λ probabilities one_gene,
      for_each (λ probabilities two_genes,
          p ← joint_probability people one_gene two_genes have_trait;
          Ok (update probabilities one_gene two_genes have_trait p))
        (powerset (names ∖ one_gene)) probabilities)
    (powerset names) probabilities.

(** The body of the outer loop of [main]. *)
Definition trait_loop_body (people : gmap string Person) (names : gset string)
    (probabilities : gmap string Distributions) (have_trait : gset string)
  : result (gmap string Distributions) :=
  fails ← fails_evidence people names have_trait;
  if fails : bool then Ok probabilities
  else gene_loops people names have_trait probabilities.

(** ** The normaliser *)

Definition get_dist_sum (dist : list Qc) : Qc :=
  fold_left (λ sum_ item, sum_ + item) dist 0.

(** [x / y] on Python numbers. *)
Definition truediv (x y : Qc) : result Qc :=
  if decide (y = 0) then Raise ZeroDivisionError else Ok (x / y).

(** The two inner loops of [normalize] on one person's entry: first the
    ["gene"] dict, then the ["trait"] dict, each divided by its own sum. *)
Definition normalize_person (d : Distributions) : result Distributions :=
  let sum_ := get_dist_sum (gene d) in
  g2 ← truediv (gene2 d) sum_;
  g1 ← truediv (gene1 d) sum_;
  g0 ← truediv (gene0 d) sum_;
  let sum_ := get_dist_sum (trait_dist d) in
  tT ← truediv (traitTrue d) sum_;
  tF ← truediv (traitFalse d) sum_;
  Ok {| gene2 := g2; gene1 := g1; gene0 := g0; traitTrue := tT; traitFalse := tF |}.

(** The outer loop of [normalize] rewrites the table in place, one person
    at a time. *)
Definition normalize (probabilities : gmap string Distributions)
  : result (gmap string Distributions) :=
  map_fold (λ person_name d acc,
      probabilities ← acc;
      d' ← normalize_person d;
      Ok (<[person_name := d']> probabilities))
    (Ok probabilities) probabilities.

(** ** The inference of [main]

    [main] without its reading of the data file and its printing: from the
    loaded [people] to the normalised [probabilities]. *)

Definition accumulate (people : gmap string Person)
  : result (gmap string Distributions) :=
  let probabilities := (λ _, zero_distributions) <$> people in
  let names := dom people in
  for_each (trait_loop_body people names) (powerset names) probabilities.

Definition main (people : gmap string Person)
  : result (gmap string Distributions) :=
  probabilities ← accumulate people;
  normalize probabilities.

(** ** The model in the words of the specification

    The definitions of this section follow the specification, not the
    program; the theorems below compare the two. *)

(** The gene count a scenario assigns to a person: one copy in [one_gene],
    two copies in [two_genes], none in the implied rest. *)
Definition assigned_gene_count (one_gene two_genes : gset string)
    (person : string) : GeneCount :=
  if decide (person ∈ one_gene) then G1
  else if decide (person ∈ two_genes) then G2
  else G0.

Definition AlleleTransmissionProbability (parentGeneCount : GeneCount) : Qc :=
  let m := PROBS.mutation in
  match parentGeneCount with
  | G2 => 1 - m
  | G1 => Q2Qc 0.5 * (1 - m)
  | G0 => m
  end.

(** The probability of a gene count given the transmission probabilities
    [pf] and [pm] of the two parents. *)
Definition inherited (pf pm : Qc) (g : GeneCount) : Qc :=
  match g with
  | G0 => (1 - pf) * (1 - pm)
  | G1 => pf * (1 - pm) + pm * (1 - pf)
  | G2 => pf * pm
  end.

(** The recorded parents of a person who has both. *)
Definition parents (p : Person) : option (string * string) :=
  match father p, mother p with
  | Some f, Some m => Some (f, m)
  | _, _ => None
  end.

(** The gene-count probability of a person in a scenario: from the parents
    for a person with parents, the prior for a founder. *)
Definition gene_count_probability (people : gmap string Person)
    (one_gene two_genes : gset string) (person : string) : Qc :=
  let g := assigned_gene_count one_gene two_genes person in
  match people !! person ≫= parents with
  | Some (f, m) =>
      let pf := AlleleTransmissionProbability (assigned_gene_count one_gene two_genes f) in
      let pm := AlleleTransmissionProbability (assigned_gene_count one_gene two_genes m) in
      inherited pf pm g
  | None => PROBS.gene g
  end.

(** The trait probability of a person in a scenario. *)
Definition trait_probability (one_gene two_genes have_trait : gset string)
    (person : string) : Qc :=
  PROBS.trait (assigned_gene_count one_gene two_genes person)
    (bool_decide (person ∈ have_trait)).

Definition product (l : list Qc) : Qc := foldr Qcmult 1 l.

Definition scenario_probability (people : gmap string Person)
    (one_gene two_genes have_trait : gset string) : Qc :=
  product ((λ person,
      gene_count_probability people one_gene two_genes person
      * trait_probability one_gene two_genes have_trait person)
    <$> elements (dom people)).

(** What the three loops of [joint_probability] store for a person. *)
Definition gene_p_entry (unconditional : Qc) (combine : Qc → Qc → Qc)
    (people : gmap string Person) (one_gene two_genes : gset string)
    (person : string) : Qc :=
  match people !! person ≫= parents with
  | Some (f, m) =>
      combine (person_prob f one_gene two_genes) (person_prob m one_gene two_genes)
  | None => unconditional
  end.

(** ** The scenarios that [main] scores *)

(** Whether [have_trait] contradicts the observed trait of some person. *)
Definition violates (people : gmap string Person) (have_trait : gset string)
  : bool :=
  existsb (λ person,
      from_option (contradicts have_trait person) false (people !! person))
    (elements (dom people)).

(** The pairs [(one_gene, two_genes)] walked by the two inner loops. *)
Definition gene_partitions (names : gset string)
  : list (gset string * gset string) :=
  one_gene ← powerset names;
  two_genes ← powerset (names ∖ one_gene);
  [(one_gene, two_genes)].

(** The triples [(one_gene, two_genes, have_trait)] on which [main] calls
    [joint_probability] and [update], in the order of the calls
    (see [accumulate_scenarios]). *)
Definition scenarios (people : gmap string Person)
  : list (gset string * gset string * gset string) :=
  have_trait ← powerset (dom people);
  if violates people have_trait then []
  else '(one_gene, two_genes) ← gene_partitions (dom people);
       [(one_gene, two_genes, have_trait)].

(** One call of [joint_probability] followed by one call of [update]. *)
Definition score (people : gmap string Person)
    (probabilities : gmap string Distributions)
    (scenario : gset string * gset string * gset string)
  : result (gmap string Distributions) :=
  let '(one_gene, two_genes, have_trait) := scenario in
  p ← joint_probability people one_gene two_genes have_trait;
  Ok (update probabilities one_gene two_genes have_trait p).

(** The number of persons without an observed trait. *)
Definition unobserved (people : gmap string Person) : nat :=
  size (filter (λ '(_, p), trait p = None) people).

(** A sequence of calls to [update]. *)
Definition updates
    (calls : list (gset string * gset string * gset string * Qc))
    (probabilities : gmap string Distributions) : gmap string Distributions :=
  fold_left (λ probabilities '(one_gene, two_genes, have_trait, p),
      update probabilities one_gene two_genes have_trait p)
    calls probabilities.

(** A person's entry with each of its two distributions divided by its own
    sum. *)
Definition divided (d : Distributions) : Distributions :=
  {| gene2 := gene2 d / get_dist_sum (gene d);
     gene1 := gene1 d / get_dist_sum (gene d);
     gene0 := gene0 d / get_dist_sum (gene d);
     traitTrue := traitTrue d / get_dist_sum (trait_dist d);
     traitFalse := traitFalse d / get_dist_sum (trait_dist d) |}.

(** Neither distribution of the entry has sum zero. *)
Definition nonzero_sums (d : Distributions) : Prop :=
  get_dist_sum (gene d) ≠ 0 ∧ get_dist_sum (trait_dist d) ≠ 0.

#[global] Instance nonzero_sums_dec (d : Distributions) : Decision (nonzero_sums d) :=
  and_dec _ _.

(** The total weight of a sequence of calls to [update]. *)
Definition total_mass
    (calls : list (gset string * gset string * gset string * Qc)) : Qc :=
  foldr (λ '(_, _, _, p) total, p + total) 0 calls.

(** The prior-weighted mixture [Σ_g P(g)·P(trait | g)] of the trait table. *)
Definition mixture (t : bool) : Qc :=
  PROBS.gene G0 * PROBS.trait G0 t
  + PROBS.gene G1 * PROBS.trait G1 t
  + PROBS.gene G2 * PROBS.trait G2 t.

(** The test of [main] restricted to the persons of [l], on the candidate
    that holds the names of [c]. *)
Definition violates_on (people : gmap string Person) (l c : list string) : bool :=
  existsb (λ person,
      from_option (contradicts (list_to_set c) person) false (people !! person)) l.

(** ** Sample populations *)

Definition founder (n : string) (t : option bool) : Person :=
  {| name := n; mother := None; father := None; trait := t |}.

Definition child (n m f : string) (t : option bool) : Person :=
  {| name := n; mother := Some m; father := Some f; trait := t |}.

(** Two founders, one observed with the trait and one without it, and
    their child. *)
Definition family : gmap string Person :=
  {[ "Harry"%string := child "Harry" "Lily" "James" None;
     "James"%string := founder "James" (Some true);
     "Lily"%string := founder "Lily" (Some false) ]}.

(** One founder observed with the trait. *)
Definition harry_observed : gmap string Person :=
  {[ "Harry"%string := founder "Harry" (Some true) ]}.

(** A person whose father is recorded and whose mother is not. *)
Definition half_orphan : gmap string Person :=
  {[ "Harry"%string :=
       {| name := "Harry"; mother := None; father := Some "James"%string;
          trait := None |};
     "James"%string := founder "James" None ]}.

(** An accumulated table of one person. *)
Definition sample_table : gmap string Distributions :=
  {[ "Harry"%string :=
       {| gene2 := 1; gene1 := 1; gene0 := Q2Qc 2; traitTrue := 1;
          traitFalse := Q2Qc 3 |} ]}.

(** The standard enumeration of the subsequences of a list. *)
Fixpoint sublists {A : Type} (l : list A) : list (list A) :=
  match l with
  | [] => [[]]
  | x :: l' => fmap (cons x) (sublists l') ++ sublists l'
  end.

(** ** Marginal weights *)

#[global] Instance GeneCount_eq_dec : EqDecision GeneCount.
Proof. solve_decision. Defined.

Definition sum_Qc (l : list Qc) : Qc := foldr Qcplus 0 l.

(** Of the weights of a sequence of calls to [update], the sum of those
    whose scenario gives [person] the gene count [g]. *)
Definition gene_bucket (person : string) (g : GeneCount)
    (calls : list (gset string * gset string * gset string * Qc)) : Qc :=
  sum_Qc ((λ '(one_gene, two_genes, _, p),
      if decide (assigned_gene_count one_gene two_genes person = g) then p else 0)
    <$> calls).

(** The same for the trait value [t]. *)
Definition trait_bucket (person : string) (t : bool)
    (calls : list (gset string * gset string * gset string * Qc)) : Qc :=
  sum_Qc ((λ '(_, _, have_trait, p),
      if decide (bool_decide (person ∈ have_trait) = t) then p else 0)
    <$> calls).

(** The calls to [update] that [main] makes: the scored scenarios with
    their joint probabilities (see [accumulate_updates]). *)
Definition scored (people : gmap string Person)
  : list (gset string * gset string * gset string * Qc) :=
  (λ '(one_gene, two_genes, have_trait),
     (one_gene, two_genes, have_trait,
      scenario_probability people one_gene two_genes have_trait))
  <$> scenarios people.

(** The persons observed with the trait. *)
Definition observed_with_trait (people : gmap string Person) : gset string :=
  filter (λ person, people !! person ≫= trait = Some true) (dom people).

(** A person's entry with its gene weights multiplied by [cg] and its trait
    weights by [ct]. *)
Definition scale_distributions (cg ct : Qc) (d : Distributions) : Distributions :=
  {| gene2 := cg * gene2 d; gene1 := cg * gene1 d; gene0 := cg * gene0 d;
     traitTrue := ct * traitTrue d; traitFalse := ct * traitFalse d |}.

(** ** Loading the data

    [load_data] without the reading of the file: its loop over the rows
    that [csv.DictReader] yields.  A row is taken with the cells of its
    four columns; a cell that a short row lacks is read by this loop like
    an empty cell. *)

Record Row : Type := {
  row_name : string;
  row_mother : string;
  row_father : string;
  row_trait : string
}.

(** The dict stored for a row. *)
Definition row_person (row : Row) : Person :=
  {| name := row_name row;
     mother := if decide (row_mother row = "") then None else Some (row_mother row);
     father := if decide (row_father row = "") then None else Some (row_father row);
     trait := if decide (row_trait row = "1") then Some true
              else if decide (row_trait row = "0") then Some false
              else None |}.

Definition load_data (rows : list Row) : gmap string Person :=
  fold_left (λ data row, <[row_name row := row_person row]> data) rows ∅.

(** ** Family trees without cycles *)

(** Whether [x] is one of the two recorded parents of [y]. *)
Definition is_parent_of (people : gmap string Person) (x y : string) : bool :=
  match people !! y ≫= parents with
  | Some (f, m) => bool_decide (f = x) || bool_decide (m = x)
  | None => false
  end.

(** Every name of the list is a parent neither of itself nor of a name
    after it: children come before their parents. *)
Fixpoint children_first (people : gmap string Person) (l : list string) : bool :=
  match l with
  | [] => true
  | x :: l' =>
      forallb (λ y, negb (is_parent_of people x y)) l && children_first people l'
  end.

(** The pairs of disjoint sets of names of [l], built one name at a time. *)
Fixpoint assignments (l : list string) : list (gset string * gset string) :=
  match l with
  | [] => [(∅, ∅)]
  | x :: l' =>
      '(one_gene, two_genes) ← assignments l';
      [(one_gene, two_genes); ({[x]} ∪ one_gene, two_genes);
       (one_gene, {[x]} ∪ two_genes)]
  end.

(** Two founders and their child, nobody observed. *)
Definition family_unobserved : gmap string Person :=
  {[ "Harry"%string := child "Harry" "Lily" "James" None;
     "James"%string := founder "James" None;
     "Lily"%string := founder "Lily" None ]}.

(** ** Persons without children *)

(** Whether nobody of the population has [x] as a recorded parent. *)
Definition childless (people : gmap string Person) (x : string) : bool :=
  forallb (λ y, negb (is_parent_of people x y)) (elements (dom people)).

(** A scenario with [x] taken out of its three sets. *)
Definition without (x : string)
    (scenario : gset string * gset string * gset string)
  : gset string * gset string * gset string :=
  let '(one_gene, two_genes, have_trait) := scenario in
  (one_gene ∖ {[x]}, two_genes ∖ {[x]}, have_trait ∖ {[x]}).

(** The six scenarios that extend a scenario of the others by a gene count
    and a trait value for [x]. *)
Definition with_person (x : string)
    (scenario : gset string * gset string * gset string)
  : list (gset string * gset string * gset string) :=
  let '(one_gene, two_genes, have_trait) := scenario in
  [(one_gene, two_genes, have_trait);
   ({[x]} ∪ one_gene, two_genes, have_trait);
   (one_gene, {[x]} ∪ two_genes, have_trait);
   (one_gene, two_genes, {[x]} ∪ have_trait);
   ({[x]} ∪ one_gene, two_genes, {[x]} ∪ have_trait);
   (one_gene, {[x]} ∪ two_genes, {[x]} ∪ have_trait)].

(** ** Mother and father exchanged *)

(** A person with the two recorded parents exchanged. *)
Definition swap_parents (p : Person) : Person :=
  {| name := name p; mother := father p; father := mother p; trait := trait p |}.

(** Those of the six that give [x] the trait value [b]. *)
Definition with_person_observed (x : string) (b : bool)
    (scenario : gset string * gset string * gset string)
  : list (gset string * gset string * gset string) :=
  filter (λ sc, bool_decide (x ∈ sc.2) = b) (with_person x scenario).

(** * Properties *)

(** ** Arithmetic *)

Lemma Qc_decide (x y : Qc) : Qeq_bool (this x) (this y) = true → x = y.
Proof. intros H. apply Qc_is_canon. by apply Qeq_bool_iff. Qed.

Ltac Qc_compute := apply Qc_decide; vm_compute; reflexivity.

(** Settles a decidable proposition on concrete data by evaluation. *)
Ltac decide_by_computation :=
  match goal with
  | |- ?P => apply (@bool_decide_unpack P _); vm_compute; exact I
  end.

Lemma product_app (l k : list Qc) : product (l ++ k) = product l * product k.
Proof.
  induction l as [|x l IH]; simpl.
  - ring.
  - rewrite IH. ring.
Qed.

Lemma product_Permutation (l k : list Qc) : l ≡ₚ k → product l = product k.
Proof.
  induction 1 as [|x l k _ IH|x y l|l k m _ IH1 _ IH2]; simpl.
  - done.
  - by rewrite IH.
  - ring.
  - by rewrite IH1.
Qed.

Lemma fold_left_product {A : Type} (f : A → Qc) (l : list A) (a : Qc) :
  fold_left (λ acc x, acc * f x) l a = a * product (f <$> l).
Proof.
  revert a. induction l as [|x l IH]; intros a; csimpl.
  - unfold product; simpl. ring.
  - rewrite IH. unfold product; simpl. ring.
Qed.

Lemma get_dist_sum_gene (d : Distributions) :
  get_dist_sum (gene d) = gene2 d + gene1 d + gene0 d.
Proof. unfold get_dist_sum, gene. cbn [fold_left]. ring. Qed.

Lemma get_dist_sum_trait (d : Distributions) :
  get_dist_sum (trait_dist d) = traitTrue d + traitFalse d.
Proof. unfold get_dist_sum, trait_dist. cbn [fold_left]. ring. Qed.

(** ** The inheritance model *)

Lemma person_prob_transmission (person_name : string) (one_gene two_genes : gset string) :
  one_gene ## two_genes →
  person_prob person_name one_gene two_genes
  = AlleleTransmissionProbability (assigned_gene_count one_gene two_genes person_name).
Proof.
  intros Hdisj. unfold person_prob, assigned_gene_count.
  destruct (decide (person_name ∈ two_genes)) as [H2|H2];
    destruct (decide (person_name ∈ one_gene)) as [H1|H1]; simpl.
  - set_solver.
  - Qc_compute.
  - Qc_compute.
  - done.
Qed.

(** ** The joint probability evaluator *)

Lemma gene_p_loop_ok (unconditional : Qc) (combine : Qc → Qc → Qc)
    (people : gmap string Person) (one_gene two_genes : gset string)
    (names : list string) :
  (∀ n, n ∈ names → is_Some (people !! n)) →
  gene_p_loop unconditional combine people one_gene two_genes names
  = Ok ((λ n, (n, gene_p_entry unconditional combine people one_gene two_genes n))
          <$> names).
Proof.
  induction names as [|n names IH]; intros Hin; [done|].
  destruct (Hin n) as [p Hp]; [by left|].
  cbn [gene_p_loop]. unfold getitem. rewrite Hp. cbn.
  rewrite IH by (intros; apply Hin; by right). cbn.
  unfold gene_p_entry, parents. rewrite Hp. cbn.
  by destruct (father p), (mother p).
Qed.

Lemma trait_prob_product (e : string → Qc) (names : list string)
    (num_copies : GeneCount) (have_trait : gset string) :
  trait_prob ((λ n, (n, e n)) <$> names) num_copies have_trait
  = product ((λ n, e n * PROBS.trait num_copies (bool_decide (n ∈ have_trait)))
               <$> names).
Proof.
  unfold trait_prob.
  transitivity (fold_left (λ acc n,
      acc * (e n * PROBS.trait num_copies (bool_decide (n ∈ have_trait)))) names 1).
  - generalize 1. induction names as [|n names IH]; intros a; [done|].
    cbn. rewrite <- IH. f_equal.
    by destruct (decide (n ∈ have_trait)) as [H|H];
      [rewrite bool_decide_eq_true_2|rewrite bool_decide_eq_false_2].
  - rewrite (fold_left_product (λ n, e n * _)). ring.
Qed.

Lemma elements_partition (people : gmap string Person) (one_gene two_genes : gset string) :
  one_gene ⊆ dom people → two_genes ⊆ dom people → one_gene ## two_genes →
  elements (dom people)
  ≡ₚ elements (filter (λ name, (name ∉ one_gene) ∧ (name ∉ two_genes)) (dom people))
     ++ elements one_gene ++ elements two_genes.
Proof.
  intros H1 H2 Hdisj.
  set (zero_gene := filter _ _).
  rewrite <- !elements_disj_union by (subst zero_gene; set_solver).
  apply elements_proper. subst zero_gene.
  intros n. rewrite !elem_of_union, elem_of_filter.
  destruct (decide (n ∈ one_gene)), (decide (n ∈ two_genes)); set_solver.
Qed.

Lemma joint_probability_scenario (people : gmap string Person)
    (one_gene two_genes have_trait : gset string) :
  one_gene ⊆ dom people → two_genes ⊆ dom people → one_gene ## two_genes →
  joint_probability people one_gene two_genes have_trait
  = Ok (scenario_probability people one_gene two_genes have_trait).
Proof.
  intros H1 H2 Hdisj. unfold joint_probability, one_gene_p, two_genes_p, zero_gene_p.
  rewrite !gene_p_loop_ok;
    try (intros n Hn; apply elem_of_dom; apply elem_of_elements in Hn; set_solver).
  cbn. rewrite !trait_prob_product. f_equal.
  unfold scenario_probability.
  rewrite (product_Permutation _ _
    (fmap_Permutation _ _ _ (elements_partition people one_gene two_genes H1 H2 Hdisj))).
  rewrite !fmap_app, !product_app.
  assert (Hpart : ∀ g u c (X : gset string),
    (∀ n, n ∈ X → assigned_gene_count one_gene two_genes n = g) →
    (∀ pf pm, c pf pm = inherited pf pm g) → u = PROBS.gene g →
    (λ n, gene_p_entry u c people one_gene two_genes n
          * PROBS.trait g (bool_decide (n ∈ have_trait))) <$> elements X
    = (λ person, gene_count_probability people one_gene two_genes person
          * trait_probability one_gene two_genes have_trait person) <$> elements X).
  { intros g u c X Hg Hc ->. apply Forall_fmap_ext, Forall_forall.
    intros n Hn%elem_of_elements.
    unfold gene_count_probability, trait_probability, gene_p_entry.
    rewrite (Hg n Hn). f_equal.
    destruct (people !! n ≫= parents) as [[f m]|]; [|done].
    by rewrite Hc, !person_prob_transmission. }
  rewrite (Hpart G0 _ _ (filter _ (dom people))), (Hpart G1 _ _ one_gene),
    (Hpart G2 _ _ two_genes); try done.
  - ring.
  - intros n Hn. unfold assigned_gene_count.
    rewrite decide_False, decide_True; set_solver.
  - intros n Hn. unfold assigned_gene_count. by rewrite decide_True.
  - intros n Hn%elem_of_filter. unfold assigned_gene_count.
    rewrite !decide_False; tauto.
Qed.

(** ** Subsets: [combinations] and [powerset] *)

Local Close Scope Qc_scope.

Section sums.
Context {A : Type}.
Implicit Types (l : list A).

Lemma length_bind {B : Type} (f : A → list B) l :
  length (l ≫= f) = sum_list_with (λ x, length (f x)) l.
Proof.
  induction l as [|x l IH]; [done|]. cbn. by rewrite length_app, <- IH.
Qed.

Lemma sum_list_with_ext (f g : A → nat) l :
  (∀ x, x ∈ l → f x = g x) → sum_list_with f l = sum_list_with g l.
Proof.
  induction l as [|x l IH]; intros H; [done|]. cbn.
  rewrite (H x) by left. rewrite IH; [done|]. intros ??; apply H; by right.
Qed.

Lemma sum_list_with_fmap {B : Type} (g : A → B) (f : B → nat) l :
  sum_list_with f (g <$> l) = sum_list_with (λ x, f (g x)) l.
Proof. induction l as [|x l IH]; [done|]. cbn. by rewrite IH. Qed.

Lemma sum_list_with_scale (f : A → nat) (n : nat) l :
  sum_list_with (λ x, n * f x) l = n * sum_list_with f l.
Proof. induction l as [|x l IH]; cbn; [lia|]. rewrite IH. lia. Qed.
End sums.

Section combinations.
Context {A : Type}.
Implicit Types (l c : list A) (x : A).

Lemma combinations_gt l r : length l < r → combinations l r = [].
Proof.
  revert r. induction l as [|x l IH]; intros [|r] Hr; simpl in *; try lia; [done|].
  by rewrite !IH by lia.
Qed.

Lemma bind_nil {B : Type} (f : B → list (list A)) (rs : list B) :
  (∀ r, r ∈ rs → f r = []) → rs ≫= f = [].
Proof.
  induction rs as [|r rs IH]; intros H; [done|]. cbn.
  rewrite (H r) by left. apply IH. intros ??. apply H. by right.
Qed.

Lemma bind_seq_S {B : Type} (f : nat → list B) (a k : nat) :
  seq (S a) k ≫= f = seq a k ≫= (λ r, f (S r)).
Proof.
  revert a. induction k as [|k IH]; intros a; [done|]. cbn. by rewrite IH.
Qed.

Lemma bind_combinations_S x l (rs : list nat) :
  rs ≫= (λ r, combinations (x :: l) (S r))
  ≡ₚ fmap (cons x) (rs ≫= combinations l) ++ (rs ≫= λ r, combinations l (S r)).
Proof.
  induction rs as [|r rs IH]; [done|]. cbn [mbind list_bind combinations].
  fold (mbind (M := list) (λ r, combinations (x :: l) (S r)) rs).
  fold (mbind (M := list) (combinations l) rs).
  fold (mbind (M := list) (λ r, combinations l (S r)) rs).
  rewrite IH, fmap_app. solve_Permutation.
Qed.

(** Chaining the combinations of every size enumerates the subsequences. *)
Lemma combinations_sublists l k :
  length l ≤ k → seq 0 (S k) ≫= combinations l ≡ₚ sublists l.
Proof.
  revert k. induction l as [|x l IH]; intros k Hk.
  - cbn [seq]. rewrite bind_cons. rewrite bind_nil; [done|].
    intros [|r] Hr%elem_of_seq; [lia|done].
  - destruct k as [|k]; [simpl in Hk; lia|].
    change (seq 0 (S (S k))) with (0 :: seq 1 (S k)).
    rewrite bind_cons, bind_seq_S, bind_combinations_S.
    change (combinations (x :: l) 0) with [[] : list A].
    rewrite <- (bind_seq_S (combinations l)).
    cbn [sublists]. rewrite <- (IH k) at 1 by (simpl in Hk; lia).
    rewrite <- (IH (S k)) by (simpl in Hk; lia).
    change (seq 0 (S (S k))) with (0 :: seq 1 (S k)). rewrite bind_cons.
    replace (combinations l 0) with [[] : list A] by (by destruct l).
    solve_Permutation.
Qed.

Lemma length_sublists l : length (sublists l) = 2 ^ length l.
Proof.
  induction l as [|x l IH]; [done|].
  cbn [sublists]. rewrite length_app, length_fmap, IH. simpl. lia.
Qed.

Lemma sublists_sublist c l : c ∈ sublists l → c `sublist_of` l.
Proof.
  revert c. induction l as [|x l IH]; intros c; cbn [sublists].
  - intros ->%list_elem_of_singleton. constructor.
  - rewrite elem_of_app. intros [Hc|Hc].
    + apply list_elem_of_fmap in Hc as [c' [-> Hc']].
      apply sublist_skip. by apply IH.
    + apply sublist_cons. by apply IH.
Qed.

Lemma filter_sublists (P : A → Prop) `{!∀ x, Decision (P x)} l :
  filter P l ∈ sublists l.
Proof.
  induction l as [|x l IH]; [by left|].
  cbn [sublists]. rewrite elem_of_app, filter_cons.
  destruct (decide (P x)).
  - left. apply list_elem_of_fmap. eauto.
  - by right.
Qed.

(** Choosing a subsequence and then a subsequence of the rest: three
    choices for every element. *)
Lemma sum_sublists_rest l :
  sum_list_with (λ c, 2 ^ (length l - length c)) (sublists l) = 3 ^ length l.
Proof.
  induction l as [|x l IH]; [done|].
  cbn [sublists]. rewrite sum_list_with_app.
  assert (Hle : ∀ c, c ∈ sublists l → length c ≤ length l)
    by (intros c Hc%sublists_sublist; by apply sublist_length).
  rewrite sum_list_with_fmap.
  rewrite (sum_list_with_ext _ (λ c, 2 ^ (length l - length c)) (sublists l))
    by done.
  rewrite (sum_list_with_ext (λ c, 2 ^ (length (x :: l) - length c))
             (λ c, 2 * 2 ^ (length l - length c)) (sublists l)).
  - rewrite sum_list_with_scale, IH. simpl. lia.
  - intros c Hc%Hle. cbn [length].
    replace (S (length l) - length c) with (S (length l - length c)) by lia.
    done.
Qed.
End combinations.

Section sublists_sets.
Context {A : Type} `{EqDecision A}.
Implicit Types (l c : list A) (x : A).

Lemma filter_ext_in (P Q : A → Prop) `{!∀ x, Decision (P x), !∀ x, Decision (Q x)} l :
  (∀ x, x ∈ l → P x ↔ Q x) → filter P l = filter Q l.
Proof.
  induction l as [|x l IH]; intros Hext; [done|].
  rewrite !filter_cons, IH by (intros; apply Hext; by right).
  assert (P x ↔ Q x) by (apply Hext; by left).
  destruct (decide (P x)), (decide (Q x)); tauto || done.
Qed.

Lemma length_bind_singleton {B : Type} (f : A → B) l :
  length (l ≫= λ x, [f x]) = length l.
Proof. induction l as [|x l IH]; [done|]. cbn. by f_equal. Qed.

Lemma sublist_filter c l :
  NoDup l → c `sublist_of` l → c = filter (λ x, x ∈ c) l.
Proof.
  intros Hl Hc. induction Hc as [|x c l Hc IH|x c l Hc IH].
  - done.
  - apply NoDup_cons in Hl as [Hx Hl].
    rewrite filter_cons_True by left. f_equal.
    rewrite (IH Hl) at 1. apply filter_ext_in.
    intros y Hy. rewrite elem_of_cons. naive_solver.
  - apply NoDup_cons in Hl as [Hx Hl].
    rewrite filter_cons_False; [by apply IH|].
    intros Hxc. apply Hx. by eapply sublist_subseteq.
Qed.

Lemma sublist_same_elements c c' l :
  NoDup l → c `sublist_of` l → c' `sublist_of` l →
  (∀ x, x ∈ c ↔ x ∈ c') → c = c'.
Proof.
  intros Hl Hc Hc' Heq.
  rewrite (sublist_filter c l), (sublist_filter c' l) by done.
  by apply list_filter_iff.
Qed.

Lemma NoDup_sublists l : NoDup l → NoDup (sublists l).
Proof.
  induction l as [|x l IH]; intros Hl; [apply NoDup_singleton|].
  apply NoDup_cons in Hl as [Hx Hl]. cbn [sublists].
  apply NoDup_app. split_and!.
  - apply NoDup_fmap; [|by apply IH]. by intros ?? [=].
  - intros c [c' [-> _]]%list_elem_of_fmap Hc%sublists_sublist.
    apply Hx. eapply sublist_subseteq; [done|]. by left.
  - by apply IH.
Qed.
End sublists_sets.

Lemma powerset_sublists (s : gset string) :
  powerset s ≡ₚ list_to_set <$> sublists (elements s).
Proof.
  unfold powerset. apply fmap_Permutation.
  rewrite Nat.add_1_r. by apply combinations_sublists.
Qed.

Lemma sublists_elements_subseteq (c : list string) (s : gset string) :
  c ∈ sublists (elements s) → list_to_set c ⊆ s.
Proof.
  intros Hc%sublists_sublist%sublist_subseteq x Hx%elem_of_list_to_set.
  by apply elem_of_elements, Hc.
Qed.

Lemma elem_of_powerset (X s : gset string) : X ∈ powerset s ↔ X ⊆ s.
Proof.
  rewrite powerset_sublists, list_elem_of_fmap. split.
  - intros [c [-> Hc]]. by apply sublists_elements_subseteq.
  - intros HX. exists (filter (λ x, x ∈ X) (elements s)). split.
    + apply set_eq. intros x.
      rewrite elem_of_list_to_set, list_elem_of_filter, elem_of_elements.
      set_solver.
    + apply filter_sublists.
Qed.

Lemma NoDup_powerset (s : gset string) : NoDup (powerset s).
Proof.
  rewrite powerset_sublists.
  apply NoDup_fmap_2_strong; [|apply NoDup_sublists, NoDup_elements].
  intros c c' Hc%sublists_sublist Hc'%sublists_sublist Heq.
  eapply sublist_same_elements; [apply (NoDup_elements s)|done..|].
  intros x. rewrite <- !(elem_of_list_to_set (C := gset string)). by rewrite Heq.
Qed.

Lemma length_powerset (s : gset string) : length (powerset s) = 2 ^ size s.
Proof. by rewrite powerset_sublists, length_fmap, length_sublists. Qed.

Lemma size_difference_sublist (c : list string) (s : gset string) :
  c ∈ sublists (elements s) →
  size (s ∖ list_to_set c) = size s - length c.
Proof.
  intros Hc. rewrite size_difference by by apply sublists_elements_subseteq.
  rewrite size_list_to_set; [done|].
  eapply sublist_NoDup; [|by apply sublists_sublist]. apply NoDup_elements.
Qed.

Lemma elem_of_gene_partitions (one_gene two_genes names : gset string) :
  (one_gene, two_genes) ∈ gene_partitions names
  ↔ one_gene ⊆ names ∧ two_genes ⊆ names ∧ one_gene ## two_genes.
Proof.
  unfold gene_partitions. rewrite list_elem_of_bind. split.
  - intros [one [[two [Heq Htwo%elem_of_powerset]]%list_elem_of_bind
      Hone%elem_of_powerset]].
    apply list_elem_of_singleton in Heq as [= -> ->]. set_solver.
  - intros (H1 & H2 & Hd). exists one_gene. split; [|by apply elem_of_powerset].
    apply list_elem_of_bind. exists two_genes. split; [by left|].
    apply elem_of_powerset. set_solver.
Qed.

Lemma length_gene_partitions (names : gset string) :
  length (gene_partitions names) = 3 ^ size names.
Proof.
  unfold gene_partitions. rewrite length_bind.
  rewrite (sum_list_with_ext _ (λ one_gene, 2 ^ size (names ∖ one_gene)))
    by (intros; by rewrite length_bind_singleton, length_powerset).
  rewrite powerset_sublists, sum_list_with_fmap.
  rewrite (sum_list_with_ext _ (λ c, 2 ^ (length (elements names) - length c)))
    by (intros c Hc; by rewrite size_difference_sublist).
  apply sum_sublists_rest.
Qed.

(** ** The evidence filter *)

Lemma any_of_existsb {A : Type} (f : A → result bool) (g : A → bool) (l : list A) :
  (∀ x, x ∈ l → f x = Ok (g x)) → any_of f l = Ok (existsb g l).
Proof.
  induction l as [|x l IH]; intros H; [done|].
  cbn. rewrite (H x) by left. cbn.
  destruct (g x); [done|]. apply IH. intros ??. apply H. by right.
Qed.

Lemma fails_evidence_violates (people : gmap string Person) (have_trait : gset string) :
  fails_evidence people (dom people) have_trait = Ok (violates people have_trait).
Proof.
  apply any_of_existsb. intros person [p Hp]%elem_of_elements%elem_of_dom.
  unfold getitem. by rewrite Hp.
Qed.

Lemma contradicts_true (have_trait : gset string) (person : string) (p : Person) :
  contradicts have_trait person p = true
  ↔ ∃ t, trait p = Some t ∧ t ≠ bool_decide (person ∈ have_trait).
Proof.
  unfold contradicts. destruct (trait p) as [t|]; [|naive_solver].
  destruct t, (bool_decide (person ∈ have_trait)); naive_solver.
Qed.

Lemma violates_true (people : gmap string Person) (have_trait : gset string) :
  violates people have_trait = true
  ↔ ∃ person p t, people !! person = Some p ∧ trait p = Some t
                  ∧ t ≠ bool_decide (person ∈ have_trait).
Proof.
  unfold violates. rewrite existsb_exists. split.
  - intros (person & _ & Hc). destruct (people !! person) as [p|] eqn:Hp; [|done].
    apply contradicts_true in Hc as (t & Ht & Hne). eauto 6.
  - intros (person & p & t & Hp & Ht & Hne). exists person. split.
    + apply list_elem_of_In, elem_of_elements, elem_of_dom. eauto.
    + rewrite Hp. apply contradicts_true. eauto.
Qed.

(** ** The loops of [main] and the scenarios they score *)

Lemma for_each_app {A S : Type} (body : S → A → result S) (l k : list A) (s : S) :
  for_each body (l ++ k) s = s' ← for_each body l s; for_each body k s'.
Proof.
  revert s. induction l as [|x l IH]; intros s; [done|].
  cbn. destruct (body s x); [apply IH|done].
Qed.

Lemma for_each_bind {A B S : Type} (body : S → B → result S) (f : A → list B)
    (l : list A) (s : S) :
  for_each body (l ≫= f) s = for_each (λ s x, for_each body (f x) s) l s.
Proof.
  revert s. induction l as [|x l IH]; intros s; [done|].
  cbn. rewrite for_each_app. destruct (for_each body (f x) s); [apply IH|done].
Qed.

Lemma for_each_ext {A S : Type} (body body' : S → A → result S) (l : list A) (s : S) :
  (∀ s x, x ∈ l → body s x = body' s x) → for_each body l s = for_each body' l s.
Proof.
  revert s. induction l as [|x l IH]; intros s H; [done|].
  cbn. rewrite (H s x) by left. destruct (body' s x); [|done].
  apply IH. intros ???. apply H. by right.
Qed.

Lemma gene_loops_partitions (people : gmap string Person) (names have_trait : gset string)
    (probabilities : gmap string Distributions) :
  gene_loops people names have_trait probabilities
  = for_each (λ probabilities '(one_gene, two_genes),
        score people probabilities (one_gene, two_genes, have_trait))
      (gene_partitions names) probabilities.
Proof.
  unfold gene_loops, gene_partitions. rewrite for_each_bind.
  apply for_each_ext. intros probs one_gene _. rewrite for_each_bind.
  apply for_each_ext. intros probs' two_genes _. cbn.
  by destruct (joint_probability _ _ _ _).
Qed.

(** [main] calls [joint_probability] and [update] on the scenarios of
    [scenarios], in that order, and on nothing else. *)
Lemma accumulate_scenarios (people : gmap string Person) :
  accumulate people
  = for_each (score people) (scenarios people) ((λ _, zero_distributions) <$> people).
Proof.
  unfold accumulate, scenarios. rewrite for_each_bind.
  apply for_each_ext. intros probs have_trait _.
  unfold trait_loop_body. rewrite fails_evidence_violates. cbn.
  destruct (violates people have_trait); [done|].
  rewrite gene_loops_partitions, for_each_bind.
  apply for_each_ext. intros probs' [one_gene two_genes] _. cbn.
  by destruct (joint_probability _ _ _ _).
Qed.

Lemma elem_of_scenarios (people : gmap string Person)
    (one_gene two_genes have_trait : gset string) :
  (one_gene, two_genes, have_trait) ∈ scenarios people
  ↔ have_trait ⊆ dom people ∧ violates people have_trait = false
    ∧ one_gene ⊆ dom people ∧ two_genes ⊆ dom people ∧ one_gene ## two_genes.
Proof.
  unfold scenarios. rewrite list_elem_of_bind. split.
  - intros (ht & Hin & Hht%elem_of_powerset).
    destruct (violates people ht) eqn:Hv; [by apply elem_of_nil in Hin|].
    apply list_elem_of_bind in Hin as ([one two] & Heq & Hp%elem_of_gene_partitions).
    apply list_elem_of_singleton in Heq as [= -> -> ->]. naive_solver.
  - intros (Hht & Hv & Hp). exists have_trait. split; [|by apply elem_of_powerset].
    rewrite Hv. apply list_elem_of_bind. exists (one_gene, two_genes).
    split; [by left|]. by apply elem_of_gene_partitions.
Qed.

(** The enumeration never raises: every scenario is a partition of the
    population, on which [joint_probability] returns. *)
Lemma accumulate_updates (people : gmap string Person) :
  accumulate people
  = Ok (updates ((λ '(one_gene, two_genes, have_trait),
                    (one_gene, two_genes, have_trait,
                     scenario_probability people one_gene two_genes have_trait))
                 <$> scenarios people)
          ((λ _, zero_distributions) <$> people)).
Proof.
  rewrite accumulate_scenarios.
  assert (H : ∀ sc, sc ∈ scenarios people → sc ∈ scenarios people) by done.
  revert H. generalize (scenarios people) at 1 3 4.
  generalize ((λ _ : Person, zero_distributions) <$> people).
  intros probs l. revert probs.
  induction l as [|[[one two] ht] l IH]; intros probs H; [done|].
  assert (Hsc : (one, two, ht) ∈ scenarios people) by (apply H; by left).
  apply elem_of_scenarios in Hsc as (_ & _ & H1 & H2 & Hd). cbn.
  rewrite joint_probability_scenario by done. cbn.
  apply IH. intros ??. apply H. by right.
Qed.

(** ** Counting the scenarios *)

Lemma existsb_ext_in {A : Type} (f g : A → bool) (l : list A) :
  (∀ x, x ∈ l → f x = g x) → existsb f l = existsb g l.
Proof.
  induction l as [|x l IH]; intros H; [done|].
  cbn. rewrite (H x) by left. f_equal. apply IH. intros ??. apply H. by right.
Qed.

Lemma sum_list_with_zero {A : Type} (l : list A) : sum_list_with (λ _, 0) l = 0.
Proof. by induction l. Qed.

Lemma contradicts_member (ht ht' : gset string) (person : string) (p : Person) :
  bool_decide (person ∈ ht) = bool_decide (person ∈ ht') →
  contradicts ht person p = contradicts ht' person p.
Proof. unfold contradicts. by intros ->. Qed.

Lemma contradicts_lookup (people : gmap string Person) (ht : gset string)
    (person : string) :
  from_option (contradicts ht person) false (people !! person)
  = match people !! person ≫= trait with
    | Some t => negb (eqb t (bool_decide (person ∈ ht)))
    | None => false
    end.
Proof. by destruct (people !! person). Qed.

Section evidence_count.
Variable people : gmap string Person.

(** Every person without an observed trait doubles the number of
    candidates that agree with the evidence; an observed person leaves
    it as it is. *)
Lemma count_consistent (l : list string) :
  NoDup l →
  sum_list_with (λ c, if violates_on people l c then 0 else 1) (sublists l)
  = 2 ^ length (filter (λ person, people !! person ≫= trait = None) l).
Proof.
  induction l as [|x l IH]; intros Hl; [done|].
  apply NoDup_cons in Hl as [Hx Hl]. specialize (IH Hl).
  cbn [sublists]. rewrite sum_list_with_app, sum_list_with_fmap.
  set (cx (m : bool) := match people !! x ≫= trait with
                        | Some t => negb (eqb t m)
                        | None => false
                        end).
  assert (Hin : ∀ c, c ∈ sublists l →
    (if violates_on people (x :: l) (x :: c) then 0 else 1)
    = (if cx true || violates_on people l c then 0 else 1)).
  { intros c Hc. unfold violates_on. cbn [existsb].
    rewrite contradicts_lookup.
    rewrite bool_decide_eq_true_2 by (apply elem_of_list_to_set; left).
    rewrite (existsb_ext_in _ (λ person,
      from_option (contradicts (list_to_set c) person) false (people !! person)) l);
      [done|].
    intros y Hy. destruct (people !! y) as [p|]; [|done].
    apply contradicts_member, bool_decide_ext.
    rewrite !elem_of_list_to_set, elem_of_cons. naive_solver. }
  assert (Hout : ∀ c, c ∈ sublists l →
    (if violates_on people (x :: l) c then 0 else 1)
    = (if cx false || violates_on people l c then 0 else 1)).
  { intros c Hc. unfold violates_on. cbn [existsb].
    rewrite contradicts_lookup.
    rewrite bool_decide_eq_false_2; [done|].
    apply sublists_sublist, sublist_subseteq in Hc.
    intros Hxc%elem_of_list_to_set. by apply Hx, Hc. }
  rewrite (sum_list_with_ext (λ c, if violates_on people (x :: l) (x :: c) then 0 else 1)
             _ _ Hin).
  rewrite (sum_list_with_ext (λ c, if violates_on people (x :: l) c then 0 else 1)
             _ _ Hout).
  rewrite filter_cons. subst cx. cbn beta.
  destruct (people !! x ≫= trait) as [[]|]; cbn [negb eqb orb].
  - rewrite decide_False by done. rewrite sum_list_with_zero, IH. lia.
  - rewrite decide_False by done. rewrite sum_list_with_zero, IH. lia.
  - rewrite decide_True by done. rewrite IH. cbn [length]. simpl. lia.
Qed.

Lemma unobserved_elements :
  unobserved people
  = length (filter (λ person, people !! person ≫= trait = None)
              (elements (dom people))).
Proof.
  unfold unobserved. rewrite <- size_dom.
  rewrite (dom_filter_L _ _
    (filter (λ person, people !! person ≫= trait = None) (dom people))).
  - unfold size, set_size. cbn. apply Permutation_length.
    apply NoDup_Permutation.
    + apply NoDup_elements.
    + apply NoDup_filter, NoDup_elements.
    + intros person.
      by rewrite elem_of_elements, elem_of_filter, list_elem_of_filter,
        elem_of_elements.
  - intros person. rewrite elem_of_filter, elem_of_dom. split.
    + intros [Hn [p Hp]]. exists p. rewrite Hp in Hn. done.
    + intros (p & Hp & Hn). rewrite Hp. eauto.
Qed.

Lemma count_candidates :
  sum_list_with (λ have_trait, if violates people have_trait then 0 else 1)
    (powerset (dom people))
  = 2 ^ unobserved people.
Proof.
  rewrite powerset_sublists, sum_list_with_fmap, unobserved_elements.
  apply count_consistent, NoDup_elements.
Qed.

Lemma length_scenarios :
  length (scenarios people) = 3 ^ size people * 2 ^ unobserved people.
Proof.
  unfold scenarios. rewrite length_bind.
  rewrite (sum_list_with_ext _
    (λ have_trait, 3 ^ size people * (if violates people have_trait then 0 else 1))).
  - by rewrite sum_list_with_scale, count_candidates.
  - intros have_trait _. destruct (violates people have_trait); [simpl; lia|].
    rewrite <- size_dom, <- length_gene_partitions, Nat.mul_1_r.
    generalize (gene_partitions (dom people)). intros l.
    induction l as [|[??] l IH]; [done|]. cbn. by f_equal.
Qed.
End evidence_count.

Local Open Scope Qc_scope.

(** ** The normaliser *)

Lemma normalize_person_ok (d : Distributions) :
  nonzero_sums d → normalize_person d = Ok (divided d).
Proof.
  intros [Hg Ht]. unfold normalize_person, truediv.
  cbv zeta. by rewrite !decide_False by done.
Qed.

Lemma normalize_person_raise (d : Distributions) :
  ¬ nonzero_sums d → normalize_person d = Raise ZeroDivisionError.
Proof.
  intros Hz. unfold normalize_person, truediv.
  cbv zeta.
  destruct (decide (get_dist_sum (gene d) = 0)) as [|Hg]; [done|].
  destruct (decide (get_dist_sum (trait_dist d) = 0)) as [|Ht]; [done|].
  by destruct Hz.
Qed.

Lemma normalize_fold (base probabilities : gmap string Distributions) :
  let r := map_fold (λ person_name d acc,
               probabilities ← acc;
               d' ← normalize_person d;
               Ok (<[person_name := d']> probabilities))
             (Ok base) probabilities in
  (map_Forall (λ _, nonzero_sums) probabilities →
     r = Ok ((divided <$> probabilities) ∪ base))
  ∧ (¬ map_Forall (λ _, nonzero_sums) probabilities →
     r = Raise ZeroDivisionError).
Proof.
  cbv zeta. apply (map_fold_weak_ind (λ r m,
    (map_Forall (λ _, nonzero_sums) m → r = Ok ((divided <$> m) ∪ base))
    ∧ (¬ map_Forall (λ _, nonzero_sums) m → r = Raise ZeroDivisionError))).
  - split; [|intros []; apply map_Forall_empty].
    intros _. by rewrite fmap_empty, (left_id_L ∅ (∪)).
  - intros person_name d m r Hfresh [IHok IHraise]. split.
    + intros [Hd Hm]%map_Forall_insert; [|done].
      rewrite (IHok Hm). cbn. rewrite normalize_person_ok by done. cbn.
      by rewrite fmap_insert, insert_union_l.
    + intros Hnot. destruct (decide (map_Forall (λ _, nonzero_sums) m)) as [Hm|Hm].
      * rewrite (IHok Hm). cbn. rewrite normalize_person_raise; [done|].
        intros Hd. apply Hnot. by apply map_Forall_insert.
      * by rewrite (IHraise Hm).
Qed.

Lemma normalize_ok (probabilities : gmap string Distributions) :
  map_Forall (λ _, nonzero_sums) probabilities →
  normalize probabilities = Ok (divided <$> probabilities).
Proof.
  intros H. unfold normalize.
  rewrite (proj1 (normalize_fold probabilities probabilities) H). f_equal.
  apply map_eq. intros person. rewrite lookup_union, !lookup_fmap.
  by destruct (probabilities !! person).
Qed.

Lemma normalize_raise (probabilities : gmap string Distributions) :
  ¬ map_Forall (λ _, nonzero_sums) probabilities →
  normalize probabilities = Raise ZeroDivisionError.
Proof. apply normalize_fold. Qed.

Lemma divided_sums (d : Distributions) :
  nonzero_sums d →
  get_dist_sum (gene (divided d)) = 1 ∧ get_dist_sum (trait_dist (divided d)) = 1.
Proof.
  intros [Hg Ht]. rewrite get_dist_sum_gene, get_dist_sum_trait. cbn.
  rewrite get_dist_sum_gene, get_dist_sum_trait in *. split; by field.
Qed.

Lemma Qcdiv_1_r (x : Qc) : x / 1 = x.
Proof. field. discriminate. Qed.

Lemma divided_id (d : Distributions) :
  get_dist_sum (gene d) = 1 → get_dist_sum (trait_dist d) = 1 → divided d = d.
Proof.
  intros Hg Ht. unfold divided. rewrite Hg, Ht. rewrite !Qcdiv_1_r. by destruct d.
Qed.

(** ** Accumulation *)

Lemma lookup_update (probabilities : gmap string Distributions)
    (one_gene two_genes have_trait : gset string) (p : Qc) (person : string) :
  update probabilities one_gene two_genes have_trait p !! person
  = update_person person one_gene two_genes have_trait p <$> probabilities !! person.
Proof.
  unfold update. rewrite map_lookup_imap. by destruct (probabilities !! person).
Qed.

Lemma update_person_gene (person : string) (one_gene two_genes have_trait : gset string)
    (p : Qc) (d : Distributions) :
  gene (update_person person one_gene two_genes have_trait p d)
  = match assigned_gene_count one_gene two_genes person with
    | G2 => [gene2 d + p; gene1 d; gene0 d]
    | G1 => [gene2 d; gene1 d + p; gene0 d]
    | G0 => [gene2 d; gene1 d; gene0 d + p]
    end.
Proof.
  unfold update_person, assigned_gene_count.
  by destruct (decide (person ∈ have_trait)), (decide (person ∈ one_gene)),
    (decide (person ∈ two_genes)).
Qed.

Lemma update_person_trait (person : string) (one_gene two_genes have_trait : gset string)
    (p : Qc) (d : Distributions) :
  trait_dist (update_person person one_gene two_genes have_trait p d)
  = if bool_decide (person ∈ have_trait)
    then [traitTrue d + p; traitFalse d]
    else [traitTrue d; traitFalse d + p].
Proof.
  unfold update_person.
  destruct (decide (person ∈ have_trait));
    [rewrite bool_decide_eq_true_2 by done|rewrite bool_decide_eq_false_2 by done];
    by destruct (decide (person ∈ one_gene)), (decide (person ∈ two_genes)).
Qed.

Lemma update_person_record (person : string) (one_gene two_genes have_trait : gset string)
    (p g2 g1 g0 tT tF : Qc) :
  update_person person one_gene two_genes have_trait p
    {| gene2 := g2; gene1 := g1; gene0 := g0; traitTrue := tT; traitFalse := tF |}
  = {| gene2 := match assigned_gene_count one_gene two_genes person with
                | G2 => g2 + p
                | _ => g2
                end;
       gene1 := match assigned_gene_count one_gene two_genes person with
                | G1 => g1 + p
                | _ => g1
                end;
       gene0 := match assigned_gene_count one_gene two_genes person with
                | G0 => g0 + p
                | _ => g0
                end;
       traitTrue := if bool_decide (person ∈ have_trait) then tT + p else tT;
       traitFalse := if bool_decide (person ∈ have_trait) then tF else tF + p |}.
Proof.
  unfold update_person, assigned_gene_count.
  destruct (decide (person ∈ have_trait));
    [rewrite bool_decide_eq_true_2 by done|rewrite bool_decide_eq_false_2 by done];
    by destruct (decide (person ∈ one_gene)), (decide (person ∈ two_genes)).
Qed.

Lemma update_person_sums (person : string) (one_gene two_genes have_trait : gset string)
    (p : Qc) (d : Distributions) :
  let d' := update_person person one_gene two_genes have_trait p d in
  get_dist_sum (gene d') = get_dist_sum (gene d) + p
  ∧ get_dist_sum (trait_dist d') = get_dist_sum (trait_dist d) + p.
Proof.
  cbv zeta. rewrite update_person_gene, update_person_trait.
  rewrite get_dist_sum_gene, get_dist_sum_trait. split.
  - destruct (assigned_gene_count one_gene two_genes person);
      unfold get_dist_sum; cbn [fold_left]; ring.
  - destruct (bool_decide (person ∈ have_trait));
      unfold get_dist_sum; cbn [fold_left]; ring.
Qed.

Lemma updates_snoc (calls : list (gset string * gset string * gset string * Qc))
    (one_gene two_genes have_trait : gset string) (p : Qc)
    (probabilities : gmap string Distributions) :
  updates (calls ++ [(one_gene, two_genes, have_trait, p)]) probabilities
  = update (updates calls probabilities) one_gene two_genes have_trait p.
Proof. unfold updates. by rewrite fold_left_app. Qed.

Lemma total_mass_snoc (calls : list (gset string * gset string * gset string * Qc))
    (one_gene two_genes have_trait : gset string) (p : Qc) :
  total_mass (calls ++ [(one_gene, two_genes, have_trait, p)])
  = total_mass calls + p.
Proof.
  induction calls as [|[[[??]?] q] calls IH]; cbn.
  - ring.
  - fold (total_mass (calls ++ [(one_gene, two_genes, have_trait, p)])).
    fold (total_mass calls). rewrite IH. ring.
Qed.

Lemma updates_sums (people : gmap string Person)
    (calls : list (gset string * gset string * gset string * Qc))
    (person : string) (d : Distributions) :
  updates calls ((λ _, zero_distributions) <$> people) !! person = Some d →
  get_dist_sum (gene d) = total_mass calls
  ∧ get_dist_sum (trait_dist d) = total_mass calls.
Proof.
  revert d. induction calls as [|[[[one two] ht] p] calls IH] using rev_ind; intros d.
  - cbn. rewrite lookup_fmap. destruct (people !! person); [|done].
    intros [= <-]. split; unfold get_dist_sum; cbn; ring.
  - rewrite updates_snoc, lookup_update, total_mass_snoc.
    destruct (updates calls _ !! person) as [d0|]; [|done].
    intros [= <-]. destruct (IH d0 eq_refl) as [Hg Ht].
    rewrite <- Hg at 1. rewrite <- Ht. apply update_person_sums.
Qed.

(** ** Persons with a missing parent *)

Lemma gene_p_loop_entries (unconditional : Qc) (combine : Qc → Qc → Qc)
    (people : gmap string Person) (one_gene two_genes : gset string)
    (names : list string) (prob_dict : list (string * Qc)) (n : string) (v : Qc) :
  gene_p_loop unconditional combine people one_gene two_genes names = Ok prob_dict →
  (n, v) ∈ prob_dict →
  n ∈ names ∧ v = gene_p_entry unconditional combine people one_gene two_genes n.
Proof.
  revert prob_dict. induction names as [|n' names IH]; intros prob_dict.
  - intros [= <-] ?%elem_of_nil. done.
  - cbn [gene_p_loop]. unfold getitem.
    destruct (people !! n') as [p|] eqn:Hp; [|done]. cbn.
    destruct (gene_p_loop _ _ _ _ _ names) as [dict|]; [|done]. cbn.
    intros [= <-] [[= -> ->]|Hin]%elem_of_cons.
    + split; [by left|]. unfold gene_p_entry, parents. rewrite Hp. cbn.
      by destruct (father p), (mother p).
    + destruct (IH dict eq_refl Hin). split; [by right|done].
Qed.

Lemma gene_p_loop_ext (unconditional : Qc) (combine : Qc → Qc → Qc)
    (people people' : gmap string Person) (one_gene two_genes : gset string)
    (names : list string) :
  (∀ n, parents <$> people !! n = parents <$> people' !! n) →
  gene_p_loop unconditional combine people one_gene two_genes names
  = gene_p_loop unconditional combine people' one_gene two_genes names.
Proof.
  intros Hext. induction names as [|n names IH]; [done|].
  cbn [gene_p_loop]. rewrite IH. unfold getitem. specialize (Hext n).
  destruct (people !! n) as [p|], (people' !! n) as [p'|]; try done.
  cbn in *. injection Hext as Hext. unfold parents in Hext.
  destruct (father p), (mother p), (father p'), (mother p'); by simplify_eq.
Qed.

Lemma joint_probability_ext (people people' : gmap string Person)
    (one_gene two_genes have_trait : gset string) :
  (∀ n, parents <$> people !! n = parents <$> people' !! n) →
  joint_probability people one_gene two_genes have_trait
  = joint_probability people' one_gene two_genes have_trait.
Proof.
  intros Hext. unfold joint_probability, one_gene_p, two_genes_p, zero_gene_p.
  assert (dom people = dom people') as ->.
  { apply set_eq. intros n. rewrite !elem_of_dom. specialize (Hext n).
    destruct (people !! n), (people' !! n); naive_solver. }
  by rewrite !(gene_p_loop_ext _ _ people people').
Qed.

(** ** A population of one founder *)

Lemma Qc_decide_neq (x y : Qc) : Qeq_bool (this x) (this y) = false → x ≠ y.
Proof. intros H ->. by rewrite Qeq_bool_refl in H. Qed.

Lemma powerset_empty : powerset ∅ = [∅].
Proof. unfold powerset. by rewrite elements_empty. Qed.

Lemma powerset_singleton (n : string) : powerset {[n]} = [∅; {[n]}].
Proof.
  unfold powerset. rewrite elements_singleton. cbn.
  by rewrite (right_id_L ∅ (∪)).
Qed.

Lemma gene_partitions_singleton (n : string) :
  gene_partitions {[n]} = [(∅, ∅); (∅, {[n]}); ({[n]}, ∅)].
Proof.
  unfold gene_partitions. rewrite powerset_singleton. cbn.
  rewrite difference_empty_L, difference_diag_L.
  by rewrite powerset_singleton, powerset_empty.
Qed.

Lemma bool_decide_elem_of (x : string) (X : gset string) :
  x ∈ X → bool_decide (x ∈ X) = true.
Proof. apply bool_decide_eq_true_2. Qed.

Lemma bool_decide_not_elem_of (x : string) (X : gset string) :
  x ∉ X → bool_decide (x ∈ X) = false.
Proof. apply bool_decide_eq_false_2. Qed.

Section one_founder.
Variables (n : string) (founder : Person).
Hypothesis no_mother : mother founder = None.
Hypothesis no_father : father founder = None.
Hypothesis unobserved_trait : trait founder = None.

Lemma scenarios_founder :
  scenarios {[n := founder]}
  = [(∅, ∅, ∅); (∅, {[n]}, ∅); ({[n]}, ∅, ∅);
     (∅, ∅, {[n]}); (∅, {[n]}, {[n]}); ({[n]}, ∅, {[n]})].
Proof.
  unfold scenarios. rewrite dom_singleton_L, powerset_singleton.
  assert (Hv : ∀ ht, violates {[n := founder]} ht = false).
  { intros ht. unfold violates. rewrite dom_singleton_L, elements_singleton.
    cbn. rewrite lookup_singleton_eq. cbn. unfold contradicts.
    by rewrite unobserved_trait. }
  cbn. rewrite !Hv. by rewrite gene_partitions_singleton.
Qed.

Lemma scenario_probability_founder (one_gene two_genes have_trait : gset string) :
  scenario_probability {[n := founder]} one_gene two_genes have_trait
  = PROBS.gene (assigned_gene_count one_gene two_genes n)
    * PROBS.trait (assigned_gene_count one_gene two_genes n)
        (bool_decide (n ∈ have_trait)).
Proof.
  unfold scenario_probability. rewrite dom_singleton_L, elements_singleton.
  cbn [fmap list_fmap]. unfold product. cbn [foldr].
  unfold gene_count_probability, trait_probability, parents.
  rewrite lookup_singleton_eq. cbn [mbind option_bind].
  rewrite no_mother, no_father. ring.
Qed.

Lemma update_singleton (d : Distributions) (one_gene two_genes have_trait : gset string)
    (p : Qc) :
  update {[n := d]} one_gene two_genes have_trait p
  = {[n := update_person n one_gene two_genes have_trait p d]}.
Proof.
  apply map_eq. intros person. rewrite lookup_update.
  destruct (decide (n = person)) as [->|Hne].
  - by rewrite !lookup_singleton_eq.
  - by rewrite !lookup_singleton_ne.
Qed.

(** The accumulated table: every bucket holds the prior weight of its
    gene count times the trait weight, summed over the other variable. *)
Lemma accumulate_founder :
  accumulate {[n := founder]}
  = Ok {[n := {|
      gene2 := PROBS.gene G2 * PROBS.trait G2 false + PROBS.gene G2 * PROBS.trait G2 true;
      gene1 := PROBS.gene G1 * PROBS.trait G1 false + PROBS.gene G1 * PROBS.trait G1 true;
      gene0 := PROBS.gene G0 * PROBS.trait G0 false + PROBS.gene G0 * PROBS.trait G0 true;
      traitTrue := PROBS.gene G0 * PROBS.trait G0 true
                   + PROBS.gene G2 * PROBS.trait G2 true
                   + PROBS.gene G1 * PROBS.trait G1 true;
      traitFalse := PROBS.gene G0 * PROBS.trait G0 false
                    + PROBS.gene G2 * PROBS.trait G2 false
                    + PROBS.gene G1 * PROBS.trait G1 false |} ]}.
Proof.
  rewrite accumulate_updates, scenarios_founder, map_fmap_singleton.
  cbn [fmap list_fmap updates fold_left].
  rewrite !update_singleton, !scenario_probability_founder.
  assert (H0 : assigned_gene_count ∅ ∅ n = G0)
    by (unfold assigned_gene_count; rewrite !decide_False; set_solver).
  assert (H1 : assigned_gene_count {[n]} ∅ n = G1)
    by (unfold assigned_gene_count; rewrite decide_True; set_solver).
  assert (H2 : assigned_gene_count ∅ {[n]} n = G2)
    by (unfold assigned_gene_count; rewrite decide_False, decide_True; set_solver).
  pose proof (bool_decide_not_elem_of n ∅ (not_elem_of_empty n)) as Hout.
  pose proof (bool_decide_elem_of n {[n]} (elem_of_singleton_2 n n eq_refl)) as Hin.
  rewrite H0, H1, H2, Hout, Hin. unfold zero_distributions.
  repeat (rewrite update_person_record, ?H0, ?H1, ?H2, ?Hout, ?Hin; cbv iota).
  by rewrite !Qcplus_0_l.
Qed.
End one_founder.

(** ** [main] returns *)

Ltac Qc_positive := unfold Qclt; vm_compute; reflexivity.

Lemma product_pos (l : list Qc) : Forall (λ x, 0 < x) l → 0 < product l.
Proof.
  induction 1 as [|x l Hx _ IH]; cbn.
  - Qc_positive.
  - by apply Qcmult_pos_pos.
Qed.

Lemma gene_count_probability_pos (people : gmap string Person)
    (one_gene two_genes : gset string) (person : string) :
  0 < gene_count_probability people one_gene two_genes person.
Proof.
  unfold gene_count_probability.
  generalize (assigned_gene_count one_gene two_genes person). intros g.
  destruct (people !! person ≫= parents) as [[f m]|].
  - generalize (assigned_gene_count one_gene two_genes f),
      (assigned_gene_count one_gene two_genes m).
    intros gf gm. destruct g, gf, gm; Qc_positive.
  - destruct g; Qc_positive.
Qed.

Lemma trait_probability_pos (one_gene two_genes have_trait : gset string)
    (person : string) :
  0 < trait_probability one_gene two_genes have_trait person.
Proof.
  unfold trait_probability.
  destruct (assigned_gene_count _ _ _), (bool_decide _); Qc_positive.
Qed.

Lemma scenario_probability_pos (people : gmap string Person)
    (one_gene two_genes have_trait : gset string) :
  0 < scenario_probability people one_gene two_genes have_trait.
Proof.
  apply product_pos, Forall_fmap, Forall_forall. intros person _. cbn.
  apply Qcmult_pos_pos;
    [apply gene_count_probability_pos|apply trait_probability_pos].
Qed.

Lemma total_mass_pos (calls : list (gset string * gset string * gset string * Qc)) :
  calls ≠ [] → Forall (λ call, 0 < call.2) calls → 0 < total_mass calls.
Proof.
  intros Hne Hpos. destruct Hpos as [|[[[one two] ht] p] calls Hp Hpos]; [done|].
  cbn. apply Qcplus_pos_nonneg; [done|]. clear Hne Hp.
  induction Hpos as [|[[[one' two'] ht'] q] calls Hq _ IH]; cbn.
  - done.
  - apply Qcplus_nonneg_nonneg; [by apply Qclt_le_weak|done].
Qed.

(** Some candidate always agrees with the evidence: the set of the persons
    observed with the trait. *)
Lemma scenarios_nonempty (people : gmap string Person) : scenarios people ≠ [].
Proof.
  set (ht := filter (λ person, people !! person ≫= trait = Some true) (dom people)).
  assert (Hin : (∅, ∅, ht) ∈ scenarios people).
  { apply elem_of_scenarios. split_and!; try set_solver.
    apply not_true_is_false. intros (person & p & t & Hp & Ht & Hne)%violates_true.
    apply Hne. symmetry. destruct t.
    - apply bool_decide_eq_true_2, elem_of_filter. rewrite Hp. cbn.
      split; [done|]. apply elem_of_dom. eauto.
    - apply bool_decide_eq_false_2. intros [Hc _]%elem_of_filter.
      rewrite Hp in Hc. cbn in Hc. congruence. }
  intros Hnil. rewrite Hnil in Hin. by apply elem_of_nil in Hin.
Qed.

(** For every population [main] returns a table, of the persons of the
    population, in which every distribution sums to 1. *)
Lemma main_returns (people : gmap string Person) :
  ∃ probabilities,
    main people = Ok probabilities
    ∧ dom probabilities = dom people
    ∧ ∀ person d, probabilities !! person = Some d →
        get_dist_sum (gene d) = 1 ∧ get_dist_sum (trait_dist d) = 1.
Proof.
  unfold main. rewrite accumulate_updates. cbn [mbind result_bind].
  set (calls := _ <$> scenarios people).
  assert (Hmass : 0 < total_mass calls).
  { apply total_mass_pos.
    - subst calls. intros Hnil%fmap_nil_inv. by apply (scenarios_nonempty people).
    - subst calls. apply Forall_fmap, Forall_forall. intros [[one two] ht] _. cbn.
      apply scenario_probability_pos. }
  assert (Hnz : map_Forall (λ _, nonzero_sums)
                  (updates calls ((λ _, zero_distributions) <$> people))).
  { intros person d Hd. destruct (updates_sums people calls person d Hd) as [Hg Ht].
    unfold nonzero_sums. rewrite Hg, Ht.
    split; apply not_eq_sym, Qclt_not_eq, Hmass. }
  exists (divided <$> updates calls ((λ _, zero_distributions) <$> people)).
  split_and!.
  - by apply normalize_ok.
  - rewrite dom_fmap_L. clear. induction calls as [|[[[one two] ht] p] calls IH] using rev_ind.
    + apply dom_fmap_L.
    + rewrite updates_snoc. unfold update. by rewrite dom_imap_L with (X := dom people);
        [|intros person; rewrite <- IH, elem_of_dom; split;
          [intros [d Hd]; eauto|intros (d & Hd & _); eauto]].
  - intros person d. rewrite lookup_fmap.
    destruct (updates calls _ !! person) as [d0|] eqn:Hd0; [|done].
    intros [= <-]. by apply divided_sums, (Hnz person).
Qed.

(** * The claims *)

(** ** C1 *)

(** C1. For a population, a partition of it into the persons with one copy
    ([one_gene]), with two copies ([two_genes]) and the rest, and a set
    [have_trait], [joint_probability] returns the product over all persons
    of their gene-count probability and their trait probability: the
    gene-count probability of a person with parents is [(1 - pf)(1 - pm)],
    [pf(1 - pm) + pm(1 - pf)] or [pf·pm] for 0, 1 or 2 copies, with [pf] and
    [pm] the transmission probabilities of the parents in the same
    scenario, that of a founder is the prior of the assigned gene count,
    and the trait probability is the entry of the trait table for the
    assigned gene count and trait value. *)
Theorem joint_probability_product (people : gmap string Person)
    (one_gene two_genes have_trait : gset string) :
  one_gene ⊆ dom people → two_genes ⊆ dom people → one_gene ## two_genes →
  joint_probability people one_gene two_genes have_trait
  = Ok (product ((λ person,
          gene_count_probability people one_gene two_genes person
          * trait_probability one_gene two_genes have_trait person)
        <$> elements (dom people)))
  ∧ ∀ person p, people !! person = Some p →
      let g := assigned_gene_count one_gene two_genes person in
      trait_probability one_gene two_genes have_trait person
      = PROBS.trait g (bool_decide (person ∈ have_trait))
      ∧ (father p = None → mother p = None →
         gene_count_probability people one_gene two_genes person = PROBS.gene g)
      ∧ (∀ f m, father p = Some f → mother p = Some m →
         let pf := person_prob f one_gene two_genes in
         let pm := person_prob m one_gene two_genes in
         gene_count_probability people one_gene two_genes person
         = match g with
           | G0 => (1 - pf) * (1 - pm)
           | G1 => pf * (1 - pm) + pm * (1 - pf)
           | G2 => pf * pm
           end).
Proof.
  intros H1 H2 Hdisj. split; [by apply joint_probability_scenario|].
  intros person p Hp. cbv zeta. split_and!.
  - done.
  - intros Hf Hm. unfold gene_count_probability, parents. rewrite Hp. cbn.
    by rewrite Hf.
  - intros f m Hf Hm. unfold gene_count_probability, parents. rewrite Hp. cbn.
    rewrite Hf, Hm. by rewrite !person_prob_transmission.
Qed.

Lemma joint_probability_product_witness :
  joint_probability family {["Harry"%string]} {["James"%string]} {["James"%string]}
  = Ok (product ((λ person,
          gene_count_probability family {["Harry"%string]} {["James"%string]} person
          * trait_probability {["Harry"%string]} {["James"%string]}
              {["James"%string]} person)
        <$> elements (dom family))).
Proof.
  assert (H1 : ({["Harry"%string]} : gset string) ⊆ dom family)
    by (decide_by_computation).
  assert (H2 : ({["James"%string]} : gset string) ⊆ dom family)
    by (decide_by_computation).
  assert (Hd : ({["Harry"%string]} : gset string) ## {["James"%string]})
    by (decide_by_computation).
  exact (proj1 (joint_probability_product family {["Harry"%string]}
                  {["James"%string]} {["James"%string]} H1 H2 Hd)).
Defined.

(** ** C2 *)

Lemma gene_p_entry_parents (unconditional : Qc) (combine : Qc → Qc → Qc)
    (people : gmap string Person) (one_gene two_genes : gset string)
    (person : string) (p : Person) (f m : string) :
  people !! person = Some p → father p = Some f → mother p = Some m →
  gene_p_entry unconditional combine people one_gene two_genes person
  = combine (person_prob f one_gene two_genes) (person_prob m one_gene two_genes).
Proof.
  intros Hp Hf Hm. unfold gene_p_entry, parents. rewrite Hp. cbn.
  by rewrite Hf, Hm.
Qed.

(** C2. With mutation rate [m = 0.01], the probability that a parent
    transmits a copy is [1 - m = 0.99] for a parent assigned two copies,
    [0.5 × (1 - m) = 0.495] for one copy and [m = 0.01] for none; and what
    [joint_probability] stores for a child with both parents is built from
    [person_prob] of the parents and its complement [1 - person_prob]: the
    probability of not transmitting is the complement of that of
    transmitting. *)
Theorem person_prob_transmits (parent : string) (one_gene two_genes : gset string) :
  one_gene ## two_genes →
  person_prob parent one_gene two_genes
  = match assigned_gene_count one_gene two_genes parent with
    | G2 => 1 - PROBS.mutation
    | G1 => Q2Qc 0.5 * (1 - PROBS.mutation)
    | G0 => PROBS.mutation
    end
  ∧ PROBS.mutation = Q2Qc 0.01
  ∧ 1 - PROBS.mutation = Q2Qc 0.99
  ∧ Q2Qc 0.5 * (1 - PROBS.mutation) = Q2Qc 0.495
  ∧ ∀ (people : gmap string Person) (person : string) (p : Person) (f m : string)
      (prob_dict : list (string * Qc)) (v : Qc),
      people !! person = Some p → father p = Some f → mother p = Some m →
      (person, v) ∈ prob_dict →
      let poppa_p := person_prob f one_gene two_genes in
      let momma_p := person_prob m one_gene two_genes in
      (zero_gene_p people one_gene two_genes = Ok prob_dict →
         v = (1 - poppa_p) * (1 - momma_p))
      ∧ (one_gene_p people one_gene two_genes = Ok prob_dict →
         v = poppa_p * (1 - momma_p) + momma_p * (1 - poppa_p))
      ∧ (two_genes_p people one_gene two_genes = Ok prob_dict →
         v = poppa_p * momma_p).
Proof.
  intros Hdisj. split_and!.
  - apply (person_prob_transmission parent one_gene two_genes Hdisj).
  - done.
  - Qc_compute.
  - Qc_compute.
  - intros people person p f m prob_dict v Hp Hf Hm Hin. cbv zeta.
    split_and!; intros Hloop;
      destruct (gene_p_loop_entries _ _ _ _ _ _ _ _ _ Hloop Hin) as [_ ->];
      by rewrite (gene_p_entry_parents _ _ _ _ _ _ p f m).
Qed.

Lemma person_prob_transmits_witness :
  person_prob "James" {["James"%string]} {["Lily"%string]}
  = match assigned_gene_count {["James"%string]} {["Lily"%string]} "James" with
    | G2 => 1 - PROBS.mutation
    | G1 => Q2Qc 0.5 * (1 - PROBS.mutation)
    | G0 => PROBS.mutation
    end.
Proof.
  apply (person_prob_transmits "James" {["James"%string]} {["Lily"%string]}).
  decide_by_computation.
Defined.

(** ** C3 *)

(** C3. A candidate set [have_trait] that contradicts the observed trait of
    some person (observed with the trait and absent from the set, or
    observed without it and present) leaves every accumulator as it is: the
    body of the outer loop returns the table unchanged, and no scenario
    that [main] scores has this [have_trait], where [main] scores exactly
    the scenarios of [scenarios].  A candidate that agrees with every
    observed person passes the test, whatever it holds of the persons
    without an observation. *)
Theorem contradicting_candidate_skipped (people : gmap string Person)
    (probabilities : gmap string Distributions) (have_trait : gset string)
    (person : string) (p : Person) (t : bool) :
  people !! person = Some p → trait p = Some t →
  t ≠ bool_decide (person ∈ have_trait) →
  trait_loop_body people (dom people) probabilities have_trait = Ok probabilities
  ∧ (∀ one_gene two_genes, (one_gene, two_genes, have_trait) ∉ scenarios people)
  ∧ accumulate people
    = for_each (score people) (scenarios people)
        ((λ _, zero_distributions) <$> people)
  ∧ ∀ candidate : gset string,
      (∀ person' p' t', people !! person' = Some p' → trait p' = Some t' →
                        t' = bool_decide (person' ∈ candidate)) →
      fails_evidence people (dom people) candidate = Ok false.
Proof.
  intros Hp Ht Hne.
  assert (Hv : violates people have_trait = true)
    by (apply violates_true; eauto 6).
  split_and!.
  - unfold trait_loop_body. rewrite fails_evidence_violates. cbn. by rewrite Hv.
  - intros one_gene two_genes (_ & Hv' & _)%elem_of_scenarios. congruence.
  - apply accumulate_scenarios.
  - intros candidate Hagree. rewrite fails_evidence_violates. f_equal.
    apply not_true_is_false. intros (q & pq & tq & Hq & Htq & Hneq)%violates_true.
    by apply Hneq, (Hagree q pq).
Qed.

Lemma contradicting_candidate_skipped_witness :
  trait_loop_body harry_observed (dom harry_observed)
    ((λ _, zero_distributions) <$> harry_observed) ∅
  = Ok ((λ _, zero_distributions) <$> harry_observed).
Proof.
  apply (contradicting_candidate_skipped harry_observed
           ((λ _, zero_distributions) <$> harry_observed) ∅
           "Harry" (founder "Harry" (Some true)) true); [reflexivity..|].
  vm_compute. discriminate.
Defined.

(** ** C4 *)

Lemma NoDup_gene_partitions (names : gset string) : NoDup (gene_partitions names).
Proof.
  unfold gene_partitions. apply NoDup_bind; [| |apply NoDup_powerset].
  - intros one one' [one'' two] _ _
      (two1 & [= -> ->]%list_elem_of_singleton & _)%list_elem_of_bind
      (two2 & [= -> _]%list_elem_of_singleton & _)%list_elem_of_bind.
    done.
  - intros one _. apply NoDup_bind; [| |apply NoDup_powerset].
    + intros two two' [one' two''] _ _
        [= _ ->]%list_elem_of_singleton [= _ ->]%list_elem_of_singleton.
      done.
    + intros. apply NoDup_singleton.
Qed.

(** C4, as stated, fails: for one founder observed with the trait [main]
    scores 3 scenarios, not [6 ^ 1]. *)
Lemma scenarios_observed_not_6_pow_n :
  length (scenarios harry_observed) = 3%nat
  ∧ length (scenarios harry_observed) ≠ (6 ^ size harry_observed)%nat.
Proof. vm_compute. split; [reflexivity|discriminate]. Qed.

(** C4, amended.  For a population of [n] persons of which [u] have no
    observed trait, the candidates [have_trait] are the subsets of the
    population, each once ([2 ^ n] of them); the pairs
    [(one_gene, two_genes)] are the ordered pairs of disjoint subsets, each
    once ([3 ^ n] of them); [main] walks the pairs only under a candidate
    that agrees with the evidence, so it scores [3 ^ n × 2 ^ u] scenarios,
    which is [6 ^ n] when nobody has an observed trait. *)
Theorem scenarios_count (people : gmap string Person) :
  ((∀ have_trait, have_trait ∈ powerset (dom people) ↔ have_trait ⊆ dom people)
   ∧ NoDup (powerset (dom people))
   ∧ length (powerset (dom people)) = 2 ^ size people)%nat
  ∧ ((∀ one_gene two_genes,
        (one_gene, two_genes) ∈ gene_partitions (dom people)
        ↔ one_gene ⊆ dom people ∧ two_genes ⊆ dom people ∧ one_gene ## two_genes)
     ∧ NoDup (gene_partitions (dom people))
     ∧ length (gene_partitions (dom people)) = 3 ^ size people)%nat
  ∧ (∀ one_gene two_genes have_trait,
       (one_gene, two_genes, have_trait) ∈ scenarios people
       ↔ (one_gene, two_genes) ∈ gene_partitions (dom people)
         ∧ have_trait ∈ powerset (dom people)
         ∧ violates people have_trait = false)
  ∧ (length (scenarios people) = 3 ^ size people * 2 ^ unobserved people)%nat
  ∧ (unobserved people = size people →
     length (scenarios people) = 6 ^ size people)%nat.
Proof.
  split_and!.
  - intros. apply elem_of_powerset.
  - apply NoDup_powerset.
  - by rewrite length_powerset, size_dom.
  - intros. apply elem_of_gene_partitions.
  - apply NoDup_gene_partitions.
  - by rewrite length_gene_partitions, size_dom.
  - intros. rewrite elem_of_scenarios, elem_of_gene_partitions, elem_of_powerset.
    naive_solver.
  - apply length_scenarios.
  - intros Hu. rewrite length_scenarios, Hu, <- Nat.pow_mul_l. done.
Qed.

Lemma scenarios_count_witness :
  unobserved half_orphan = size half_orphan
  ∧ length (scenarios half_orphan) = (6 ^ size half_orphan)%nat.
Proof.
  assert (H : unobserved half_orphan = size half_orphan) by (vm_compute; reflexivity).
  split; [exact H|].
  exact (proj2 (proj2 (proj2 (proj2 (scenarios_count half_orphan)))) H).
Defined.

(** ** C5 *)


Lemma sample_table_nonzero (person : string) (d : Distributions) :
  sample_table !! person = Some d →
  get_dist_sum (gene d) ≠ 0 ∧ get_dist_sum (trait_dist d) ≠ 0.
Proof.
  unfold sample_table. intros [_ <-]%lookup_singleton_Some.
  split; apply Qc_decide_neq; vm_compute; reflexivity.
Defined.


(** ** C6 *)

(** C6. When some person's accumulated gene or trait distribution has sum
    zero, [normalize] raises [ZeroDivisionError]: the error ends the run
    and no table is returned.  Whenever [main] does return a table, every
    distribution in it sums to 1: none is all zero. *)
Theorem normalize_zero_sum_raises (probabilities : gmap string Distributions)
    (person : string) (d : Distributions) :
  probabilities !! person = Some d →
  get_dist_sum (gene d) = 0 ∨ get_dist_sum (trait_dist d) = 0 →
  normalize probabilities = Raise ZeroDivisionError
  ∧ ∀ people result, main people = Ok result →
      ∀ person' d', result !! person' = Some d' →
        get_dist_sum (gene d') = 1 ∧ get_dist_sum (trait_dist d') = 1.
Proof.
  intros Hd Hz. split.
  - apply normalize_raise. intros Hall. destruct (Hall person d Hd). tauto.
  - intros people result Hmain.
    destruct (main_returns people) as (result' & Hmain' & _ & Hsums).
    rewrite Hmain in Hmain'. by injection Hmain' as ->.
Qed.

Lemma normalize_zero_sum_raises_witness :
  normalize {[ "Harry"%string := zero_distributions ]} = Raise ZeroDivisionError.
Proof.
  apply (normalize_zero_sum_raises {[ "Harry"%string := zero_distributions ]}
           "Harry" zero_distributions).
  - reflexivity.
  - left. apply Qc_decide. vm_compute. reflexivity.
Defined.

(** ** C7 *)

(** C7. For a population of one founder without an observed trait, [main]
    returns the prior as the gene distribution (0.96, 0.03 and 0.01 for 0,
    1 and 2 copies) and the normalised prior-weighted mixture of the trait
    table as the trait distribution (0.0329 and 0.9671). *)
Theorem one_founder_posterior (n : string) (person : Person) :
  mother person = None → father person = None → trait person = None →
  main {[n := person]}
  = Ok {[n := {| gene2 := PROBS.gene G2;
                 gene1 := PROBS.gene G1;
                 gene0 := PROBS.gene G0;
                 traitTrue := mixture true / (mixture true + mixture false);
                 traitFalse := mixture false / (mixture true + mixture false) |} ]}
  ∧ PROBS.gene G0 = Q2Qc 0.96 ∧ PROBS.gene G1 = Q2Qc 0.03
  ∧ PROBS.gene G2 = Q2Qc 0.01
  ∧ mixture true / (mixture true + mixture false) = Q2Qc 0.0329
  ∧ mixture false / (mixture true + mixture false) = Q2Qc 0.9671.
Proof.
  intros Hm Hf Ht. split_and!; try done; try Qc_compute.
  unfold main. rewrite accumulate_founder by done. cbn [mbind result_bind].
  rewrite normalize_ok.
  - rewrite map_fmap_singleton. do 2 f_equal. unfold divided.
    f_equal; Qc_compute.
  - apply map_Forall_singleton.
    split; apply Qc_decide_neq; vm_compute; reflexivity.
Qed.

Lemma one_founder_posterior_witness :
  main {[ "Harry"%string := founder "Harry" None ]}
  = Ok {[ "Harry"%string :=
            {| gene2 := PROBS.gene G2;
               gene1 := PROBS.gene G1;
               gene0 := PROBS.gene G0;
               traitTrue := mixture true / (mixture true + mixture false);
               traitFalse := mixture false / (mixture true + mixture false) |} ]}.
Proof.
  apply (one_founder_posterior "Harry" (founder "Harry" None)); reflexivity.
Defined.

(** ** C8 *)

(** C8. On a table in which no distribution has sum zero, [normalize]
    applied twice is [normalize] applied once; and when every distribution
    already sums to 1, [normalize] changes no entry. *)
Theorem normalize_idempotent (probabilities : gmap string Distributions) :
  (∀ person d, probabilities !! person = Some d →
     get_dist_sum (gene d) ≠ 0 ∧ get_dist_sum (trait_dist d) ≠ 0) →
  ∃ normalized,
    normalize probabilities = Ok normalized
    ∧ normalize normalized = Ok normalized
    ∧ ((∀ person d, probabilities !! person = Some d →
          get_dist_sum (gene d) = 1 ∧ get_dist_sum (trait_dist d) = 1) →
       normalized = probabilities).
Proof.
  intros Hnz. exists (divided <$> probabilities).
  assert (Hid : ∀ m : gmap string Distributions,
    (∀ person d, m !! person = Some d →
       get_dist_sum (gene d) = 1 ∧ get_dist_sum (trait_dist d) = 1) →
    divided <$> m = m).
  { intros m Hone. apply map_eq. intros person. rewrite lookup_fmap.
    destruct (m !! person) as [d|] eqn:Hd; [|done]. cbn. f_equal.
    destruct (Hone person d Hd). by apply divided_id. }
  assert (Hone : ∀ person d, (divided <$> probabilities) !! person = Some d →
    get_dist_sum (gene d) = 1 ∧ get_dist_sum (trait_dist d) = 1).
  { intros person d. rewrite lookup_fmap.
    destruct (probabilities !! person) as [d0|] eqn:Hd0; [|done].
    intros [= <-]. by apply divided_sums, (Hnz person). }
  split_and!.
  - by apply normalize_ok.
  - rewrite normalize_ok, (Hid _ Hone); [done|].
    intros person d Hd. destruct (Hone person d Hd) as [Hg Ht].
    unfold nonzero_sums. rewrite Hg, Ht. done.
  - apply Hid.
Qed.

Lemma normalize_idempotent_witness :
  ∃ normalized,
    normalize sample_table = Ok normalized
    ∧ normalize normalized = Ok normalized
    ∧ ((∀ person d, sample_table !! person = Some d →
          get_dist_sum (gene d) = 1 ∧ get_dist_sum (trait_dist d) = 1) →
       normalized = sample_table).
Proof. exact (normalize_idempotent sample_table sample_table_nonzero). Defined.

(** ** C9 *)

(** C9. After any sequence of calls to [update] from the zero-initialised
    table, the three gene accumulators of a person and the two trait
    accumulators of that person both sum to the total weight of the calls,
    the same for every person; and one more call adds its weight [p] to
    exactly one gene bucket and exactly one trait bucket of the person. *)
Theorem update_preserves_total_mass (people : gmap string Person)
    (calls : list (gset string * gset string * gset string * Qc))
    (person : string) (d : Distributions) :
  updates calls ((λ _, zero_distributions) <$> people) !! person = Some d →
  get_dist_sum (gene d) = total_mass calls
  ∧ get_dist_sum (trait_dist d) = total_mass calls
  ∧ ∀ (one_gene two_genes have_trait : gset string) (p : Qc),
      ∃ d',
        update (updates calls ((λ _, zero_distributions) <$> people))
          one_gene two_genes have_trait p !! person = Some d'
        ∧ gene d' = match assigned_gene_count one_gene two_genes person with
                    | G2 => [gene2 d + p; gene1 d; gene0 d]
                    | G1 => [gene2 d; gene1 d + p; gene0 d]
                    | G0 => [gene2 d; gene1 d; gene0 d + p]
                    end
        ∧ trait_dist d' = (if bool_decide (person ∈ have_trait)
                           then [traitTrue d + p; traitFalse d]
                           else [traitTrue d; traitFalse d + p])
        ∧ get_dist_sum (gene d') = total_mass calls + p
        ∧ get_dist_sum (trait_dist d') = total_mass calls + p.
Proof.
  intros Hd. destruct (updates_sums people calls person d Hd) as [Hg Ht].
  split_and!; try done.
  intros one_gene two_genes have_trait p.
  exists (update_person person one_gene two_genes have_trait p d).
  rewrite lookup_update, Hd.
  destruct (update_person_sums person one_gene two_genes have_trait p d) as [Hg' Ht'].
  split_and!.
  - done.
  - apply update_person_gene.
  - apply update_person_trait.
  - by rewrite Hg', Hg.
  - by rewrite Ht', Ht.
Qed.

Lemma update_preserves_total_mass_witness :
  let calls := [({["Harry"%string]}, ∅, {["Harry"%string]}, Q2Qc 0.25);
                (∅, {["Harry"%string]}, ∅, Q2Qc 0.5)] in
  let d := {| gene2 := 0 + Q2Qc 0.5; gene1 := 0 + Q2Qc 0.25; gene0 := 0;
              traitTrue := 0 + Q2Qc 0.25; traitFalse := 0 + Q2Qc 0.5 |} in
  get_dist_sum (gene d) = total_mass calls
  ∧ get_dist_sum (trait_dist d) = total_mass calls.
Proof.
  intros calls d.
  destruct (update_preserves_total_mass harry_observed calls "Harry" d) as (Hg & Ht & _).
  - reflexivity.
  - by split.
Defined.

(** ** C10 *)

Lemma gene_p_entry_missing_parent (unconditional : Qc) (combine : Qc → Qc → Qc)
    (people : gmap string Person) (one_gene two_genes : gset string)
    (person : string) (p : Person) :
  people !! person = Some p → parents p = None →
  gene_p_entry unconditional combine people one_gene two_genes person = unconditional.
Proof. intros Hp Hn. unfold gene_p_entry. rewrite Hp. cbn. by rewrite Hn. Qed.

(** C10. A person with exactly one recorded parent is treated as a founder:
    in each of the three cases [joint_probability] stores for that person
    the prior of the assigned gene count, and the joint probability is
    that of the population in which the person has no recorded parent at
    all, whatever the scenario assigns to the recorded parent.  When the
    call returns (every name of [one_gene] and [two_genes] is a key of
    [people]), the three loops do return their dicts, and the dict of the
    person's case holds the entry of the person with that prior. *)
Theorem one_parent_treated_as_founder (people : gmap string Person)
    (one_gene two_genes have_trait : gset string) (person : string) (p : Person) :
  people !! person = Some p →
  (father p = None ∧ mother p ≠ None) ∨ (father p ≠ None ∧ mother p = None) →
  (∀ prob_dict v, (person, v) ∈ prob_dict →
     (zero_gene_p people one_gene two_genes = Ok prob_dict → v = PROBS.gene G0)
     ∧ (one_gene_p people one_gene two_genes = Ok prob_dict → v = PROBS.gene G1)
     ∧ (two_genes_p people one_gene two_genes = Ok prob_dict → v = PROBS.gene G2))
  ∧ joint_probability people one_gene two_genes have_trait
    = joint_probability
        (<[person := {| name := name p; mother := None; father := None;
                        trait := trait p |}]> people)
        one_gene two_genes have_trait
  ∧ (one_gene ∪ two_genes ⊆ dom people →
     ∃ zero_dict one_dict two_dict,
       zero_gene_p people one_gene two_genes = Ok zero_dict
       ∧ one_gene_p people one_gene two_genes = Ok one_dict
       ∧ two_genes_p people one_gene two_genes = Ok two_dict
       ∧ (person ∈ one_gene → (person, PROBS.gene G1) ∈ one_dict)
       ∧ (person ∉ one_gene → person ∈ two_genes →
          (person, PROBS.gene G2) ∈ two_dict)
       ∧ (person ∉ one_gene → person ∉ two_genes →
          (person, PROBS.gene G0) ∈ zero_dict)).
Proof.
  intros Hp Hone.
  assert (Hn : parents p = None).
  { unfold parents. destruct Hone as [[-> _]|[_ ->]]; [done|].
    by destruct (father p). }
  split; [|split].
  - intros prob_dict v Hin.
    split_and!; intros Hloop;
      destruct (gene_p_loop_entries _ _ _ _ _ _ _ _ _ Hloop Hin) as [_ ->];
      by apply (gene_p_entry_missing_parent _ _ _ _ _ _ p).
  - apply joint_probability_ext. intros n.
    destruct (decide (person = n)) as [<-|Hne].
    + by rewrite lookup_insert_eq, Hp; cbn; rewrite Hn.
    + by rewrite lookup_insert_ne.
  - intros Hsub. unfold zero_gene_p, one_gene_p, two_genes_p.
    rewrite !gene_p_loop_ok;
      try (intros n Hin; apply elem_of_dom; apply elem_of_elements in Hin;
           set_solver).
    do 3 eexists. split; [done|]. split; [done|]. split; [done|].
    assert (Hentry : ∀ unconditional combine (names : gset string),
              person ∈ names →
              (person, unconditional)
              ∈ (λ n, (n, gene_p_entry unconditional combine people
                            one_gene two_genes n)) <$> elements names).
    { intros unconditional combine names Hin. apply list_elem_of_fmap.
      exists person. split; [|by apply elem_of_elements].
      f_equal. symmetry.
      by apply (gene_p_entry_missing_parent _ _ _ _ _ _ p). }
    split; [|split].
    + intros Hin. by apply Hentry.
    + intros _ Hin. by apply Hentry.
    + intros H1 H2. apply Hentry. apply elem_of_filter. split; [done|].
      apply elem_of_dom. eauto.
Qed.

Lemma one_parent_treated_as_founder_witness :
  joint_probability half_orphan {["Harry"%string]} {["James"%string]} ∅
  = joint_probability
      (<["Harry"%string := founder "Harry" None]> half_orphan)
      {["Harry"%string]} {["James"%string]} ∅
  ∧ ∃ zero_dict one_dict two_dict,
      zero_gene_p half_orphan {["Harry"%string]} {["James"%string]} = Ok zero_dict
      ∧ one_gene_p half_orphan {["Harry"%string]} {["James"%string]} = Ok one_dict
      ∧ two_genes_p half_orphan {["Harry"%string]} {["James"%string]} = Ok two_dict
      ∧ ("Harry"%string, PROBS.gene G1) ∈ one_dict.
Proof.
  destruct (one_parent_treated_as_founder half_orphan {["Harry"%string]}
              {["James"%string]} ∅ "Harry"
              {| name := "Harry"; mother := None; father := Some "James"%string;
                 trait := None |})
    as (_ & Heq & Hentry).
  - reflexivity.
  - right. split; [discriminate|reflexivity].
  - split; [exact Heq|].
    destruct Hentry as (zero_dict & one_dict & two_dict & H0 & H1 & H2 & Hin & _).
    + decide_by_computation.
    + exists zero_dict, one_dict, two_dict. split_and!; [done..|].
      apply Hin. decide_by_computation.
Defined.


(** * Further properties *)

(** ** The accumulated buckets *)

Lemma sum_Qc_app (l k : list Qc) : sum_Qc (l ++ k) = sum_Qc l + sum_Qc k.
Proof.
  unfold sum_Qc. induction l as [|x l IH]; cbn [app foldr].
  - ring.
  - rewrite IH. ring.
Qed.

Lemma total_mass_sum (calls : list (gset string * gset string * gset string * Qc)) :
  total_mass calls = sum_Qc (snd <$> calls).
Proof.
  induction calls as [|[[[one two] ht] p] calls IH]; [done|].
  cbn [total_mass foldr fmap list_fmap sum_Qc snd].
  fold (total_mass calls). fold (sum_Qc (snd <$> calls)). by rewrite IH.
Qed.

Lemma gene_bucket_snoc (person : string) (g : GeneCount)
    (calls : list (gset string * gset string * gset string * Qc))
    (one_gene two_genes have_trait : gset string) (p : Qc) :
  gene_bucket person g (calls ++ [(one_gene, two_genes, have_trait, p)])
  = gene_bucket person g calls
    + (if decide (assigned_gene_count one_gene two_genes person = g) then p else 0).
Proof.
  unfold gene_bucket. rewrite fmap_app, sum_Qc_app.
  cbn [fmap list_fmap sum_Qc foldr]. ring.
Qed.

Lemma trait_bucket_snoc (person : string) (t : bool)
    (calls : list (gset string * gset string * gset string * Qc))
    (one_gene two_genes have_trait : gset string) (p : Qc) :
  trait_bucket person t (calls ++ [(one_gene, two_genes, have_trait, p)])
  = trait_bucket person t calls
    + (if decide (bool_decide (person ∈ have_trait) = t) then p else 0).
Proof.
  unfold trait_bucket. rewrite fmap_app, sum_Qc_app.
  cbn [fmap list_fmap sum_Qc foldr]. ring.
Qed.

Lemma updates_buckets (people : gmap string Person)
    (calls : list (gset string * gset string * gset string * Qc))
    (person : string) :
  person ∈ dom people →
  updates calls ((λ _, zero_distributions) <$> people) !! person
  = Some {| gene2 := gene_bucket person G2 calls;
            gene1 := gene_bucket person G1 calls;
            gene0 := gene_bucket person G0 calls;
            traitTrue := trait_bucket person true calls;
            traitFalse := trait_bucket person false calls |}.
Proof.
  intros [q Hq]%elem_of_dom.
  induction calls as [|[[[one two] ht] p] calls IH] using rev_ind.
  - cbn [updates fold_left]. by rewrite lookup_fmap, Hq.
  - rewrite updates_snoc, lookup_update, IH. cbn [fmap option_fmap option_map].
    rewrite update_person_record, !gene_bucket_snoc, !trait_bucket_snoc.
    f_equal.
    destruct (assigned_gene_count one two person), (bool_decide (person ∈ ht));
      repeat case_decide; try done; f_equal; ring.
Qed.

Lemma total_mass_scored_pos (people : gmap string Person) :
  0 < total_mass (scored people).
Proof.
  apply total_mass_pos.
  - unfold scored. intros Hnil%fmap_nil_inv. by apply (scenarios_nonempty people).
  - apply Forall_fmap, Forall_forall. intros [[one two] ht] _. cbn.
    apply scenario_probability_pos.
Qed.

(** What [main] returns: the accumulated table, divided. *)
Lemma main_scored (people : gmap string Person) :
  main people
  = Ok (divided <$> updates (scored people) ((λ _, zero_distributions) <$> people)).
Proof.
  unfold main. rewrite accumulate_updates. cbn [mbind result_bind].
  fold (scored people). apply normalize_ok.
  intros person d Hd.
  destruct (updates_sums people (scored people) person d Hd) as [Hg Ht].
  pose proof (total_mass_scored_pos people) as Hpos.
  unfold nonzero_sums. rewrite Hg, Ht.
  split; apply not_eq_sym, Qclt_not_eq, Hpos.
Qed.

Lemma buckets_total (person : string)
    (calls : list (gset string * gset string * gset string * Qc)) :
  gene_bucket person G2 calls + gene_bucket person G1 calls
    + gene_bucket person G0 calls = total_mass calls
  ∧ trait_bucket person true calls + trait_bucket person false calls
    = total_mass calls.
Proof.
  induction calls as [|[[[one two] ht] p] calls [IHg IHt]] using rev_ind.
  - split; unfold gene_bucket, trait_bucket, sum_Qc; cbn; ring.
  - rewrite !gene_bucket_snoc, !trait_bucket_snoc, total_mass_snoc.
    rewrite <- IHg at 1. rewrite <- IHt. split.
    + destruct (assigned_gene_count one two person); repeat case_decide;
        try done; ring.
    + destruct (bool_decide (person ∈ ht)); repeat case_decide; try done; ring.
Qed.

Lemma main_lookup (people : gmap string Person) (person : string) :
  person ∈ dom people →
  ∃ result,
    main people = Ok result
    ∧ result !! person
      = Some {| gene2 := gene_bucket person G2 (scored people) / total_mass (scored people);
                gene1 := gene_bucket person G1 (scored people) / total_mass (scored people);
                gene0 := gene_bucket person G0 (scored people) / total_mass (scored people);
                traitTrue := trait_bucket person true (scored people)
                             / total_mass (scored people);
                traitFalse := trait_bucket person false (scored people)
                              / total_mass (scored people) |}.
Proof.
  intros Hin. eexists. split; [apply main_scored|].
  rewrite lookup_fmap, updates_buckets by done. cbn [fmap option_fmap option_map].
  f_equal. unfold divided. rewrite get_dist_sum_gene, get_dist_sum_trait.
  cbn [gene2 gene1 gene0 traitTrue traitFalse].
  destruct (buckets_total person (scored people)) as [-> ->]. done.
Qed.

(** ** Sums of weights *)

Lemma sum_Qc_nonneg (l : list Qc) : Forall (λ x, 0 ≤ x) l → 0 ≤ sum_Qc l.
Proof.
  unfold sum_Qc. induction 1 as [|x l Hx _ IH]; cbn [foldr]; [done|].
  by apply Qcplus_nonneg_nonneg.
Qed.

Lemma sum_Qc_pos (l : list Qc) (x : Qc) :
  Forall (λ x, 0 ≤ x) l → x ∈ l → 0 < x → 0 < sum_Qc l.
Proof.
  unfold sum_Qc. intros Hl Hin Hx. induction Hl as [|y l Hy Hl IH]; cbn [foldr].
  - by apply elem_of_nil in Hin.
  - apply elem_of_cons in Hin as [<-|Hin].
    + apply Qcplus_pos_nonneg; [done|]. by apply sum_Qc_nonneg.
    + apply Qcplus_nonneg_pos; [done|]. by apply IH.
Qed.

Lemma Qcdiv_nonneg (x t : Qc) : 0 ≤ x → 0 < t → 0 ≤ x / t.
Proof.
  intros Hx Ht. unfold Qcdiv. apply Qcmult_nonneg_nonneg; [done|].
  by apply Qclt_le_weak, Qcinv_pos.
Qed.

Lemma Qcdiv_pos (x t : Qc) : 0 < x → 0 < t → 0 < x / t.
Proof. intros Hx Ht. unfold Qcdiv. apply Qcmult_pos_pos; [done|]. by apply Qcinv_pos. Qed.

Lemma Qcdiv_le_1 (x t : Qc) : x ≤ t → 0 < t → x / t ≤ 1.
Proof.
  intros Hx Ht. replace 1 with (t / t) by (field; by apply not_eq_sym, Qclt_not_eq).
  unfold Qcdiv. apply Qcmult_le_mono_nonneg_r; [|done].
  by apply Qclt_le_weak, Qcinv_pos.
Qed.

Lemma Qcdiv_same (t : Qc) : 0 < t → t / t = 1.
Proof. intros Ht. field. by apply not_eq_sym, Qclt_not_eq. Qed.

Lemma Qcdiv_0_l (t : Qc) : 0 / t = 0.
Proof. unfold Qcdiv. ring. Qed.

Lemma Qcle_plus_r (x y : Qc) : 0 ≤ y → x ≤ x + y.
Proof.
  intros H. apply (Qcplus_le_mono_l _ _ x) in H. by rewrite Qcplus_0_r in H.
Qed.

Lemma Qcle_plus_l (x y : Qc) : 0 ≤ y → x ≤ y + x.
Proof. intros H. rewrite Qcplus_comm. by apply Qcle_plus_r. Qed.

Section buckets.
Variable people : gmap string Person.
Variable person : string.

Lemma scored_gene_terms_nonneg (g : GeneCount) :
  Forall (λ x, 0 ≤ x)
    ((λ '(one_gene, two_genes, _, p),
        if decide (assigned_gene_count one_gene two_genes person = g) then p else 0)
     <$> scored people).
Proof.
  unfold scored. rewrite <- list_fmap_compose. apply Forall_fmap, Forall_forall.
  intros [[one two] ht] _. cbn. case_decide; [|done].
  apply Qclt_le_weak, scenario_probability_pos.
Qed.

Lemma scored_trait_terms_nonneg (t : bool) :
  Forall (λ x, 0 ≤ x)
    ((λ '(_, _, have_trait, p),
        if decide (bool_decide (person ∈ have_trait) = t) then p else 0)
     <$> scored people).
Proof.
  unfold scored. rewrite <- list_fmap_compose. apply Forall_fmap, Forall_forall.
  intros [[one two] ht] _. cbn. case_decide; [|done].
  apply Qclt_le_weak, scenario_probability_pos.
Qed.

Lemma gene_bucket_nonneg (g : GeneCount) : 0 ≤ gene_bucket person g (scored people).
Proof. apply sum_Qc_nonneg, scored_gene_terms_nonneg. Qed.

Lemma trait_bucket_nonneg (t : bool) : 0 ≤ trait_bucket person t (scored people).
Proof. apply sum_Qc_nonneg, scored_trait_terms_nonneg. Qed.

Lemma gene_bucket_le_total (g : GeneCount) :
  gene_bucket person g (scored people) ≤ total_mass (scored people).
Proof.
  destruct (buckets_total person (scored people)) as [<- _].
  pose proof (gene_bucket_nonneg G2). pose proof (gene_bucket_nonneg G1).
  pose proof (gene_bucket_nonneg G0).
  destruct g.
  - apply Qcle_plus_l. by apply Qcplus_nonneg_nonneg.
  - rewrite <- Qcplus_assoc, (Qcplus_comm (gene_bucket person G2 _)), <- Qcplus_assoc.
    apply Qcle_plus_r. by apply Qcplus_nonneg_nonneg.
  - rewrite <- Qcplus_assoc. apply Qcle_plus_r. by apply Qcplus_nonneg_nonneg.
Qed.

Lemma trait_bucket_le_total (t : bool) :
  trait_bucket person t (scored people) ≤ total_mass (scored people).
Proof.
  destruct (buckets_total person (scored people)) as [_ <-].
  pose proof (trait_bucket_nonneg true). pose proof (trait_bucket_nonneg false).
  destruct t; [by apply Qcle_plus_r|by apply Qcle_plus_l].
Qed.

Lemma gene_bucket_pos (g : GeneCount) (one_gene two_genes have_trait : gset string) :
  (one_gene, two_genes, have_trait) ∈ scenarios people →
  assigned_gene_count one_gene two_genes person = g →
  0 < gene_bucket person g (scored people).
Proof.
  intros Hin Hg.
  apply (sum_Qc_pos _ (scenario_probability people one_gene two_genes have_trait)).
  - apply scored_gene_terms_nonneg.
  - unfold scored. rewrite <- list_fmap_compose. apply list_elem_of_fmap.
    exists (one_gene, two_genes, have_trait). split; [|done]. cbn.
    by rewrite decide_True.
  - apply scenario_probability_pos.
Qed.

Lemma trait_bucket_pos (t : bool) (one_gene two_genes have_trait : gset string) :
  (one_gene, two_genes, have_trait) ∈ scenarios people →
  bool_decide (person ∈ have_trait) = t →
  0 < trait_bucket person t (scored people).
Proof.
  intros Hin Ht.
  apply (sum_Qc_pos _ (scenario_probability people one_gene two_genes have_trait)).
  - apply scored_trait_terms_nonneg.
  - unfold scored. rewrite <- list_fmap_compose. apply list_elem_of_fmap.
    exists (one_gene, two_genes, have_trait). split; [|done]. cbn.
    by rewrite decide_True.
  - apply scenario_probability_pos.
Qed.

(** A bucket that no scored scenario feeds stays at zero. *)
Lemma trait_bucket_zero (t : bool) :
  (∀ one_gene two_genes have_trait,
     (one_gene, two_genes, have_trait) ∈ scenarios people →
     bool_decide (person ∈ have_trait) ≠ t) →
  trait_bucket person t (scored people) = 0.
Proof.
  intros Hnone. unfold trait_bucket, scored. rewrite <- list_fmap_compose.
  induction (scenarios people) as [|[[one two] ht] l IH]; [done|].
  cbn [fmap list_fmap sum_Qc foldr compose].
  rewrite decide_False by (apply (Hnone one two); by left).
  fold (sum_Qc ((λ '(_, _, have_trait, p),
                   if decide (bool_decide (person ∈ have_trait) = t) then p else 0)
                ∘ (λ '(one_gene, two_genes, have_trait),
                     (one_gene, two_genes, have_trait,
                      scenario_probability people one_gene two_genes have_trait))
                <$> l)).
  rewrite IH; [ring|]. intros ????. eapply Hnone. by right.
Qed.
End buckets.

Lemma violates_false (people : gmap string Person) (have_trait : gset string) :
  violates people have_trait = false
  ↔ ∀ person p t, people !! person = Some p → trait p = Some t →
                  bool_decide (person ∈ have_trait) = t.
Proof.
  rewrite <- not_true_iff_false, violates_true. split.
  - intros Hno person p t Hp Ht.
    destruct (decide (bool_decide (person ∈ have_trait) = t)) as [|Hne]; [done|].
    destruct Hno. exists person, p, t. split_and!; [done..|]. congruence.
  - intros Hall (person & p & t & Hp & Ht & Hne). apply Hne. symmetry. by eapply Hall.
Qed.

Lemma scenario_intro (people : gmap string Person)
    (one_gene two_genes have_trait : gset string) :
  have_trait ⊆ dom people → violates people have_trait = false →
  one_gene ⊆ dom people → two_genes ⊆ dom people → one_gene ## two_genes →
  (one_gene, two_genes, have_trait) ∈ scenarios people.
Proof. intros. by apply elem_of_scenarios. Qed.

Lemma violates_observed_with_trait (people : gmap string Person) :
  violates people (observed_with_trait people) = false.
Proof.
  apply violates_false. intros person p t Hp Ht. destruct t.
  - apply bool_decide_eq_true_2, elem_of_filter. rewrite Hp. cbn.
    split; [done|]. apply elem_of_dom. eauto.
  - apply bool_decide_eq_false_2. intros [Hc _]%elem_of_filter.
    rewrite Hp in Hc. cbn in Hc. congruence.
Qed.

Lemma dom_update (probabilities : gmap string Distributions)
    (one_gene two_genes have_trait : gset string) (p : Qc) :
  dom (update probabilities one_gene two_genes have_trait p) = dom probabilities.
Proof.
  apply set_eq. intros person. rewrite !elem_of_dom, lookup_update.
  apply fmap_is_Some.
Qed.

Lemma dom_updates (calls : list (gset string * gset string * gset string * Qc))
    (probabilities : gmap string Distributions) :
  dom (updates calls probabilities) = dom probabilities.
Proof.
  induction calls as [|[[[one two] ht] p] calls IH] using rev_ind; [done|].
  by rewrite updates_snoc, dom_update.
Qed.

(** ** The posterior that [main] returns *)

(** X1. For every person of the population, what [main] returns for the
    person is, bucket by bucket, the weight of the scored scenarios that
    give the person that gene count (or trait value) divided by the weight
    of all scored scenarios, the weight of a scenario being its joint
    probability. *)
Theorem main_posterior_by_enumeration (people : gmap string Person) (person : string) :
  person ∈ dom people →
  ∃ result,
    main people = Ok result
    ∧ result !! person
      = Some {| gene2 := gene_bucket person G2 (scored people) / total_mass (scored people);
                gene1 := gene_bucket person G1 (scored people) / total_mass (scored people);
                gene0 := gene_bucket person G0 (scored people) / total_mass (scored people);
                traitTrue := trait_bucket person true (scored people)
                             / total_mass (scored people);
                traitFalse := trait_bucket person false (scored people)
                              / total_mass (scored people) |}
    ∧ for_each (score people) (scenarios people)
        ((λ _, zero_distributions) <$> people)
      = Ok (updates (scored people) ((λ _, zero_distributions) <$> people)).
Proof.
  intros Hin. destruct (main_lookup people person Hin) as (result & Hmain & Hlookup).
  exists result. split_and!; [done..|].
  rewrite <- accumulate_scenarios. apply accumulate_updates.
Qed.

Lemma main_posterior_by_enumeration_witness :
  ∃ result,
    main family = Ok result
    ∧ result !! "Harry"%string
      = Some {| gene2 := gene_bucket "Harry" G2 (scored family) / total_mass (scored family);
                gene1 := gene_bucket "Harry" G1 (scored family) / total_mass (scored family);
                gene0 := gene_bucket "Harry" G0 (scored family) / total_mass (scored family);
                traitTrue := trait_bucket "Harry" true (scored family)
                             / total_mass (scored family);
                traitFalse := trait_bucket "Harry" false (scored family)
                              / total_mass (scored family) |}.
Proof.
  assert (Hin : "Harry"%string ∈ dom family) by decide_by_computation.
  destruct (main_posterior_by_enumeration family "Harry" Hin) as (r & H1 & H2 & _).
  exists r. by split.
Defined.


(** X3. Every number that [main] returns is a probability: each of the
    five entries of a person lies between 0 and 1. *)
Theorem posterior_entries_in_unit_interval (people : gmap string Person)
    (person : string) :
  person ∈ dom people →
  ∃ result d,
    main people = Ok result ∧ result !! person = Some d
    ∧ Forall (λ x, 0 ≤ x ∧ x ≤ 1) (gene d ++ trait_dist d).
Proof.
  intros Hin. destruct (main_lookup people person Hin) as (result & Hmain & Hlookup).
  pose proof (total_mass_scored_pos people) as Hpos.
  eexists result, _. split_and!; [done..|].
  unfold gene, trait_dist. cbn [gene2 gene1 gene0 traitTrue traitFalse app].
  repeat apply Forall_cons_2; try apply Forall_nil_2; split;
    (apply Qcdiv_nonneg; [apply gene_bucket_nonneg || apply trait_bucket_nonneg|done])
    || (apply Qcdiv_le_1; [apply gene_bucket_le_total || apply trait_bucket_le_total|done]).
Qed.

Lemma posterior_entries_in_unit_interval_witness :
  ∃ result d,
    main family = Ok result ∧ result !! "Harry"%string = Some d
    ∧ Forall (λ x, 0 ≤ x ∧ x ≤ 1) (gene d ++ trait_dist d).
Proof.
  apply (posterior_entries_in_unit_interval family "Harry").
  decide_by_computation.
Defined.

(** X4. For a person with an observed trait, [main] returns the
    observation with certainty: probability 1 on the observed trait value
    and 0 on the other. *)
Theorem observed_trait_is_certain (people : gmap string Person)
    (person : string) (p : Person) (t : bool) :
  people !! person = Some p → trait p = Some t →
  ∃ result d,
    main people = Ok result ∧ result !! person = Some d
    ∧ traitTrue d = (if t then 1 else 0)
    ∧ traitFalse d = (if t then 0 else 1).
Proof.
  intros Hp Ht.
  assert (Hin : person ∈ dom people) by (apply elem_of_dom; eauto).
  destruct (main_lookup people person Hin) as (result & Hmain & Hlookup).
  pose proof (total_mass_scored_pos people) as Hpos.
  eexists result, _. split_and!; [done..| |];
    cbn [gene2 gene1 gene0 traitTrue traitFalse].
  all: assert (Hzero : trait_bucket person (negb t) (scored people) = 0).
  all: try (apply trait_bucket_zero; intros one two ht Hsc;
    apply elem_of_scenarios in Hsc as (_ & Hv & _);
    rewrite (proj1 (violates_false people ht) Hv person p t Hp Ht);
    by destruct t).
  all: destruct (buckets_total person (scored people)) as [_ Htot].
  all: destruct t; cbn [negb] in Hzero.
  - rewrite Hzero, Qcplus_0_r in Htot. rewrite Htot. by apply Qcdiv_same.
  - rewrite Hzero. apply Qcdiv_0_l.
  - rewrite Hzero. apply Qcdiv_0_l.
  - rewrite Hzero, Qcplus_0_l in Htot. rewrite Htot. by apply Qcdiv_same.
Qed.

Lemma observed_trait_is_certain_witness :
  ∃ result d,
    main family = Ok result ∧ result !! "James"%string = Some d
    ∧ traitTrue d = 1 ∧ traitFalse d = 0.
Proof.
  apply (observed_trait_is_certain family "James" (founder "James" (Some true)) true);
    reflexivity.
Defined.

(** X5. No gene count is ever ruled out: for every person [main] returns a
    positive probability for each of 0, 1 and 2 copies, whatever was
    observed; and for a person without an observed trait both trait values
    get a positive probability. *)
Theorem posterior_gene_positive (people : gmap string Person)
    (person : string) (p : Person) :
  people !! person = Some p →
  ∃ result d,
    main people = Ok result ∧ result !! person = Some d
    ∧ 0 < gene2 d ∧ 0 < gene1 d ∧ 0 < gene0 d
    ∧ (trait p = None → 0 < traitTrue d ∧ 0 < traitFalse d).
Proof.
  intros Hp.
  assert (Hin : person ∈ dom people) by (apply elem_of_dom; eauto).
  destruct (main_lookup people person Hin) as (result & Hmain & Hlookup).
  pose proof (total_mass_scored_pos people) as Hpos.
  pose proof (violates_observed_with_trait people) as Hv.
  assert (Hsub : observed_with_trait people ⊆ dom people)
    by (intros q [_ Hq]%elem_of_filter; exact Hq).
  assert (Hself : ({[person]} : gset string) ⊆ dom people)
    by (by apply singleton_subseteq_l).
  assert (Hflip : ∀ ht : gset string,
    (∀ q, q ≠ person → q ∈ ht ↔ q ∈ observed_with_trait people) →
    trait p = None → violates people ht = false).
  { intros ht Hsame Hnone. apply violates_false. intros q pq tq Hq Htq.
    assert (q ≠ person) by (intros ->; congruence).
    rewrite <- (proj1 (violates_false people _) Hv q pq tq Hq Htq).
    apply bool_decide_ext. by apply Hsame. }
  eexists result, _. split; [exact Hmain|]. split; [exact Hlookup|].
  cbn [gene2 gene1 gene0 traitTrue traitFalse]. split_and!.
  - apply Qcdiv_pos; [|exact Hpos].
    apply (gene_bucket_pos people person G2 ∅ {[person]} (observed_with_trait people)).
    + apply scenario_intro; [exact Hsub|exact Hv|apply empty_subseteq|exact Hself|].
      apply disjoint_empty_l.
    + unfold assigned_gene_count.
      rewrite decide_False by apply not_elem_of_empty.
      by rewrite decide_True by by apply elem_of_singleton.
  - apply Qcdiv_pos; [|exact Hpos].
    apply (gene_bucket_pos people person G1 {[person]} ∅ (observed_with_trait people)).
    + apply scenario_intro; [exact Hsub|exact Hv|exact Hself|apply empty_subseteq|].
      apply disjoint_empty_r.
    + unfold assigned_gene_count.
      by rewrite decide_True by by apply elem_of_singleton.
  - apply Qcdiv_pos; [|exact Hpos].
    apply (gene_bucket_pos people person G0 ∅ ∅ (observed_with_trait people)).
    + apply scenario_intro;
        [exact Hsub|exact Hv|apply empty_subseteq|apply empty_subseteq|].
      apply disjoint_empty_l.
    + unfold assigned_gene_count.
      by rewrite !decide_False by apply not_elem_of_empty.
  - intros Hnone. split; (apply Qcdiv_pos; [|exact Hpos]).
    + apply (trait_bucket_pos people person true ∅ ∅
               (observed_with_trait people ∪ {[person]})).
      * apply scenario_intro; [|apply Hflip; [|exact Hnone]|apply empty_subseteq..|].
        -- by apply union_least.
        -- intros q Hne. rewrite elem_of_union, elem_of_singleton. tauto.
        -- apply disjoint_empty_l.
      * apply bool_decide_eq_true_2, elem_of_union. right. by apply elem_of_singleton.
    + apply (trait_bucket_pos people person false ∅ ∅
               (observed_with_trait people ∖ {[person]})).
      * apply scenario_intro; [|apply Hflip; [|exact Hnone]|apply empty_subseteq..|].
        -- intros q [Hq _]%elem_of_difference. by apply Hsub.
        -- intros q Hne. rewrite elem_of_difference, elem_of_singleton. tauto.
        -- apply disjoint_empty_l.
      * apply bool_decide_eq_false_2. rewrite elem_of_difference, elem_of_singleton.
        tauto.
Qed.

Lemma posterior_gene_positive_witness :
  ∃ result d,
    main family = Ok result ∧ result !! "James"%string = Some d
    ∧ 0 < gene2 d ∧ 0 < gene1 d ∧ 0 < gene0 d
    ∧ (trait (founder "James" (Some true)) = None → 0 < traitTrue d ∧ 0 < traitFalse d).
Proof.
  apply (posterior_gene_positive family "James" (founder "James" (Some true))).
  reflexivity.
Defined.

(** ** [joint_probability] on arbitrary arguments *)

Ltac Qc_at_most := unfold Qcle; vm_compute; discriminate.

Lemma gene_p_loop_raise (unconditional : Qc) (combine : Qc → Qc → Qc)
    (people : gmap string Person) (one_gene two_genes : gset string)
    (names : list string) (n : string) :
  n ∈ names → people !! n = None →
  gene_p_loop unconditional combine people one_gene two_genes names = Raise KeyError.
Proof.
  intros Hin Hn. induction names as [|n' names IH]; [by apply elem_of_nil in Hin|].
  cbn [gene_p_loop]. unfold getitem.
  destruct (people !! n') as [p|] eqn:Hp; [|done]. cbn [mbind result_bind].
  apply elem_of_cons in Hin as [->|Hin]; [congruence|]. by rewrite IH.
Qed.

Lemma person_prob_cases (person_name : string) (one_gene two_genes : gset string) :
  person_prob person_name one_gene two_genes = Q2Qc 0.99
  ∨ person_prob person_name one_gene two_genes = Q2Qc 0.5 * Q2Qc 0.99
  ∨ person_prob person_name one_gene two_genes = PROBS.mutation.
Proof. unfold person_prob. repeat case_decide; tauto. Qed.

Lemma gene_p_entry_bounds (people : gmap string Person)
    (one_gene two_genes : gset string) (person : string) :
  let bounded x := 0 < x ∧ x ≤ 1 in
  bounded (gene_p_entry (PROBS.gene G1)
             (λ poppa_p momma_p, poppa_p * (1 - momma_p) + momma_p * (1 - poppa_p))
             people one_gene two_genes person)
  ∧ bounded (gene_p_entry (PROBS.gene G2) (λ poppa_p momma_p, poppa_p * momma_p)
               people one_gene two_genes person)
  ∧ bounded (gene_p_entry (PROBS.gene G0)
               (λ poppa_p momma_p, (1 - poppa_p) * (1 - momma_p))
               people one_gene two_genes person).
Proof.
  cbv zeta. unfold gene_p_entry.
  destruct (people !! person ≫= parents) as [[f m]|].
  - destruct (person_prob_cases f one_gene two_genes) as [->|[->| ->]],
      (person_prob_cases m one_gene two_genes) as [->|[->| ->]];
      split_and!; Qc_positive || Qc_at_most.
  - split_and!; Qc_positive || Qc_at_most.
Qed.

Lemma product_bounds (l : list Qc) :
  Forall (λ x, 0 < x ∧ x ≤ 1) l → 0 < product l ∧ product l ≤ 1.
Proof.
  induction 1 as [|x l [Hx0 Hx1] _ [IH0 IH1]]; cbn [product foldr].
  - split; [Qc_positive|Qc_at_most].
  - fold (product l). split; [by apply Qcmult_pos_pos|].
    apply Qcle_trans with (1 * product l).
    + apply Qcmult_le_mono_nonneg_r; [by apply Qclt_le_weak|done].
    + by rewrite Qcmult_1_l.
Qed.

Lemma mult_bounds (x y : Qc) :
  0 < x ∧ x ≤ 1 → 0 < y ∧ y ≤ 1 → 0 < x * y ∧ x * y ≤ 1.
Proof.
  intros Hx Hy.
  assert (Hxy : 0 < product [x; y] ∧ product [x; y] ≤ 1)
    by (apply product_bounds; apply Forall_cons_2; [done|];
        apply Forall_cons_2; [done|apply Forall_nil_2]).
  unfold product in Hxy. cbn [foldr] in Hxy. by rewrite Qcmult_1_r in Hxy.
Qed.

Lemma PROBS_trait_bounds (g : GeneCount) (t : bool) :
  0 < PROBS.trait g t ∧ PROBS.trait g t ≤ 1.
Proof. destruct g, t; split; Qc_positive || Qc_at_most. Qed.

Lemma not_subseteq_witness (X Y : gset string) : ¬ X ⊆ Y → ∃ n, n ∈ X ∧ n ∉ Y.
Proof.
  intros Hnot. destruct (decide (Exists (λ n, n ∉ Y) (elements X))) as [Hex|Hno].
  - apply Exists_exists in Hex as (n & Hn%elem_of_elements & HnY). eauto.
  - destruct Hnot. intros n Hn. destruct (decide (n ∈ Y)); [done|].
    destruct Hno. apply Exists_exists. exists n.
    split; [by apply elem_of_elements|done].
Qed.

Lemma Ok_inj {A : Type} (x y : A) : Ok x = Ok y → x = y.
Proof. by intros [= ->]. Qed.

Lemma term_bounds (x : Qc) (g : GeneCount) (t : bool) :
  0 < x ∧ x ≤ 1 → 0 < x * PROBS.trait g t ∧ x * PROBS.trait g t ≤ 1.
Proof. intros Hx. exact (mult_bounds x (PROBS.trait g t) Hx (PROBS_trait_bounds g t)). Qed.

(** The three factors of [joint_probability], in closed form. *)
Lemma joint_probability_value (people : gmap string Person)
    (one_gene two_genes have_trait : gset string) :
  one_gene ∪ two_genes ⊆ dom people →
  joint_probability people one_gene two_genes have_trait
  = Ok (1
        * product ((λ n,
              gene_p_entry (PROBS.gene G0)
                (λ poppa_p momma_p, (1 - poppa_p) * (1 - momma_p))
                people one_gene two_genes n
              * PROBS.trait G0 (bool_decide (n ∈ have_trait)))
            <$> elements (filter (λ name, (name ∉ one_gene) ∧ (name ∉ two_genes))
                            (dom people)))
        * product ((λ n,
              gene_p_entry (PROBS.gene G1)
                (λ poppa_p momma_p, poppa_p * (1 - momma_p) + momma_p * (1 - poppa_p))
                people one_gene two_genes n
              * PROBS.trait G1 (bool_decide (n ∈ have_trait)))
            <$> elements one_gene)
        * product ((λ n,
              gene_p_entry (PROBS.gene G2) (λ poppa_p momma_p, poppa_p * momma_p)
                people one_gene two_genes n
              * PROBS.trait G2 (bool_decide (n ∈ have_trait)))
            <$> elements two_genes)).
Proof.
  intros Hsub. unfold joint_probability, one_gene_p, two_genes_p, zero_gene_p.
  rewrite !gene_p_loop_ok;
    try (intros n Hn; apply elem_of_dom; apply elem_of_elements in Hn; set_solver).
  cbn [mbind result_bind fold_left]. by rewrite !trait_prob_product.
Qed.

Lemma joint_probability_KeyError (people : gmap string Person)
    (one_gene two_genes have_trait : gset string) :
  ¬ one_gene ∪ two_genes ⊆ dom people →
  joint_probability people one_gene two_genes have_trait = Raise KeyError.
Proof.
  intros Hnot. unfold joint_probability, one_gene_p, two_genes_p.
  destruct (decide (one_gene ⊆ dom people)) as [H1|H1].
  - assert (Hone : ∀ n, n ∈ elements one_gene → is_Some (people !! n))
      by (intros n Hn%elem_of_elements; apply elem_of_dom; by apply H1).
    rewrite (gene_p_loop_ok _ _ _ _ _ _ Hone). cbn [mbind result_bind].
    assert (∃ n, n ∈ two_genes ∧ n ∉ dom people) as (n & Hn & Hdom).
    { apply not_subseteq_witness. intros Htwo. apply Hnot. set_solver. }
    rewrite (gene_p_loop_raise _ _ people one_gene two_genes (elements two_genes) n);
      [reflexivity|by apply elem_of_elements|by apply not_elem_of_dom].
  - assert (∃ n, n ∈ one_gene ∧ n ∉ dom people) as (n & Hn & Hdom)
      by by apply not_subseteq_witness.
    rewrite (gene_p_loop_raise _ _ people one_gene two_genes (elements one_gene) n);
      [reflexivity|by apply elem_of_elements|by apply not_elem_of_dom].
Qed.

(** X6. [joint_probability] returns exactly when every name of [one_gene]
    and of [two_genes] is a person of the population, whether or not the
    two sets are disjoint; otherwise it raises [KeyError] (from
    [people[name]]).  The names of [have_trait] need not be persons. *)
Theorem joint_probability_raises (people : gmap string Person)
    (one_gene two_genes have_trait : gset string) :
  (one_gene ∪ two_genes ⊆ dom people ↔
     ∃ v, joint_probability people one_gene two_genes have_trait = Ok v)
  ∧ (¬ one_gene ∪ two_genes ⊆ dom people →
     joint_probability people one_gene two_genes have_trait = Raise KeyError).
Proof.
  split; [split|].
  - intros Hsub. rewrite joint_probability_value by done. eauto.
  - intros [v Hv]. destruct (decide (one_gene ∪ two_genes ⊆ dom people)) as [|Hnot];
      [done|]. by rewrite (joint_probability_KeyError _ _ _ _ Hnot) in Hv.
  - apply joint_probability_KeyError.
Qed.

Lemma joint_probability_raises_witness :
  joint_probability family {["Nobody"%string]} ∅ ∅ = Raise KeyError.
Proof.
  apply (joint_probability_raises family {["Nobody"%string]} ∅ ∅).
  decide_by_computation.
Defined.

(** X7. Whenever [joint_probability] returns, the value is a probability
    and is not zero: it is greater than 0 and at most 1. *)
Theorem joint_probability_bounds (people : gmap string Person)
    (one_gene two_genes have_trait : gset string) (v : Qc) :
  joint_probability people one_gene two_genes have_trait = Ok v →
  0 < v ∧ v ≤ 1.
Proof.
  intros Hv.
  destruct (decide (one_gene ∪ two_genes ⊆ dom people)) as [Hsub|Hnot];
    [|by rewrite (joint_probability_KeyError _ _ _ _ Hnot) in Hv].
  rewrite joint_probability_value in Hv by done. apply Ok_inj in Hv as <-.
  pose proof (gene_p_entry_bounds people one_gene two_genes) as Hb.
  assert (Hone : 0 < 1 ∧ 1 ≤ 1) by (split; [Qc_positive|Qc_at_most]).
  apply mult_bounds; [apply mult_bounds; [apply mult_bounds; [exact Hone|]|]|];
    apply product_bounds, Forall_fmap, Forall_forall; intros n _; cbv beta;
    apply term_bounds, (Hb n).
Qed.

Lemma joint_probability_bounds_witness :
  ∃ v, joint_probability family {["Harry"%string]} {["James"%string]} ∅ = Ok v
       ∧ 0 < v ∧ v ≤ 1.
Proof.
  assert (Hsub : ({["Harry"%string]} : gset string) ∪ {["James"%string]} ⊆ dom family)
    by decide_by_computation.
  eexists. split; [apply (joint_probability_value family _ _ _ Hsub)|].
  apply (joint_probability_bounds family {["Harry"%string]} {["James"%string]} ∅).
  apply (joint_probability_value family _ _ _ Hsub).
Defined.

(** X8. Names of [have_trait] that are no persons of the population are
    ignored: [joint_probability] gives the same result, value or
    exception, on [have_trait] and on its part inside the population. *)
Theorem joint_probability_have_trait_outside (people : gmap string Person)
    (one_gene two_genes have_trait : gset string) :
  joint_probability people one_gene two_genes have_trait
  = joint_probability people one_gene two_genes (have_trait ∩ dom people).
Proof.
  destruct (decide (one_gene ∪ two_genes ⊆ dom people)) as [Hsub|Hnot];
    [|by rewrite !joint_probability_KeyError].
  rewrite !joint_probability_value by done.
  assert (Hext : ∀ (X : gset string) (f : string → bool → Qc), X ⊆ dom people →
    (λ n, f n (bool_decide (n ∈ have_trait))) <$> elements X
    = (λ n, f n (bool_decide (n ∈ have_trait ∩ dom people))) <$> elements X).
  { intros X f HX. apply Forall_fmap_ext, Forall_forall.
    intros n Hn%elem_of_elements. f_equal. apply bool_decide_ext. set_solver. }
  rewrite (Hext _ (λ n b, gene_p_entry (PROBS.gene G0) _ people one_gene two_genes n
                          * PROBS.trait G0 b)) by set_solver.
  rewrite (Hext one_gene (λ n b, gene_p_entry (PROBS.gene G1) _ people one_gene two_genes n
                          * PROBS.trait G1 b)) by set_solver.
  rewrite (Hext two_genes (λ n b, gene_p_entry (PROBS.gene G2) _ people one_gene two_genes n
                          * PROBS.trait G2 b)) by set_solver.
  done.
Qed.

(** ** The order of the calls to [update] *)

Lemma update_person_comm (person : string)
    (one_gene two_genes have_trait one_gene' two_genes' have_trait' : gset string)
    (p p' : Qc) (d : Distributions) :
  update_person person one_gene two_genes have_trait p
    (update_person person one_gene' two_genes' have_trait' p' d)
  = update_person person one_gene' two_genes' have_trait' p'
      (update_person person one_gene two_genes have_trait p d).
Proof.
  destruct d as [g2 g1 g0 tT tF]. rewrite !update_person_record.
  destruct (assigned_gene_count one_gene two_genes person),
    (assigned_gene_count one_gene' two_genes' person),
    (bool_decide (person ∈ have_trait)), (bool_decide (person ∈ have_trait'));
    f_equal; ring.
Qed.

Lemma update_comm (probabilities : gmap string Distributions)
    (one_gene two_genes have_trait one_gene' two_genes' have_trait' : gset string)
    (p p' : Qc) :
  update (update probabilities one_gene' two_genes' have_trait' p')
    one_gene two_genes have_trait p
  = update (update probabilities one_gene two_genes have_trait p)
      one_gene' two_genes' have_trait' p'.
Proof.
  apply map_eq. intros person. rewrite !lookup_update.
  destruct (probabilities !! person) as [d|]; [|done].
  cbn [fmap option_fmap option_map]. f_equal. apply update_person_comm.
Qed.

Lemma updates_Permutation
    (calls calls' : list (gset string * gset string * gset string * Qc))
    (probabilities : gmap string Distributions) :
  calls ≡ₚ calls' → updates calls probabilities = updates calls' probabilities.
Proof.
  intros Hperm. revert probabilities.
  induction Hperm as [|[[[one two] ht] p] l l' _ IH
                      |[[[one two] ht] p] [[[one' two'] ht'] p'] l
                      |l l' l'' _ IH1 _ IH2]; intros probabilities.
  - done.
  - cbn [updates fold_left]. apply IH.
  - cbn [updates fold_left]. by rewrite update_comm.
  - by rewrite IH1.
Qed.

Lemma for_each_score (people : gmap string Person)
    (l : list (gset string * gset string * gset string))
    (probabilities : gmap string Distributions) :
  (∀ sc, sc ∈ l → sc ∈ scenarios people) →
  for_each (score people) l probabilities
  = Ok (updates ((λ '(one_gene, two_genes, have_trait),
                    (one_gene, two_genes, have_trait,
                     scenario_probability people one_gene two_genes have_trait))
                 <$> l) probabilities).
Proof.
  revert probabilities. induction l as [|[[one two] ht] l IH]; intros probs H; [done|].
  assert (Hsc : (one, two, ht) ∈ scenarios people) by (apply H; by left).
  apply elem_of_scenarios in Hsc as (_ & _ & H1 & H2 & Hd).
  cbn [for_each score]. rewrite joint_probability_scenario by done.
  cbn [mbind result_bind]. rewrite IH by (intros ??; apply H; by right). done.
Qed.

(** X9. The order of the calls to [update] does not matter: two sequences
    of calls that are permutations of each other leave the same table.  In
    particular [main] accumulates the same table in whatever order the
    scenarios are scored. *)
Theorem accumulation_order_irrelevant
    (calls calls' : list (gset string * gset string * gset string * Qc))
    (probabilities : gmap string Distributions) :
  calls ≡ₚ calls' →
  updates calls probabilities = updates calls' probabilities
  ∧ ∀ (people : gmap string Person)
      (order : list (gset string * gset string * gset string)),
      order ≡ₚ scenarios people →
      for_each (score people) order ((λ _, zero_distributions) <$> people)
      = accumulate people.
Proof.
  intros Hperm. split; [by apply updates_Permutation|].
  intros people order Horder. rewrite accumulate_updates.
  rewrite for_each_score by (intros sc Hsc; by rewrite <- Horder).
  f_equal. apply updates_Permutation. by apply fmap_Permutation.
Qed.

Lemma accumulation_order_irrelevant_witness :
  updates [(∅, ∅, ∅, Q2Qc 0.5); ({["Harry"%string]}, ∅, ∅, Q2Qc 0.25)] sample_table
  = updates [({["Harry"%string]}, ∅, ∅, Q2Qc 0.25); (∅, ∅, ∅, Q2Qc 0.5)] sample_table.
Proof.
  apply (accumulation_order_irrelevant
           [(∅, ∅, ∅, Q2Qc 0.5); ({["Harry"%string]}, ∅, ∅, Q2Qc 0.25)]
           [({["Harry"%string]}, ∅, ∅, Q2Qc 0.25); (∅, ∅, ∅, Q2Qc 0.5)]).
  apply perm_swap.
Defined.

(** ** Rescaling before [normalize] *)

Lemma scale_distributions_sums (cg ct : Qc) (d : Distributions) :
  get_dist_sum (gene (scale_distributions cg ct d)) = cg * get_dist_sum (gene d)
  ∧ get_dist_sum (trait_dist (scale_distributions cg ct d))
    = ct * get_dist_sum (trait_dist d).
Proof.
  rewrite !get_dist_sum_gene, !get_dist_sum_trait. cbn [scale_distributions
    gene2 gene1 gene0 traitTrue traitFalse]. split; ring.
Qed.

Lemma nonzero_sums_scale (cg ct : Qc) (d : Distributions) :
  cg ≠ 0 → ct ≠ 0 → nonzero_sums (scale_distributions cg ct d) ↔ nonzero_sums d.
Proof.
  intros Hcg Hct. unfold nonzero_sums.
  destruct (scale_distributions_sums cg ct d) as [-> ->].
  split; intros [Hg Ht]; split.
  - intros H0. apply Hg. rewrite H0. ring.
  - intros H0. apply Ht. rewrite H0. ring.
  - intros [?|?]%Qcmult_integral; done.
  - intros [?|?]%Qcmult_integral; done.
Qed.

Lemma divided_scale (cg ct : Qc) (d : Distributions) :
  cg ≠ 0 → ct ≠ 0 → nonzero_sums d →
  divided (scale_distributions cg ct d) = divided d.
Proof.
  intros Hcg Hct [Hg Ht]. unfold divided.
  destruct (scale_distributions_sums cg ct d) as [-> ->].
  cbn [scale_distributions gene2 gene1 gene0 traitTrue traitFalse].
  f_equal; by field.
Qed.

(** X10. [normalize] sees proportions only: multiplying all gene weights of
    a table by a nonzero factor and all trait weights by another nonzero
    factor changes nothing in what [normalize] returns, be it the
    normalised table or [ZeroDivisionError]. *)
Theorem normalize_scale_invariant (cg ct : Qc)
    (probabilities : gmap string Distributions) :
  cg ≠ 0 → ct ≠ 0 →
  normalize (scale_distributions cg ct <$> probabilities) = normalize probabilities.
Proof.
  intros Hcg Hct.
  destruct (decide (map_Forall (λ _, nonzero_sums) probabilities)) as [Hnz|Hz].
  - rewrite !normalize_ok; [|done|].
    + f_equal. rewrite <- map_fmap_compose. apply map_fmap_ext.
      intros person d Hd. by apply divided_scale, (Hnz person).
    + intros person d. rewrite lookup_fmap.
      destruct (probabilities !! person) as [d0|] eqn:Hd0; [|done].
      intros [= <-]. by apply nonzero_sums_scale, (Hnz person).
  - rewrite !normalize_raise; [done..|].
    intros Hall. apply Hz. intros person d Hd.
    apply (nonzero_sums_scale cg ct); [done..|].
    apply (Hall person). by rewrite lookup_fmap, Hd.
Qed.

Lemma normalize_scale_invariant_witness :
  normalize (scale_distributions (Q2Qc 2) (Q2Qc 0.5) <$> sample_table)
  = normalize sample_table.
Proof.
  apply (normalize_scale_invariant (Q2Qc 2) (Q2Qc 0.5) sample_table);
    apply Qc_decide_neq; vm_compute; reflexivity.
Defined.

(** ** Loading the data *)

Lemma load_data_snoc (rows : list Row) (row : Row) :
  load_data (rows ++ [row]) = <[row_name row := row_person row]> (load_data rows).
Proof. unfold load_data. by rewrite fold_left_app. Qed.

Lemma load_data_lookup_Some (rows : list Row) (n : string) (p : Person) :
  load_data rows !! n = Some p →
  ∃ row, row ∈ rows ∧ row_name row = n ∧ p = row_person row.
Proof.
  induction rows as [|row rows IH] using rev_ind; [done|].
  rewrite load_data_snoc. destruct (decide (row_name row = n)) as [<-|Hne].
  - rewrite lookup_insert_eq. intros [= <-]. exists row. split; [|done].
    apply elem_of_app. right. by left.
  - rewrite lookup_insert_ne by done. intros (row' & Hin & Hn & Hp)%IH.
    exists row'. split; [|done]. apply elem_of_app. by left.
Qed.

(** X11. [load_data] keeps, for every name, the last row with that name: a
    later row replaces an earlier one, and a name without a row is no key of
    the result. *)
Theorem load_data_last_row (rows : list Row) (n : string) :
  load_data rows !! n
  = row_person <$> last (filter (λ row, row_name row = n) rows).
Proof.
  induction rows as [|row rows IH] using rev_ind; [done|].
  rewrite load_data_snoc, filter_app, filter_cons, filter_nil.
  destruct (decide (row_name row = n)) as [<-|Hne].
  - by rewrite lookup_insert_eq, last_snoc.
  - by rewrite lookup_insert_ne, app_nil_r.
Qed.

(** X12. Every person that [load_data] stores carries its own key as name,
    never has the empty string as a parent, and has an observed trait
    exactly when the trait cell of its row is ["1"] (trait) or ["0"] (no
    trait); any other cell is read as unknown. *)
Theorem load_data_persons (rows : list Row) (n : string) (p : Person) :
  load_data rows !! n = Some p →
  name p = n ∧ mother p ≠ Some ""%string ∧ father p ≠ Some ""%string
  ∧ ∃ row, row ∈ rows ∧ row_name row = n
      ∧ (trait p = Some true ↔ row_trait row = "1"%string)
      ∧ (trait p = Some false ↔ row_trait row = "0"%string)
      ∧ (mother p = None ↔ row_mother row = ""%string)
      ∧ (father p = None ↔ row_father row = ""%string).
Proof.
  intros (row & Hin & Hn & ->)%load_data_lookup_Some.
  unfold row_person. cbn [name mother father trait].
  split_and!; [done| | |exists row; split_and!; [done..| | | |]];
    repeat case_decide; try done; try (split; intros; by simplify_eq);
    try (intros [= Heq]; by rewrite Heq in *).
  rewrite H. split; intros [=].
Qed.

Lemma load_data_persons_witness :
  let rows := [{| row_name := "Harry"; row_mother := "Lily"; row_father := "James";
                  row_trait := "" |};
               {| row_name := "Harry"; row_mother := ""; row_father := "";
                  row_trait := "1" |}] in
  name (founder "Harry" (Some true)) = "Harry"%string.
Proof.
  intros rows.
  apply (load_data_persons rows "Harry" (founder "Harry" (Some true))).
  reflexivity.
Defined.

(** ** What [main] reads of a person *)

Lemma bind_ext_in {A B : Type} (f g : A → list B) (l : list A) :
  (∀ x, x ∈ l → f x = g x) → l ≫= f = l ≫= g.
Proof.
  induction l as [|x l IH]; intros H; [done|].
  cbn [mbind list_bind]. rewrite (H x) by left. f_equal.
  apply IH. intros ??. apply H. by right.
Qed.

Section same_parents_and_traits.
Variables people people' : gmap string Person.
Hypothesis same : ∀ n,
  (λ p, (parents p, trait p)) <$> people !! n
  = (λ p, (parents p, trait p)) <$> people' !! n.

Lemma same_dom : dom people = dom people'.
Proof.
  apply set_eq. intros n. rewrite !elem_of_dom. specialize (same n).
  destruct (people !! n), (people' !! n); naive_solver.
Qed.

Lemma same_parents (n : string) : people !! n ≫= parents = people' !! n ≫= parents.
Proof.
  specialize (same n). destruct (people !! n), (people' !! n); naive_solver.
Qed.

Lemma same_trait (n : string) : people !! n ≫= trait = people' !! n ≫= trait.
Proof.
  specialize (same n). destruct (people !! n), (people' !! n); naive_solver.
Qed.

Lemma same_violates (have_trait : gset string) :
  violates people have_trait = violates people' have_trait.
Proof.
  unfold violates. rewrite same_dom. apply existsb_ext_in. intros n _.
  by rewrite !contradicts_lookup, same_trait.
Qed.

Lemma same_scenarios : scenarios people = scenarios people'.
Proof.
  unfold scenarios. rewrite same_dom. apply bind_ext_in. intros ht _.
  by rewrite same_violates.
Qed.

Lemma same_scenario_probability (one_gene two_genes have_trait : gset string) :
  scenario_probability people one_gene two_genes have_trait
  = scenario_probability people' one_gene two_genes have_trait.
Proof.
  unfold scenario_probability. rewrite same_dom. f_equal.
  apply Forall_fmap_ext, Forall_forall. intros n _.
  unfold gene_count_probability. by rewrite same_parents.
Qed.

End same_parents_and_traits.

(** X13. [main] reads of a person only the observed trait and, when both
    are recorded, the two parents: two populations with the same names
    that agree on these give the same result.  The name stored in the
    record and a parent recorded without the other one have no influence. *)
Theorem main_reads_parents_and_trait (people people' : gmap string Person) :
  (∀ n, (λ p, (parents p, trait p)) <$> people !! n
        = (λ p, (parents p, trait p)) <$> people' !! n) →
  main people = main people'.
Proof.
  intros Hsame. rewrite !main_scored. do 2 f_equal.
  assert (scored people = scored people') as ->.
  { unfold scored. rewrite (same_scenarios people people' Hsame).
    apply Forall_fmap_ext, Forall_forall. intros [[one two] ht] _.
    by rewrite (same_scenario_probability people people' Hsame). }
  f_equal. apply map_eq. intros n. rewrite !lookup_fmap. specialize (Hsame n).
  destruct (people !! n), (people' !! n); naive_solver.
Qed.

Lemma main_reads_parents_and_trait_witness :
  main half_orphan = main (<["Harry"%string := founder "Harry" None]> half_orphan).
Proof.
  apply (main_reads_parents_and_trait half_orphan).
  intros n. destruct (decide (n = "Harry"%string)) as [->|Hne].
  - reflexivity.
  - by rewrite lookup_insert_ne.
Defined.

(** ** The joint probabilities of all scenarios *)

Lemma sum_Qc_Permutation (l k : list Qc) : l ≡ₚ k → sum_Qc l = sum_Qc k.
Proof.
  unfold sum_Qc. induction 1 as [|x l k _ IH|x y l|l k m _ IH1 _ IH2]; cbn [foldr].
  - done.
  - by rewrite IH.
  - ring.
  - by rewrite IH1.
Qed.

Lemma sum_Qc_nil : sum_Qc [] = 0.
Proof. done. Qed.

Lemma sum_Qc_cons (x : Qc) (l : list Qc) : sum_Qc (x :: l) = x + sum_Qc l.
Proof. done. Qed.

Lemma product_nil : product [] = 1.
Proof. done. Qed.

Lemma product_cons (x : Qc) (l : list Qc) : product (x :: l) = x * product l.
Proof. done. Qed.

Lemma sum_Qc_bind {A B : Type} (f : B → Qc) (g : A → list B) (l : list A) :
  sum_Qc (f <$> (l ≫= g)) = sum_Qc ((λ x, sum_Qc (f <$> g x)) <$> l).
Proof.
  induction l as [|x l IH]; [done|].
  by rewrite bind_cons, fmap_app, sum_Qc_app, fmap_cons, sum_Qc_cons, IH.
Qed.

Lemma sum_Qc_scale {A : Type} (c : Qc) (f : A → Qc) (l : list A) :
  sum_Qc ((λ x, c * f x) <$> l) = c * sum_Qc (f <$> l).
Proof.
  induction l as [|x l IH].
  - rewrite !fmap_nil, sum_Qc_nil. ring.
  - rewrite !fmap_cons, !sum_Qc_cons, IH. ring.
Qed.

Lemma sum_Qc_ext {A : Type} (f g : A → Qc) (l : list A) :
  (∀ x, x ∈ l → f x = g x) → sum_Qc (f <$> l) = sum_Qc (g <$> l).
Proof. intros H. f_equal. by apply Forall_fmap_ext, Forall_forall. Qed.

Lemma sum_Qc_plus {A : Type} (f g : A → Qc) (l : list A) :
  sum_Qc ((λ x, f x + g x) <$> l) = sum_Qc (f <$> l) + sum_Qc (g <$> l).
Proof.
  induction l as [|x l IH].
  - rewrite !fmap_nil, sum_Qc_nil. ring.
  - rewrite !fmap_cons, !sum_Qc_cons, IH. ring.
Qed.

Lemma sum_Qc_zero {A : Type} (l : list A) : sum_Qc ((λ _, 0) <$> l) = 0.
Proof.
  induction l as [|x l IH]; [done|]. rewrite fmap_cons, sum_Qc_cons, IH. ring.
Qed.

Lemma sum_Qc_swap {A B : Type} (h : A → B → Qc) (l : list A) (k : list B) :
  sum_Qc ((λ x, sum_Qc ((λ y, h x y) <$> k)) <$> l)
  = sum_Qc ((λ y, sum_Qc ((λ x, h x y) <$> l)) <$> k).
Proof.
  induction l as [|x l IH].
  - rewrite fmap_nil, sum_Qc_nil. symmetry.
    rewrite (sum_Qc_ext _ (λ _, 0)); [apply sum_Qc_zero|done].
  - rewrite fmap_cons, sum_Qc_cons, IH, <- sum_Qc_plus.
    apply sum_Qc_ext. intros y _. by rewrite fmap_cons, sum_Qc_cons.
Qed.

Lemma product_fmap_mult {A : Type} (f g : A → Qc) (l : list A) :
  product ((λ x, f x * g x) <$> l) = product (f <$> l) * product (g <$> l).
Proof.
  induction l as [|x l IH].
  - rewrite !fmap_nil, product_nil. ring.
  - rewrite !fmap_cons, !product_cons, IH. ring.
Qed.

Lemma product_ext {A : Type} (f g : A → Qc) (l : list A) :
  (∀ x, x ∈ l → f x = g x) → product (f <$> l) = product (g <$> l).
Proof. intros H. f_equal. by apply Forall_fmap_ext, Forall_forall. Qed.

Lemma product_ones {A : Type} (f : A → Qc) (l : list A) :
  (∀ x, x ∈ l → f x = 1) → product (f <$> l) = 1.
Proof.
  induction l as [|x l IH]; intros H; [done|].
  rewrite fmap_cons, product_cons, IH by (intros ??; apply H; by right).
  rewrite (H x) by left. ring.
Qed.

(** Summing over every set of names with the trait turns the product of the
    trait factors into the product of their sums. *)
Lemma sum_over_trait_sets (f : string → bool → Qc) (l : list string) :
  NoDup l →
  sum_Qc ((λ c, product ((λ x,
              f x (bool_decide (x ∈ (list_to_set c : gset string)))) <$> l))
          <$> sublists l)
  = product ((λ x, f x true + f x false) <$> l).
Proof.
  induction l as [|x l IH]; intros Hl.
  - cbn [sublists]. rewrite fmap_cons, !fmap_nil, sum_Qc_cons, sum_Qc_nil, product_nil.
    ring.
  - apply NoDup_cons in Hl as [Hx Hl]. specialize (IH Hl).
    cbn [sublists]. rewrite fmap_app, sum_Qc_app, <- list_fmap_compose.
    rewrite (sum_Qc_ext _ (λ c, f x true * product ((λ y,
               f y (bool_decide (y ∈ (list_to_set c : gset string)))) <$> l))).
    2:{ intros c Hc. cbn [compose]. rewrite fmap_cons, product_cons.
        rewrite bool_decide_eq_true_2 by (apply elem_of_list_to_set; left).
        f_equal. apply product_ext. intros y Hy. f_equal. apply bool_decide_ext.
        rewrite !elem_of_list_to_set, elem_of_cons. naive_solver. }
    rewrite (sum_Qc_ext (λ c, product ((λ y,
               f y (bool_decide (y ∈ (list_to_set c : gset string)))) <$> x :: l))
             (λ c, f x false * product ((λ y,
               f y (bool_decide (y ∈ (list_to_set c : gset string)))) <$> l))).
    2:{ intros c Hc. rewrite fmap_cons, product_cons.
        rewrite bool_decide_eq_false_2; [done|].
        apply sublists_sublist, sublist_subseteq in Hc.
        intros Hxc%elem_of_list_to_set. by apply Hx, Hc. }
    rewrite !sum_Qc_scale, IH, fmap_cons, product_cons. ring.
Qed.

Lemma elem_of_assignments (l : list string) (one_gene two_genes : gset string) :
  NoDup l →
  (one_gene, two_genes) ∈ assignments l
  ↔ one_gene ⊆ list_to_set l ∧ two_genes ⊆ list_to_set l ∧ one_gene ## two_genes.
Proof.
  intros Hl. revert one_gene two_genes.
  induction l as [|x l IH]; intros one_gene two_genes.
  - cbn [assignments list_to_set]. rewrite list_elem_of_singleton. split.
    + intros [= -> ->]. set_solver.
    + intros (H1 & H2 & _). f_equal; set_solver.
  - apply NoDup_cons in Hl as [Hx Hl]. specialize (IH Hl).
    cbn [assignments]. rewrite list_elem_of_bind, list_to_set_cons.
    assert (Hxs : x ∉ (list_to_set l : gset string))
      by by rewrite elem_of_list_to_set.
    split.
    + intros ([o t] & Hin & (Ho & Ht & Hd)%IH).
      rewrite !elem_of_cons, elem_of_nil in Hin.
      destruct Hin as [[= -> ->]|[[= -> ->]|[[= -> ->]|[]]]]; set_solver.
    + intros (H1 & H2 & Hd).
      exists (one_gene ∖ {[x]}, two_genes ∖ {[x]}). split.
      * rewrite !elem_of_cons.
        destruct (decide (x ∈ one_gene)) as [Hx1|Hx1];
          [|destruct (decide (x ∈ two_genes)) as [Hx2|Hx2]].
        -- right; left. f_equal; apply set_eq; intros y;
             destruct (decide (y = x)) as [->|]; set_solver.
        -- right; right; left. f_equal; apply set_eq; intros y;
             destruct (decide (y = x)) as [->|]; set_solver.
        -- left. f_equal; set_solver.
      * apply IH. set_solver.
Qed.

Lemma NoDup_assignments (l : list string) : NoDup l → NoDup (assignments l).
Proof.
  induction l as [|x l IH]; intros Hl; [apply NoDup_singleton|].
  pose proof Hl as Hxl. apply NoDup_cons in Hl as [Hx Hl].
  assert (Hxs : x ∉ (list_to_set l : gset string))
    by by rewrite elem_of_list_to_set.
  cbn [assignments]. apply NoDup_bind; [| |by apply IH].
  - intros [o t] [o' t'] [a b] (Ho & Ht & _)%elem_of_assignments
      (Ho' & Ht' & _)%elem_of_assignments Hin Hin'; [|done..].
    assert (o = a ∖ {[x]} ∧ t = b ∖ {[x]}) as [-> ->].
    { rewrite !elem_of_cons, elem_of_nil in Hin.
      destruct Hin as [[= -> ->]|[[= -> ->]|[[= -> ->]|[]]]];
        split; apply set_eq; intros y; destruct (decide (y = x)) as [->|];
        set_solver. }
    assert (o' = a ∖ {[x]} ∧ t' = b ∖ {[x]}) as [-> ->]; [|done].
    rewrite !elem_of_cons, elem_of_nil in Hin'.
    destruct Hin' as [[= -> ->]|[[= -> ->]|[[= -> ->]|[]]]];
      split; apply set_eq; intros y; destruct (decide (y = x)) as [->|];
      set_solver.
  - intros [o t] (Ho & Ht & _)%elem_of_assignments; [|done].
    assert (Hxo : x ∉ o) by set_solver. assert (Hxt : x ∉ t) by set_solver.
    apply NoDup_cons_2; [|apply NoDup_cons_2; [|apply NoDup_singleton]].
    + rewrite !elem_of_cons, elem_of_nil.
      intros [[= Heq]|[[= Heq]|[]]]; apply (f_equal (λ X : gset string, x ∈ X)) in Heq;
        cbv beta in Heq; [apply Hxo|apply Hxt]; rewrite Heq; set_solver.
    + rewrite list_elem_of_singleton. intros [= Heq _].
      apply Hxo. rewrite <- Heq. set_solver.
Qed.

Lemma gene_partitions_assignments (l : list string) :
  NoDup l → gene_partitions (list_to_set l) ≡ₚ assignments l.
Proof.
  intros Hl. apply NoDup_Permutation.
  - apply NoDup_gene_partitions.
  - by apply NoDup_assignments.
  - intros [one two]. by rewrite elem_of_gene_partitions, elem_of_assignments.
Qed.

Lemma gene_count_probability_agree (people : gmap string Person)
    (one_gene two_genes one_gene' two_genes' : gset string) (y : string) :
  assigned_gene_count one_gene' two_genes' y = assigned_gene_count one_gene two_genes y →
  (∀ f m, people !! y ≫= parents = Some (f, m) →
     assigned_gene_count one_gene' two_genes' f = assigned_gene_count one_gene two_genes f
     ∧ assigned_gene_count one_gene' two_genes' m
       = assigned_gene_count one_gene two_genes m) →
  gene_count_probability people one_gene' two_genes' y
  = gene_count_probability people one_gene two_genes y.
Proof.
  intros Hy Hparents. unfold gene_count_probability. rewrite Hy.
  destruct (people !! y ≫= parents) as [[f m]|]; [|done].
  by destruct (Hparents f m eq_refl) as [-> ->].
Qed.

Lemma assigned_gene_count_other (one_gene two_genes : gset string) (x y : string) :
  y ≠ x →
  assigned_gene_count ({[x]} ∪ one_gene) two_genes y
  = assigned_gene_count one_gene two_genes y
  ∧ assigned_gene_count one_gene ({[x]} ∪ two_genes) y
    = assigned_gene_count one_gene two_genes y.
Proof.
  intros Hne. unfold assigned_gene_count.
  split; repeat case_decide; try done; set_solver.
Qed.

Lemma assigned_gene_count_self (one_gene two_genes : gset string) (x : string) :
  x ∉ one_gene → x ∉ two_genes →
  assigned_gene_count one_gene two_genes x = G0
  ∧ assigned_gene_count ({[x]} ∪ one_gene) two_genes x = G1
  ∧ assigned_gene_count one_gene ({[x]} ∪ two_genes) x = G2.
Proof.
  intros H1 H2. unfold assigned_gene_count.
  split_and!; repeat case_decide; try done; set_solver.
Qed.

Lemma is_parent_of_false (people : gmap string Person) (x y f m : string) :
  is_parent_of people x y = false → people !! y ≫= parents = Some (f, m) →
  f ≠ x ∧ m ≠ x.
Proof.
  unfold is_parent_of. intros H Hp. rewrite Hp in H.
  apply orb_false_iff in H as [Hf%bool_decide_eq_false Hm%bool_decide_eq_false].
  done.
Qed.

(** The three gene counts of a person share, whatever the others have, a
    total probability of 1. *)
Lemma gene_count_probability_total (people : gmap string Person)
    (one_gene two_genes : gset string) (x : string) :
  x ∉ one_gene → x ∉ two_genes → is_parent_of people x x = false →
  gene_count_probability people one_gene two_genes x
  + gene_count_probability people ({[x]} ∪ one_gene) two_genes x
  + gene_count_probability people one_gene ({[x]} ∪ two_genes) x = 1.
Proof.
  intros H1 H2 Hself. unfold gene_count_probability.
  destruct (assigned_gene_count_self one_gene two_genes x H1 H2) as (-> & -> & ->).
  destruct (people !! x ≫= parents) as [[f m]|] eqn:Hp.
  - destruct (is_parent_of_false people x x f m Hself Hp) as [Hf Hm].
    destruct (assigned_gene_count_other one_gene two_genes x f Hf) as [-> ->].
    destruct (assigned_gene_count_other one_gene two_genes x m Hm) as [-> ->].
    unfold inherited. ring.
  - Qc_compute.
Qed.

Lemma sum_over_assignments (people : gmap string Person) (l : list string) :
  NoDup l → children_first people l = true →
  sum_Qc ((λ '(one_gene, two_genes),
             product (gene_count_probability people one_gene two_genes <$> l))
          <$> assignments l)
  = 1.
Proof.
  induction l as [|x l IH]; intros Hl Hcf.
  - cbn [assignments]. by rewrite fmap_cons, !fmap_nil, sum_Qc_cons, sum_Qc_nil,
      product_nil, Qcplus_0_r.
  - pose proof Hl as Hxl. apply NoDup_cons in Hl as [Hx Hl].
    cbn [children_first] in Hcf. apply andb_true_iff in Hcf as [Hleaf Hcf].
    rewrite forallb_forall in Hleaf.
    assert (Hnot : ∀ y, y ∈ x :: l → is_parent_of people x y = false).
    { intros y Hy%list_elem_of_In. apply negb_true_iff. by apply Hleaf. }
    cbn [assignments]. rewrite sum_Qc_bind. rewrite <- (IH Hl Hcf).
    apply sum_Qc_ext. intros [o t] (Ho & Ht & _)%elem_of_assignments; [|done].
    assert (Hxo : x ∉ o) by (rewrite <- (elem_of_list_to_set (C := gset string)) in Hx; set_solver).
    assert (Hxt : x ∉ t) by (rewrite <- (elem_of_list_to_set (C := gset string)) in Hx; set_solver).
    assert (Hrest : ∀ o' t',
      (∀ y, y ≠ x → assigned_gene_count o' t' y = assigned_gene_count o t y) →
      product (gene_count_probability people o' t' <$> l)
      = product (gene_count_probability people o t <$> l)).
    { intros o' t' Hsame. apply product_ext. intros y Hy.
      assert (y ≠ x) by (intros ->; done).
      apply gene_count_probability_agree; [by apply Hsame|].
      intros f m Hp.
      destruct (is_parent_of_false people x y f m) as [Hf Hm];
        [apply Hnot; by right|done|].
      split; by apply Hsame. }
    rewrite !fmap_cons, fmap_nil, !sum_Qc_cons, sum_Qc_nil, !product_cons.
    rewrite (Hrest ({[x]} ∪ o) t)
      by (intros y Hy; apply (assigned_gene_count_other o t x y Hy)).
    rewrite (Hrest o ({[x]} ∪ t))
      by (intros y Hy; apply (assigned_gene_count_other o t x y Hy)).
    set (rest := product (gene_count_probability people o t <$> l)).
    assert (Htot := gene_count_probability_total people o t x Hxo Hxt
                      (Hnot x (list_elem_of_here x l))).
    transitivity ((gene_count_probability people o t x
                   + gene_count_probability people ({[x]} ∪ o) t x
                   + gene_count_probability people o ({[x]} ∪ t) x) * rest);
      [ring|]. rewrite Htot. ring.
Qed.

Lemma elem_of_sublists_sets (l : list string) (X : gset string) :
  X ∈ (list_to_set <$> sublists l : list (gset string)) ↔ X ⊆ list_to_set l.
Proof.
  rewrite list_elem_of_fmap. split.
  - intros [c [-> Hc%sublists_sublist%sublist_subseteq]] x.
    rewrite !elem_of_list_to_set. apply Hc.
  - intros HX. exists (filter (λ x, x ∈ X) l). split.
    + apply set_eq. intros x.
      rewrite elem_of_list_to_set, list_elem_of_filter.
      specialize (HX x). rewrite elem_of_list_to_set in HX. tauto.
    + apply filter_sublists.
Qed.

Lemma NoDup_sublists_sets (l : list string) :
  NoDup l → NoDup (list_to_set <$> sublists l : list (gset string)).
Proof.
  intros Hl. apply NoDup_fmap_2_strong; [|by apply NoDup_sublists].
  intros c c' Hc%sublists_sublist Hc'%sublists_sublist Heq.
  eapply sublist_same_elements; [exact Hl|done..|].
  intros x. rewrite <- !(elem_of_list_to_set (C := gset string)). by rewrite Heq.
Qed.

Lemma powerset_sublists_of (l : list string) :
  NoDup l → powerset (list_to_set l) ≡ₚ list_to_set <$> sublists l.
Proof.
  intros Hl. apply NoDup_Permutation.
  - apply NoDup_powerset.
  - by apply NoDup_sublists_sets.
  - intros X. by rewrite elem_of_powerset, elem_of_sublists_sets.
Qed.

Lemma PROBS_trait_total (g : GeneCount) : PROBS.trait g true + PROBS.trait g false = 1.
Proof. destruct g; Qc_compute. Qed.

Lemma scenarios_no_evidence (people : gmap string Person) :
  (∀ n p, people !! n = Some p → trait p = None) →
  scenarios people
  = (have_trait ← powerset (dom people);
     '(one_gene, two_genes) ← gene_partitions (dom people);
     [(one_gene, two_genes, have_trait)]).
Proof.
  intros Hnone. unfold scenarios. apply bind_ext_in. intros ht _.
  rewrite (proj2 (violates_false people ht)); [done|].
  intros n p t Hp Ht. rewrite (Hnone n p Hp) in Ht. done.
Qed.

(** X14. Without observations the joint probabilities of all scenarios add
    up to 1, provided the family tree has no cycle: the persons can be
    listed so that nobody is a parent of themselves or of a person later in
    the list.  Then every distribution that [main] accumulates already
    sums to 1 and [normalize] changes nothing. *)
Theorem joint_probabilities_sum_to_one (people : gmap string Person)
    (order : list string) :
  (∀ n p, people !! n = Some p → trait p = None) →
  order ≡ₚ elements (dom people) →
  children_first people order = true →
  sum_Qc ((λ '(one_gene, two_genes, have_trait),
             scenario_probability people one_gene two_genes have_trait)
          <$> scenarios people) = 1
  ∧ total_mass (scored people) = 1
  ∧ main people = accumulate people.
Proof.
  intros Hnone Horder Hcf.
  assert (Hnodup : NoDup order) by (rewrite Horder; apply NoDup_elements).
  assert (Hset : dom people = list_to_set order).
  { apply set_eq. intros n. by rewrite elem_of_list_to_set, Horder, elem_of_elements. }
  assert (Hpow : powerset (dom people) ≡ₚ list_to_set <$> sublists order)
    by (rewrite Hset; by apply powerset_sublists_of).
  assert (Hsum : sum_Qc ((λ '(one_gene, two_genes, have_trait),
             scenario_probability people one_gene two_genes have_trait)
          <$> scenarios people) = 1).
  { rewrite scenarios_no_evidence by done. rewrite sum_Qc_bind.
    rewrite (sum_Qc_ext _ (λ ht, sum_Qc ((λ '(one_gene, two_genes),
               scenario_probability people one_gene two_genes ht)
             <$> gene_partitions (dom people)))).
    2:{ intros ht _. rewrite sum_Qc_bind. apply sum_Qc_ext. intros [o t] _.
        by rewrite fmap_cons, fmap_nil, sum_Qc_cons, sum_Qc_nil, Qcplus_0_r. }
    rewrite (sum_Qc_ext _ (λ ht, sum_Qc ((λ ot,
               scenario_probability people ot.1 ot.2 ht)
             <$> gene_partitions (dom people))))
      by (intros ht _; apply sum_Qc_ext; by intros [o t] _).
    rewrite (sum_Qc_swap (λ ht ot, scenario_probability people ot.1 ot.2 ht)).
    rewrite (sum_Qc_ext _ (λ ot,
               product (gene_count_probability people ot.1 ot.2 <$> order))).
    - rewrite Hset, (sum_Qc_Permutation _ _
        (fmap_Permutation _ _ _ (gene_partitions_assignments order Hnodup))).
      rewrite <- (sum_over_assignments people order Hnodup Hcf).
      apply sum_Qc_ext. by intros [o t] _.
    - intros [o t] _. cbn [fst snd]. unfold scenario_probability.
      rewrite (sum_Qc_ext _ (λ ht,
        product (gene_count_probability people o t <$> order)
        * product ((λ x, PROBS.trait (assigned_gene_count o t x)
                           (bool_decide (x ∈ ht))) <$> order))).
      2:{ intros ht _. rewrite product_fmap_mult.
          f_equal; apply product_Permutation, fmap_Permutation; by symmetry. }
      rewrite sum_Qc_scale.
      rewrite (sum_Qc_Permutation _ _ (fmap_Permutation _ _ _ Hpow)).
      rewrite <- list_fmap_compose.
      rewrite (sum_Qc_ext _ (λ c, product ((λ x,
        PROBS.trait (assigned_gene_count o t x)
          (bool_decide (x ∈ (list_to_set c : gset string)))) <$> order)))
        by done.
      rewrite (sum_over_trait_sets
        (λ x b, PROBS.trait (assigned_gene_count o t x) b) order Hnodup).
      rewrite (product_ones (λ x, PROBS.trait (assigned_gene_count o t x) true
                                  + PROBS.trait (assigned_gene_count o t x) false))
        by (intros; apply PROBS_trait_total).
      ring. }
  assert (Htotal : total_mass (scored people) = 1).
  { rewrite total_mass_sum. unfold scored. rewrite <- list_fmap_compose.
    rewrite <- Hsum. apply sum_Qc_ext. by intros [[o t] ht] _. }
  split_and!; [done..|].
  rewrite main_scored, accumulate_updates. fold (scored people). f_equal.
  apply map_eq. intros person. rewrite lookup_fmap.
  destruct (updates _ _ !! person) as [d|] eqn:Hd; [|done].
  destruct (updates_sums people (scored people) person d Hd) as [Hg Ht].
  cbn [fmap option_fmap option_map]. f_equal. apply divided_id; congruence.
Qed.

Lemma family_unobserved_no_trait (n : string) (p : Person) :
  family_unobserved !! n = Some p → trait p = None.
Proof.
  assert (H : map_Forall (λ _ p, trait p = None) family_unobserved)
    by decide_by_computation.
  apply H.
Defined.

Lemma joint_probabilities_sum_to_one_witness :
  total_mass (scored family_unobserved) = 1
  ∧ main family_unobserved = accumulate family_unobserved.
Proof.
  assert (Horder : ["Harry"; "James"; "Lily"]%string
                   ≡ₚ elements (dom family_unobserved))
    by (replace (elements (dom family_unobserved))
          with ["James"; "Lily"; "Harry"]%string by (vm_compute; reflexivity);
        solve_Permutation).
  assert (Hcf : children_first family_unobserved ["Harry"; "James"; "Lily"]%string
                = true) by (vm_compute; reflexivity).
  exact (proj2 (joint_probabilities_sum_to_one family_unobserved
                  ["Harry"; "James"; "Lily"]%string
                  family_unobserved_no_trait Horder Hcf)).
Defined.

(** ** The listing of subsets *)

Lemma combinations_length {A : Type} (l : list A) r c :
  c ∈ combinations l r → length c = r.
Proof.
  revert r c. induction l as [|x l IH]; intros [|r] c; cbn [combinations].
  - by intros ->%list_elem_of_singleton.
  - by intros ?%elem_of_nil.
  - by intros ->%list_elem_of_singleton.
  - rewrite elem_of_app. intros [Hc|Hc].
    + apply list_elem_of_fmap in Hc as [c' [-> Hc']]. simpl. f_equal. by apply IH.
    + by apply IH.
Qed.

Lemma combinations_sublist {A : Type} (l : list A) r c :
  c ∈ combinations l r → c `sublist_of` l.
Proof.
  revert r c. induction l as [|x l IH]; intros [|r] c; cbn [combinations].
  - intros ->%list_elem_of_singleton. constructor.
  - by intros ?%elem_of_nil.
  - intros ->%list_elem_of_singleton. apply sublist_nil_l.
  - rewrite elem_of_app. intros [Hc|Hc].
    + apply list_elem_of_fmap in Hc as [c' [-> Hc']].
      apply sublist_skip. by eapply IH.
    + apply sublist_cons. by eapply IH.
Qed.

Lemma combinations_all {A : Type} (l : list A) : combinations l (length l) = [l].
Proof.
  induction l as [|x l IH]; [done|]. cbn [length combinations].
  rewrite IH. by rewrite combinations_gt by lia.
Qed.

Lemma combinations_0 {A : Type} (l : list A) : combinations l 0 = [[]].
Proof. by destruct l. Qed.

Lemma StronglySorted_all {A : Type} (R : relation A) (l : list A) :
  (∀ x y, x ∈ l → y ∈ l → R x y) → StronglySorted R l.
Proof.
  induction l as [|x l IH]; intros H; constructor.
  - apply IH. intros y z Hy Hz. apply H; by right.
  - apply Forall_forall. intros y Hy. apply H; [by left|by right].
Qed.

Lemma size_combination (s : gset string) r c :
  c ∈ combinations (elements s) r → size (list_to_set c : gset string) = r.
Proof.
  intros Hc. rewrite size_list_to_set.
  - by eapply combinations_length.
  - apply (sublist_NoDup c (elements s)); [apply NoDup_elements|].
    by eapply combinations_sublist.
Qed.

Lemma combinations_by_size (s : gset string) a k :
  StronglySorted (λ c c', (size (list_to_set c : gset string)
                           ≤ size (list_to_set c' : gset string))%nat)
    (seq a k ≫= combinations (elements s)).
Proof.
  revert a. induction k as [|k IH]; intros a; [constructor|].
  cbn [seq]. rewrite bind_cons. apply StronglySorted_app_2.
  - intros c c' Hc Hc'. apply list_elem_of_bind in Hc' as [r [Hc' Hr]].
    apply elem_of_seq in Hr.
    rewrite (size_combination _ _ _ Hc), (size_combination _ _ _ Hc'). lia.
  - apply StronglySorted_all. intros c c' Hc Hc'.
    by rewrite (size_combination _ _ _ Hc), (size_combination _ _ _ Hc').
  - apply IH.
Qed.

(** X15. [powerset s] lists every subset of [s] exactly once ([2 ^ size s]
    entries), in order of nondecreasing size: the empty set comes first and
    [s] itself last. *)
Theorem powerset_lists_subsets_by_size (s : gset string) :
  (∀ X, X ∈ powerset s ↔ X ⊆ s)
  ∧ NoDup (powerset s)
  ∧ length (powerset s) = (2 ^ size s)%nat
  ∧ StronglySorted (λ X Y, (size X ≤ size Y)%nat) (powerset s)
  ∧ head (powerset s) = Some ∅
  ∧ last (powerset s) = Some s.
Proof.
  split; [intros X; apply elem_of_powerset|].
  split; [apply NoDup_powerset|].
  split; [apply length_powerset|].
  split; [|split].
  - unfold powerset. cbv zeta.
    eapply StronglySorted_fmap; [|apply combinations_by_size].
    by intros c c' H.
  - unfold powerset. cbv zeta. rewrite Nat.add_1_r. cbn [seq].
    by rewrite bind_cons, combinations_0.
  - unfold powerset. cbv zeta. rewrite Nat.add_1_r, seq_S, bind_app, fmap_app.
    cbn [seq Nat.add]. rewrite bind_cons, combinations_all.
    cbn [mbind list_bind]. rewrite app_nil_r. cbn [fmap list_fmap].
    by rewrite last_snoc, list_to_set_elements_L.
Qed.

(** ** Persons without children *)

Lemma add_remove (x : string) (o : gset string) :
  x ∉ o → ({[x]} ∪ o) ∖ {[x]} = o.
Proof. set_solver. Qed.

Lemma remove_absent (x : string) (o : gset string) : x ∉ o → o ∖ {[x]} = o.
Proof. set_solver. Qed.

Lemma without_with_person (x : string) (o t h : gset string)
    (sc : gset string * gset string * gset string) :
  x ∉ o → x ∉ t → x ∉ h → sc ∈ with_person x (o, t, h) → without x sc = (o, t, h).
Proof.
  intros Ho Ht Hh. unfold with_person. rewrite !elem_of_cons, elem_of_nil.
  intros [->|[->|[->|[->|[->|[->|[]]]]]]]; unfold without;
    by rewrite ?add_remove, ?remove_absent by done.
Qed.

Lemma with_person_without (x : string) (o t h : gset string) :
  o ## t → (o, t, h) ∈ with_person x (without x (o, t, h)).
Proof.
  intros Hd. unfold without, with_person.
  destruct (decide (x ∈ h)) as [Hh|Hh];
    (destruct (decide (x ∈ o)) as [Ho|Ho];
     [assert (Ht : x ∉ t) by (intros Ht; by apply (Hd x))
     |destruct (decide (x ∈ t)) as [Ht|Ht]]).
  - apply (list_elem_of_lookup_2 _ 4). cbn. f_equal.
    by rewrite <- !union_difference_singleton_L, remove_absent by done.
  - apply (list_elem_of_lookup_2 _ 5). cbn. f_equal.
    by rewrite <- !union_difference_singleton_L, remove_absent by done.
  - apply (list_elem_of_lookup_2 _ 3). cbn. f_equal.
    by rewrite <- !union_difference_singleton_L, !remove_absent by done.
  - apply (list_elem_of_lookup_2 _ 1). cbn. f_equal.
    by rewrite <- !union_difference_singleton_L, !remove_absent by done.
  - apply (list_elem_of_lookup_2 _ 2). cbn. f_equal.
    by rewrite <- !union_difference_singleton_L, !remove_absent by done.
  - apply (list_elem_of_lookup_2 _ 0). cbn. f_equal.
    by rewrite !remove_absent by done.
Qed.

Lemma NoDup_with_person (x : string) (o t h : gset string) :
  x ∉ o → x ∉ t → x ∉ h → NoDup (with_person x (o, t, h)).
Proof.
  intros Ho Ht Hh.
  apply (NoDup_fmap_1 (λ '(o', t', h'),
    (bool_decide (x ∈ o'), bool_decide (x ∈ t'), bool_decide (x ∈ h')))).
  unfold with_person. cbn [fmap list_fmap].
  assert (Hin : ∀ s : gset string, bool_decide (x ∈ {[x]} ∪ s) = true)
    by (intros s; apply bool_decide_eq_true_2; set_solver).
  rewrite !Hin, !(bool_decide_eq_false_2 _ Ho), !(bool_decide_eq_false_2 _ Ht),
    !(bool_decide_eq_false_2 _ Hh).
  decide_by_computation.
Qed.

Lemma NoDup_scenarios (people : gmap string Person) : NoDup (scenarios people).
Proof.
  unfold scenarios. apply NoDup_bind; [| |apply NoDup_powerset].
  - intros h h' [[o t] h''] _ _ Hin Hin'.
    destruct (violates people h); [by apply elem_of_nil in Hin|].
    destruct (violates people h'); [by apply elem_of_nil in Hin'|].
    apply list_elem_of_bind in Hin as ([o1 t1] & [= _ _ ->]%list_elem_of_singleton & _).
    apply list_elem_of_bind in Hin' as ([o2 t2] & [= _ _ ->]%list_elem_of_singleton & _).
    done.
  - intros h _. destruct (violates people h); [apply NoDup_nil_2|].
    apply NoDup_bind; [| |apply NoDup_gene_partitions].
    + intros [o1 t1] [o2 t2] [[o t] h'] _ _
        [= -> -> _]%list_elem_of_singleton [= -> -> _]%list_elem_of_singleton.
      done.
    + intros [o t] _. apply NoDup_singleton.
Qed.

Lemma assigned_gene_count_without (x y : string) (o t : gset string) :
  y ≠ x →
  assigned_gene_count (o ∖ {[x]}) (t ∖ {[x]}) y = assigned_gene_count o t y.
Proof.
  intros Hne. unfold assigned_gene_count.
  repeat case_decide; try done; set_solver.
Qed.

Lemma bool_decide_without (x y : string) (h : gset string) :
  y ≠ x → bool_decide (y ∈ h ∖ {[x]}) = bool_decide (y ∈ h).
Proof. intros Hne. apply bool_decide_ext. set_solver. Qed.

Lemma gene_bucket_scored (people : gmap string Person) (y : string) (g : GeneCount) :
  gene_bucket y g (scored people)
  = sum_Qc ((λ '(o, t, h),
              (if decide (assigned_gene_count o t y = g) then 1 else 0)
              * scenario_probability people o t h)
            <$> scenarios people).
Proof.
  unfold gene_bucket, scored. rewrite <- list_fmap_compose.
  apply sum_Qc_ext. intros [[o t] h] _. cbn. case_decide; ring.
Qed.

Lemma trait_bucket_scored (people : gmap string Person) (y : string) (b : bool) :
  trait_bucket y b (scored people)
  = sum_Qc ((λ '(o, t, h),
              (if decide (bool_decide (y ∈ h) = b) then 1 else 0)
              * scenario_probability people o t h)
            <$> scenarios people).
Proof.
  unfold trait_bucket, scored. rewrite <- list_fmap_compose.
  apply sum_Qc_ext. intros [[o t] h] _. cbn. case_decide; ring.
Qed.

Lemma total_mass_scored (people : gmap string Person) :
  total_mass (scored people)
  = sum_Qc ((λ '(o, t, h), 1 * scenario_probability people o t h)
            <$> scenarios people).
Proof.
  rewrite total_mass_sum. unfold scored. rewrite <- list_fmap_compose.
  apply sum_Qc_ext. intros [[o t] h] _. cbn. ring.
Qed.

Section leaf.
Context (people : gmap string Person) (x : string) (px : Person).
Hypothesis Hx : people !! x = Some px.

Lemma leaf_in_dom : x ∈ dom people.
Proof. apply elem_of_dom. eauto. Qed.

Lemma subseteq_without (s : gset string) :
  s ⊆ dom people ↔ s ∖ {[x]} ⊆ dom (delete x people).
Proof.
  rewrite dom_delete_L. pose proof leaf_in_dom as Hin. split.
  - set_solver.
  - intros Hs y Hy. destruct (decide (y = x)) as [->|Hne]; [done|].
    assert (y ∈ dom people ∖ {[x]}) by set_solver. set_solver.
Qed.

Lemma with_person_disjoint (o t h : gset string)
    (sc : gset string * gset string * gset string) :
  x ∉ o → x ∉ t → o ## t → sc ∈ with_person x (o, t, h) → sc.1.1 ## sc.1.2.
Proof.
  intros Ho Ht Hd. unfold with_person. rewrite !elem_of_cons, elem_of_nil.
  intros [->|[->|[->|[->|[->|[->|[]]]]]]]; cbn [fst snd]; set_solver.
Qed.

Hypothesis Hchildless : childless people x = true.

Lemma not_parent_of_self : is_parent_of people x x = false.
Proof.
  unfold childless in Hchildless. rewrite forallb_forall in Hchildless.
  apply negb_true_iff, Hchildless, list_elem_of_In, elem_of_elements, leaf_in_dom.
Qed.

Lemma not_parent (y f m : string) :
  people !! y ≫= parents = Some (f, m) → f ≠ x ∧ m ≠ x.
Proof.
  intros Hp. apply (is_parent_of_false people x y f m); [|done].
  unfold childless in Hchildless. rewrite forallb_forall in Hchildless.
  apply negb_true_iff, Hchildless, list_elem_of_In, elem_of_elements, elem_of_dom.
  destruct (people !! y); [eauto|done].
Qed.

Lemma gene_count_probability_without (o t : gset string) (y : string) :
  y ≠ x →
  gene_count_probability (delete x people) (o ∖ {[x]}) (t ∖ {[x]}) y
  = gene_count_probability people o t y.
Proof.
  intros Hne. unfold gene_count_probability.
  rewrite lookup_delete_ne by done. rewrite assigned_gene_count_without by done.
  destruct (people !! y ≫= parents) as [[f m]|] eqn:Hp; [|done].
  destruct (not_parent y f m Hp) as [Hf Hm].
  by rewrite !assigned_gene_count_without by done.
Qed.

Lemma trait_probability_without (o t h : gset string) (y : string) :
  y ≠ x →
  trait_probability (o ∖ {[x]}) (t ∖ {[x]}) (h ∖ {[x]}) y
  = trait_probability o t h y.
Proof.
  intros Hne. unfold trait_probability.
  by rewrite assigned_gene_count_without, bool_decide_without by done.
Qed.

(** The joint probability of a scenario is that of the scenario of the
    others, times the factors of [x]. *)
Lemma scenario_probability_without (o t h : gset string) :
  scenario_probability people o t h
  = gene_count_probability people o t x * trait_probability o t h x
    * scenario_probability (delete x people) (o ∖ {[x]}) (t ∖ {[x]}) (h ∖ {[x]}).
Proof.
  unfold scenario_probability.
  assert (Hperm : elements (dom people) ≡ₚ x :: elements (dom (delete x people))).
  { rewrite dom_delete_L.
    rewrite (union_difference_singleton_L x (dom people) leaf_in_dom) at 1.
    apply elements_union_singleton. set_solver. }
  rewrite (product_Permutation _ _ (fmap_Permutation _ _ _ Hperm)).
  rewrite fmap_cons, product_cons. f_equal.
  apply product_ext. intros y Hy.
  assert (Hne : y ≠ x).
  { apply elem_of_elements in Hy. rewrite dom_delete_L in Hy. set_solver. }
  by rewrite gene_count_probability_without, trait_probability_without.
Qed.

Hypothesis Hunobserved : trait px = None.

Lemma violates_without (h : gset string) :
  violates people h = violates (delete x people) (h ∖ {[x]}).
Proof.
  destruct (violates (delete x people) (h ∖ {[x]})) eqn:Hv.
  - apply violates_true in Hv as (person & p & t & Hp & Ht & Hne).
    apply lookup_delete_Some in Hp as [Hpx Hp].
    apply violates_true. exists person, p, t. split_and!; [done..|].
    by rewrite <- (bool_decide_without x person h).
  - rewrite violates_false in Hv. apply violates_false.
    intros person p t Hp Ht.
    assert (Hpx : person ≠ x) by (intros ->; congruence).
    rewrite <- (bool_decide_without x person h) by done.
    apply (Hv person p t); [|done]. by rewrite lookup_delete_ne.
Qed.

Lemma scenarios_without (o t h : gset string) :
  o ## t →
  (o, t, h) ∈ scenarios people
  ↔ without x (o, t, h) ∈ scenarios (delete x people).
Proof.
  intros Hd. unfold without. rewrite !elem_of_scenarios.
  rewrite <- violates_without, <- !subseteq_without.
  split; intros (H1 & H2 & H3 & H4 & H5); split_and!; try done.
  intros y [Hy1 _]%elem_of_difference [Hy2 _]%elem_of_difference.
  by apply (Hd y).
Qed.

Lemma scenarios_with_person :
  scenarios people ≡ₚ scenarios (delete x people) ≫= with_person x.
Proof.
  assert (Hout : ∀ o t h, (o, t, h) ∈ scenarios (delete x people) →
            (x ∉ o) ∧ (x ∉ t) ∧ (x ∉ h) ∧ o ## t).
  { intros o t h (Hh & _ & Ho & Ht & Hd)%elem_of_scenarios.
    rewrite dom_delete_L in Hh, Ho, Ht. set_solver. }
  apply NoDup_Permutation.
  - apply NoDup_scenarios.
  - apply NoDup_bind; [| |apply NoDup_scenarios].
    + intros [[o1 t1] h1] [[o2 t2] h2] sc
        (? & ? & ? & _)%Hout (? & ? & ? & _)%Hout Hin1 Hin2.
      apply without_with_person in Hin1; [|done..].
      apply without_with_person in Hin2; [|done..]. congruence.
    + intros [[o t] h] (? & ? & ? & _)%Hout. by apply NoDup_with_person.
  - intros [[o t] h]. rewrite list_elem_of_bind. split.
    + intros Hin. exists (without x (o, t, h)).
      assert (Hd : o ## t) by (by apply elem_of_scenarios in Hin as (_ & _ & _ & _ & Hd)).
      split; [by apply with_person_without|by apply scenarios_without].
    + intros ([[o' t'] h'] & Hin & Hsc).
      pose proof (Hout _ _ _ Hsc) as (Ho & Ht & Hh & Hd).
      pose proof (with_person_disjoint _ _ _ _ Ho Ht Hd Hin) as Hd'.
      apply scenarios_without; [done|].
      by rewrite (without_with_person x o' t' h').
Qed.

Lemma sum_with_person (F : gset string * gset string * gset string → Qc)
    (o t h : gset string) :
  x ∉ o → x ∉ t → x ∉ h →
  (∀ sc, F sc = F (without x sc)) →
  sum_Qc ((λ '(o', t', h'), F (o', t', h') * scenario_probability people o' t' h')
          <$> with_person x (o, t, h))
  = F (o, t, h) * scenario_probability (delete x people) o t h.
Proof.
  intros Ho Ht Hh HF. unfold with_person. cbn [fmap list_fmap].
  rewrite !sum_Qc_cons, sum_Qc_nil.
  rewrite (HF (o, t, h)), (HF ({[x]} ∪ o, t, h)), (HF (o, {[x]} ∪ t, h)),
    (HF (o, t, {[x]} ∪ h)), (HF ({[x]} ∪ o, t, {[x]} ∪ h)),
    (HF (o, {[x]} ∪ t, {[x]} ∪ h)).
  unfold without. rewrite !scenario_probability_without.
  rewrite ?add_remove, ?remove_absent by done.
  unfold trait_probability.
  destruct (assigned_gene_count_self o t x Ho Ht) as (-> & -> & ->).
  assert (Hin : ∀ s : gset string, bool_decide (x ∈ {[x]} ∪ s) = true)
    by (intros s; apply bool_decide_eq_true_2; set_solver).
  rewrite !Hin, !(bool_decide_eq_false_2 _ Hh).
  pose proof (gene_count_probability_total people o t x Ho Ht not_parent_of_self)
    as Htotal.
  assert (H2 : gene_count_probability people o ({[x]} ∪ t) x
               = 1 - gene_count_probability people o t x
                 - gene_count_probability people ({[x]} ∪ o) t x)
    by (rewrite <- Htotal; ring).
  assert (H0 : PROBS.trait G0 false = 1 - PROBS.trait G0 true)
    by (rewrite <- (PROBS_trait_total G0); ring).
  assert (H1 : PROBS.trait G1 false = 1 - PROBS.trait G1 true)
    by (rewrite <- (PROBS_trait_total G1); ring).
  assert (H2' : PROBS.trait G2 false = 1 - PROBS.trait G2 true)
    by (rewrite <- (PROBS_trait_total G2); ring).
  rewrite H2, H0, H1, H2'. ring.
Qed.

(** Summing over the scenarios a weight that does not look at [x]. *)
Lemma sum_scenarios_without (F : gset string * gset string * gset string → Qc) :
  (∀ sc, F sc = F (without x sc)) →
  sum_Qc ((λ '(o, t, h), F (o, t, h) * scenario_probability people o t h)
          <$> scenarios people)
  = sum_Qc ((λ '(o, t, h), F (o, t, h) * scenario_probability (delete x people) o t h)
            <$> scenarios (delete x people)).
Proof.
  intros HF.
  rewrite (sum_Qc_Permutation _ _ (fmap_Permutation _ _ _ scenarios_with_person)).
  rewrite sum_Qc_bind. apply sum_Qc_ext. intros [[o t] h] Hin.
  apply elem_of_scenarios in Hin as (Hh & _ & Ho & Ht & _).
  rewrite dom_delete_L in Hh, Ho, Ht.
  apply sum_with_person; [set_solver..|done].
Qed.

Hypothesis Hfounder : parents px = None.

Lemma gene_count_probability_founder (o t : gset string) :
  gene_count_probability people o t x = PROBS.gene (assigned_gene_count o t x).
Proof. unfold gene_count_probability. rewrite Hx. cbn. by rewrite Hfounder. Qed.

Lemma sum_with_person_gene (g : GeneCount) (o t h : gset string) :
  x ∉ o → x ∉ t → x ∉ h →
  sum_Qc ((λ '(o', t', h'),
            (if decide (assigned_gene_count o' t' x = g) then 1 else 0)
            * scenario_probability people o' t' h')
          <$> with_person x (o, t, h))
  = PROBS.gene g * (1 * scenario_probability (delete x people) o t h).
Proof.
  intros Ho Ht Hh. unfold with_person. cbn [fmap list_fmap].
  rewrite !sum_Qc_cons, sum_Qc_nil.
  rewrite !scenario_probability_without.
  rewrite ?add_remove, ?remove_absent by done.
  rewrite !gene_count_probability_founder. unfold trait_probability.
  destruct (assigned_gene_count_self o t x Ho Ht) as (-> & -> & ->).
  assert (Hin : ∀ s : gset string, bool_decide (x ∈ {[x]} ∪ s) = true)
    by (intros s; apply bool_decide_eq_true_2; set_solver).
  rewrite !Hin, !(bool_decide_eq_false_2 _ Hh).
  assert (H0 : PROBS.trait G0 false = 1 - PROBS.trait G0 true)
    by (rewrite <- (PROBS_trait_total G0); ring).
  assert (H1 : PROBS.trait G1 false = 1 - PROBS.trait G1 true)
    by (rewrite <- (PROBS_trait_total G1); ring).
  assert (H2 : PROBS.trait G2 false = 1 - PROBS.trait G2 true)
    by (rewrite <- (PROBS_trait_total G2); ring).
  rewrite H0, H1, H2.
  destruct g; repeat case_decide; try done; ring.
Qed.

Lemma sum_with_person_trait (b : bool) (o t h : gset string) :
  x ∉ o → x ∉ t → x ∉ h →
  sum_Qc ((λ '(o', t', h'),
            (if decide (bool_decide (x ∈ h') = b) then 1 else 0)
            * scenario_probability people o' t' h')
          <$> with_person x (o, t, h))
  = mixture b * (1 * scenario_probability (delete x people) o t h).
Proof.
  intros Ho Ht Hh. unfold with_person. cbn [fmap list_fmap].
  rewrite !sum_Qc_cons, sum_Qc_nil.
  rewrite !scenario_probability_without.
  rewrite ?add_remove, ?remove_absent by done.
  rewrite !gene_count_probability_founder. unfold trait_probability.
  destruct (assigned_gene_count_self o t x Ho Ht) as (-> & -> & ->).
  assert (Hin : ∀ s : gset string, bool_decide (x ∈ {[x]} ∪ s) = true)
    by (intros s; apply bool_decide_eq_true_2; set_solver).
  rewrite !Hin, !(bool_decide_eq_false_2 _ Hh). unfold mixture.
  destruct b; repeat case_decide; try done; ring.
Qed.

Lemma scenarios_without_leaf (o t h : gset string) :
  (o, t, h) ∈ scenarios (delete x people) → (x ∉ o) ∧ (x ∉ t) ∧ x ∉ h.
Proof.
  intros (Hh & _ & Ho & Ht & _)%elem_of_scenarios.
  rewrite dom_delete_L in Hh, Ho, Ht. set_solver.
Qed.

Lemma gene_bucket_founder (g : GeneCount) :
  gene_bucket x g (scored people) = PROBS.gene g * total_mass (scored people).
Proof.
  rewrite gene_bucket_scored, total_mass_scored.
  rewrite (sum_scenarios_without (λ _, 1)) by done.
  rewrite (sum_Qc_Permutation _ _ (fmap_Permutation _ _ _ scenarios_with_person)).
  rewrite sum_Qc_bind, <- sum_Qc_scale. apply sum_Qc_ext. intros [[o t] h] Hin.
  apply scenarios_without_leaf in Hin as (Ho & Ht & Hh).
  by apply sum_with_person_gene.
Qed.

Lemma trait_bucket_founder (b : bool) :
  trait_bucket x b (scored people) = mixture b * total_mass (scored people).
Proof.
  rewrite trait_bucket_scored, total_mass_scored.
  rewrite (sum_scenarios_without (λ _, 1)) by done.
  rewrite (sum_Qc_Permutation _ _ (fmap_Permutation _ _ _ scenarios_with_person)).
  rewrite sum_Qc_bind, <- sum_Qc_scale. apply sum_Qc_ext. intros [[o t] h] Hin.
  apply scenarios_without_leaf in Hin as (Ho & Ht & Hh).
  by apply sum_with_person_trait.
Qed.

End leaf.

Lemma Qcmult_div_r (c t : Qc) : 0 < t → c * t / t = c.
Proof. intros Ht. field. by apply not_eq_sym, Qclt_not_eq. Qed.

(** X16. A person without an observed trait who is nobody's parent has no
    influence on the others: without this person in the data, [main]
    returns the same table less this person's entry. *)
Theorem childless_unobserved_person_irrelevant
    (people : gmap string Person) (x : string) (px : Person) :
  people !! x = Some px → trait px = None → childless people x = true →
  ∃ result,
    main people = Ok result ∧ main (delete x people) = Ok (delete x result).
Proof.
  intros Hx Hunobserved Hchildless.
  eexists. split; [apply main_scored|].
  rewrite main_scored. f_equal. rewrite <- !fmap_delete. f_equal.
  apply map_eq. intros y. destruct (decide (y = x)) as [->|Hne].
  - rewrite lookup_delete_eq. apply not_elem_of_dom.
    rewrite dom_updates, dom_fmap_L, dom_delete_L. set_solver.
  - rewrite lookup_delete_ne by done.
    destruct (decide (y ∈ dom people)) as [Hin|Hout].
    + rewrite !updates_buckets by (rewrite ?dom_delete_L; set_solver).
      rewrite !gene_bucket_scored, !trait_bucket_scored.
      rewrite !(sum_scenarios_without people x px Hx Hchildless Hunobserved
                 (λ '(o, t, h), if decide (assigned_gene_count o t y = _) then 1 else 0)).
      2-4: intros [[o t] h]; unfold without;
        by rewrite assigned_gene_count_without by done.
      rewrite !(sum_scenarios_without people x px Hx Hchildless Hunobserved
                 (λ '(o, t, h), if decide (bool_decide (y ∈ h) = _) then 1 else 0)).
      2-3: intros [[o t] h]; unfold without;
        by rewrite bool_decide_without by done.
      done.
    + transitivity (@None Distributions); [|symmetry]; apply not_elem_of_dom;
        rewrite dom_updates, dom_fmap_L, ?dom_delete_L; set_solver.
Qed.

Lemma childless_unobserved_person_irrelevant_witness :
  ∃ result,
    main family = Ok result
    ∧ main (delete "Harry"%string family) = Ok (delete "Harry"%string result).
Proof.
  apply (childless_unobserved_person_irrelevant family "Harry"
           (child "Harry" "Lily" "James" None));
    [vm_compute; reflexivity|reflexivity|vm_compute; reflexivity].
Defined.

(** X17. A person of whom nothing is recorded (no observed trait, not both
    parents, nobody's parent) gets the prior, whatever is recorded of the
    others: the unconditional gene distribution and the prior-weighted
    mixture of the trait table. *)
Theorem unrelated_unobserved_person_gets_prior
    (people : gmap string Person) (x : string) (px : Person) :
  people !! x = Some px → trait px = None → parents px = None →
  childless people x = true →
  ∃ result,
    main people = Ok result
    ∧ result !! x = Some {| gene2 := PROBS.gene G2;
                            gene1 := PROBS.gene G1;
                            gene0 := PROBS.gene G0;
                            traitTrue := mixture true;
                            traitFalse := mixture false |}.
Proof.
  intros Hx Hunobserved Hfounder Hchildless.
  destruct (main_lookup people x) as (result & Hmain & Hresult).
  { apply elem_of_dom. eauto. }
  exists result. split; [done|]. rewrite Hresult.
  rewrite !(gene_bucket_founder people x px Hx Hchildless Hunobserved Hfounder).
  rewrite !(trait_bucket_founder people x px Hx Hchildless Hunobserved Hfounder).
  by rewrite !Qcmult_div_r by apply total_mass_scored_pos.
Qed.

Lemma unrelated_unobserved_person_gets_prior_witness :
  ∃ result,
    main (<["Ron"%string := founder "Ron" None]> family) = Ok result
    ∧ result !! "Ron"%string
      = Some {| gene2 := PROBS.gene G2;
                gene1 := PROBS.gene G1;
                gene0 := PROBS.gene G0;
                traitTrue := mixture true;
                traitFalse := mixture false |}.
Proof.
  apply (unrelated_unobserved_person_gets_prior
           (<["Ron"%string := founder "Ron" None]> family) "Ron" (founder "Ron" None));
    [vm_compute; reflexivity|reflexivity|reflexivity|vm_compute; reflexivity].
Defined.


(** ** Observed persons without relatives *)

Lemma with_person_observed_eq (x : string) (b : bool) (o t h : gset string) :
  x ∉ h →
  with_person_observed x b (o, t, h)
  = [(o, t, if b then {[x]} ∪ h else h);
     ({[x]} ∪ o, t, if b then {[x]} ∪ h else h);
     (o, {[x]} ∪ t, if b then {[x]} ∪ h else h)].
Proof.
  intros Hh. unfold with_person_observed, with_person.
  assert (Hin : ∀ s : gset string, bool_decide (x ∈ {[x]} ∪ s) = true)
    by (intros s; apply bool_decide_eq_true_2; set_solver).
  rewrite !filter_cons, filter_nil. cbn [snd].
  rewrite !Hin, !(bool_decide_eq_false_2 _ Hh). by destruct b.
Qed.

Lemma mixture_nonzero (b : bool) : mixture b ≠ 0.
Proof. destruct b; apply Qc_decide_neq; vm_compute; reflexivity. Qed.

Section observed.
Context (people : gmap string Person) (x : string) (px : Person) (b : bool).
Hypothesis Hx : people !! x = Some px.
Hypothesis Hchildless : childless people x = true.
Hypothesis Hfounder : parents px = None.
Hypothesis Hobserved : trait px = Some b.

Lemma violates_without_observed (h : gset string) :
  violates people h = false
  ↔ violates (delete x people) (h ∖ {[x]}) = false ∧ bool_decide (x ∈ h) = b.
Proof.
  rewrite !violates_false. split.
  - intros Hv. split.
    + intros person p t [Hpx Hp]%lookup_delete_Some Ht.
      rewrite bool_decide_without by done. by apply (Hv person p).
    + by apply (Hv x px).
  - intros [Hv Hb] person p t Hp Ht.
    destruct (decide (person = x)) as [->|Hpx]; [congruence|].
    rewrite <- (bool_decide_without x person h) by done.
    apply (Hv person p t); [|done]. by rewrite lookup_delete_ne.
Qed.

Lemma scenarios_without_observed (o t h : gset string) :
  o ## t →
  (o, t, h) ∈ scenarios people
  ↔ without x (o, t, h) ∈ scenarios (delete x people) ∧ bool_decide (x ∈ h) = b.
Proof.
  intros Hd. unfold without. rewrite !elem_of_scenarios.
  rewrite violates_without_observed, <- !(subseteq_without people x px Hx).
  split.
  - intros (H1 & [H2 Hb] & H3 & H4 & H5). split_and!; try done.
    intros y [Hy1 _]%elem_of_difference [Hy2 _]%elem_of_difference.
    by apply (Hd y).
  - intros [(H1 & H2 & H3 & H4 & H5) Hb]. by split_and!.
Qed.

Lemma scenarios_with_person_observed :
  scenarios people ≡ₚ scenarios (delete x people) ≫= with_person_observed x b.
Proof.
  assert (Hout : ∀ o t h, (o, t, h) ∈ scenarios (delete x people) →
            (x ∉ o) ∧ (x ∉ t) ∧ (x ∉ h) ∧ o ## t).
  { intros o t h (Hh & _ & Ho & Ht & Hd)%elem_of_scenarios.
    rewrite dom_delete_L in Hh, Ho, Ht. set_solver. }
  apply NoDup_Permutation.
  - apply NoDup_scenarios.
  - apply NoDup_bind; [| |apply NoDup_scenarios].
    + intros [[o1 t1] h1] [[o2 t2] h2] sc
        (? & ? & ? & _)%Hout (? & ? & ? & _)%Hout
        [_ Hin1]%list_elem_of_filter [_ Hin2]%list_elem_of_filter.
      apply without_with_person in Hin1; [|done..].
      apply without_with_person in Hin2; [|done..]. congruence.
    + intros [[o t] h] (? & ? & ? & _)%Hout.
      apply NoDup_filter. by apply NoDup_with_person.
  - intros [[o t] h]. rewrite list_elem_of_bind. split.
    + intros Hin. exists (without x (o, t, h)).
      assert (Hd : o ## t) by (by apply elem_of_scenarios in Hin as (_ & _ & _ & _ & Hd)).
      apply scenarios_without_observed in Hin as [Hin Hb]; [|done].
      split; [|done]. apply list_elem_of_filter. split; [done|].
      by apply with_person_without.
    + intros ([[o' t'] h'] & [Hb Hin]%list_elem_of_filter & Hsc).
      pose proof (Hout _ _ _ Hsc) as (Ho & Ht & Hh & Hd).
      pose proof (with_person_disjoint people x px Hx _ _ _ _ Ho Ht Hd Hin) as Hd'.
      apply scenarios_without_observed; [done|]. split; [|done].
      by rewrite (without_with_person x o' t' h').
Qed.

Lemma sum_with_person_observed (F : gset string * gset string * gset string → Qc)
    (o t h : gset string) :
  x ∉ o → x ∉ t → x ∉ h →
  (∀ sc, F sc = F (without x sc)) →
  sum_Qc ((λ '(o', t', h'), F (o', t', h') * scenario_probability people o' t' h')
          <$> with_person_observed x b (o, t, h))
  = mixture b * (F (o, t, h) * scenario_probability (delete x people) o t h).
Proof.
  intros Ho Ht Hh HF. rewrite with_person_observed_eq by done.
  cbn [fmap list_fmap]. rewrite !sum_Qc_cons, sum_Qc_nil.
  assert (Hin : ∀ s : gset string, bool_decide (x ∈ {[x]} ∪ s) = true)
    by (intros s; apply bool_decide_eq_true_2; set_solver).
  assert (Hb : bool_decide (x ∈ (if b then {[x]} ∪ h else h)) = b)
    by (destruct b; [apply Hin|by apply bool_decide_eq_false_2]).
  assert (Hh' : (if b then {[x]} ∪ h else h) ∖ {[x]} = h)
    by (destruct b; [by apply add_remove|by apply remove_absent]).
  rewrite (HF (o, t, _)), (HF ({[x]} ∪ o, t, _)), (HF (o, {[x]} ∪ t, _)).
  unfold without.
  rewrite !(scenario_probability_without people x px Hx Hchildless).
  rewrite Hh', ?add_remove, ?remove_absent by done.
  rewrite !(gene_count_probability_founder people x px Hx Hfounder).
  unfold trait_probability. rewrite Hb.
  destruct (assigned_gene_count_self o t x Ho Ht) as (-> & -> & ->).
  unfold mixture. ring.
Qed.

Lemma sum_with_person_observed_gene (g : GeneCount) (o t h : gset string) :
  x ∉ o → x ∉ t → x ∉ h →
  sum_Qc ((λ '(o', t', h'),
            (if decide (assigned_gene_count o' t' x = g) then 1 else 0)
            * scenario_probability people o' t' h')
          <$> with_person_observed x b (o, t, h))
  = PROBS.gene g * PROBS.trait g b
    * (1 * scenario_probability (delete x people) o t h).
Proof.
  intros Ho Ht Hh. rewrite with_person_observed_eq by done.
  cbn [fmap list_fmap]. rewrite !sum_Qc_cons, sum_Qc_nil.
  assert (Hin : ∀ s : gset string, bool_decide (x ∈ {[x]} ∪ s) = true)
    by (intros s; apply bool_decide_eq_true_2; set_solver).
  assert (Hb : bool_decide (x ∈ (if b then {[x]} ∪ h else h)) = b)
    by (destruct b; [apply Hin|by apply bool_decide_eq_false_2]).
  assert (Hh' : (if b then {[x]} ∪ h else h) ∖ {[x]} = h)
    by (destruct b; [by apply add_remove|by apply remove_absent]).
  rewrite !(scenario_probability_without people x px Hx Hchildless).
  rewrite Hh', ?add_remove, ?remove_absent by done.
  rewrite !(gene_count_probability_founder people x px Hx Hfounder).
  unfold trait_probability. rewrite Hb.
  destruct (assigned_gene_count_self o t x Ho Ht) as (-> & -> & ->).
  destruct g; repeat case_decide; try done; ring.
Qed.

(** Summing over the scenarios a weight that does not look at [x]. *)
Lemma sum_scenarios_without_observed
    (F : gset string * gset string * gset string → Qc) :
  (∀ sc, F sc = F (without x sc)) →
  sum_Qc ((λ '(o, t, h), F (o, t, h) * scenario_probability people o t h)
          <$> scenarios people)
  = mixture b
    * sum_Qc ((λ '(o, t, h), F (o, t, h) * scenario_probability (delete x people) o t h)
              <$> scenarios (delete x people)).
Proof.
  intros HF.
  rewrite (sum_Qc_Permutation _ _
    (fmap_Permutation _ _ _ scenarios_with_person_observed)).
  rewrite sum_Qc_bind, <- sum_Qc_scale. apply sum_Qc_ext. intros [[o t] h] Hin.
  apply elem_of_scenarios in Hin as (Hh & _ & Ho & Ht & _).
  rewrite dom_delete_L in Hh, Ho, Ht.
  apply sum_with_person_observed; [set_solver..|done].
Qed.

Lemma total_mass_observed :
  total_mass (scored people) = mixture b * total_mass (scored (delete x people)).
Proof.
  rewrite !total_mass_scored. by apply (sum_scenarios_without_observed (λ _, 1)).
Qed.

Lemma gene_bucket_observed (g : GeneCount) :
  gene_bucket x g (scored people)
  = PROBS.gene g * PROBS.trait g b * total_mass (scored (delete x people)).
Proof.
  rewrite gene_bucket_scored, total_mass_scored.
  rewrite (sum_Qc_Permutation _ _
    (fmap_Permutation _ _ _ scenarios_with_person_observed)).
  rewrite sum_Qc_bind, <- sum_Qc_scale. apply sum_Qc_ext. intros [[o t] h] Hin.
  apply elem_of_scenarios in Hin as (Hh & _ & Ho & Ht & _).
  rewrite dom_delete_L in Hh, Ho, Ht.
  apply sum_with_person_observed_gene; set_solver.
Qed.

End observed.

Lemma Qcdiv_cancel_r (p m t : Qc) : m ≠ 0 → 0 < t → p * t / (m * t) = p / m.
Proof.
  intros Hm Ht. assert (t ≠ 0) by by apply not_eq_sym, Qclt_not_eq.
  field. by split.
Qed.

(** X20. Bayes' rule for a person without recorded relatives: for a person
    with an observed trait value [b], not both parents and no child in the
    data, [main] returns as the probability of each gene count its prior
    times the probability of [b] given the count, divided by the
    prior-weighted mixture of these, whatever is recorded of the others. *)
Theorem unrelated_observed_person_bayes
    (people : gmap string Person) (x : string) (px : Person) (b : bool) :
  people !! x = Some px → trait px = Some b → parents px = None →
  childless people x = true →
  ∃ result d,
    main people = Ok result ∧ result !! x = Some d
    ∧ gene2 d = PROBS.gene G2 * PROBS.trait G2 b / mixture b
    ∧ gene1 d = PROBS.gene G1 * PROBS.trait G1 b / mixture b
    ∧ gene0 d = PROBS.gene G0 * PROBS.trait G0 b / mixture b.
Proof.
  intros Hx Hobserved Hfounder Hchildless.
  destruct (main_lookup people x) as (result & Hmain & Hresult).
  { apply elem_of_dom. eauto. }
  eexists result, _. split; [done|]. split; [done|].
  cbn [gene2 gene1 gene0].
  rewrite !(gene_bucket_observed people x px b Hx Hchildless Hfounder Hobserved).
  rewrite (total_mass_observed people x px b Hx Hchildless Hfounder Hobserved).
  pose proof (total_mass_scored_pos (delete x people)) as Hpos.
  pose proof (mixture_nonzero b) as Hm.
  by rewrite !Qcdiv_cancel_r by done.
Qed.

Lemma unrelated_observed_person_bayes_witness :
  ∃ result d,
    main harry_observed = Ok result ∧ result !! "Harry"%string = Some d
    ∧ gene2 d = PROBS.gene G2 * PROBS.trait G2 true / mixture true
    ∧ gene1 d = PROBS.gene G1 * PROBS.trait G1 true / mixture true
    ∧ gene0 d = PROBS.gene G0 * PROBS.trait G0 true / mixture true.
Proof.
  apply (unrelated_observed_person_bayes harry_observed "Harry"
           (founder "Harry" (Some true)) true);
    [vm_compute; reflexivity|reflexivity|reflexivity|vm_compute; reflexivity].
Defined.

(** What [main] returns without [x], when the weights of the others with
    [x] in the data are those without [x] times a common factor. *)
Lemma main_delete_scaled (people : gmap string Person) (x : string) (c : Qc) :
  c ≠ 0 →
  (∀ y g, y ≠ x →
     gene_bucket y g (scored people)
     = c * gene_bucket y g (scored (delete x people))) →
  (∀ y t, y ≠ x →
     trait_bucket y t (scored people)
     = c * trait_bucket y t (scored (delete x people))) →
  ∃ result, main people = Ok result ∧ main (delete x people) = Ok (delete x result).
Proof.
  intros Hc Hg Ht. eexists. split; [apply main_scored|].
  rewrite main_scored. f_equal. apply map_eq. intros y. rewrite lookup_fmap.
  destruct (decide (y = x)) as [->|Hne].
  - rewrite lookup_delete_eq.
    rewrite (proj1 (not_elem_of_dom _ _)); [done|].
    rewrite dom_updates, dom_fmap_L, dom_delete_L. set_solver.
  - rewrite lookup_delete_ne, lookup_fmap by done.
    destruct (decide (y ∈ dom people)) as [Hin|Hout].
    + assert (Hin' : y ∈ dom (delete x people))
        by (rewrite dom_delete_L; set_solver).
      pose proof (updates_buckets (delete x people) (scored (delete x people)) y Hin')
        as Hlookup.
      destruct (updates_sums (delete x people) (scored (delete x people)) y _ Hlookup)
        as [Hsg Hst].
      pose proof (total_mass_scored_pos (delete x people)) as Hpos.
      rewrite Hlookup, (updates_buckets people _ y Hin).
      cbn [fmap option_fmap option_map]. f_equal.
      rewrite !Hg, !Ht by done. symmetry.
      apply (divided_scale c c
        {| gene2 := gene_bucket y G2 (scored (delete x people));
           gene1 := gene_bucket y G1 (scored (delete x people));
           gene0 := gene_bucket y G0 (scored (delete x people));
           traitTrue := trait_bucket y true (scored (delete x people));
           traitFalse := trait_bucket y false (scored (delete x people)) |});
        [done..|].
      unfold nonzero_sums. rewrite Hsg, Hst.
      split; by apply not_eq_sym, Qclt_not_eq.
    + rewrite !(proj1 (not_elem_of_dom _ _)); [done|..];
        rewrite dom_updates, dom_fmap_L, ?dom_delete_L; set_solver.
Qed.

(** X21. A person without recorded relatives (not both parents, nobody's
    parent) has no influence on the others, whether this person's trait is
    observed or not: with the person removed from the data, [main] returns
    the same table less this person's entry. *)
Theorem unrelated_person_irrelevant
    (people : gmap string Person) (x : string) (px : Person) :
  people !! x = Some px → parents px = None → childless people x = true →
  ∃ result,
    main people = Ok result ∧ main (delete x people) = Ok (delete x result).
Proof.
  intros Hx Hfounder Hchildless. destruct (trait px) as [b|] eqn:Htrait.
  - apply (main_delete_scaled people x (mixture b)); [apply mixture_nonzero|..].
    + intros y g Hne. rewrite !gene_bucket_scored.
      apply (sum_scenarios_without_observed people x px b Hx Hchildless Hfounder Htrait
               (λ '(o, t, h), if decide (assigned_gene_count o t y = g) then 1 else 0)).
      intros [[o t] h]. unfold without.
      by rewrite assigned_gene_count_without by done.
    + intros y t Hne. rewrite !trait_bucket_scored.
      apply (sum_scenarios_without_observed people x px b Hx Hchildless Hfounder Htrait
               (λ '(o, t', h), if decide (bool_decide (y ∈ h) = t) then 1 else 0)).
      intros [[o t'] h]. unfold without.
      by rewrite bool_decide_without by done.
  - apply (main_delete_scaled people x 1); [done|..].
    + intros y g Hne. rewrite !gene_bucket_scored, Qcmult_1_l.
      apply (sum_scenarios_without people x px Hx Hchildless Htrait
               (λ '(o, t, h), if decide (assigned_gene_count o t y = g) then 1 else 0)).
      intros [[o t] h]. unfold without.
      by rewrite assigned_gene_count_without by done.
    + intros y t Hne. rewrite !trait_bucket_scored, Qcmult_1_l.
      apply (sum_scenarios_without people x px Hx Hchildless Htrait
               (λ '(o, t', h), if decide (bool_decide (y ∈ h) = t) then 1 else 0)).
      intros [[o t'] h]. unfold without.
      by rewrite bool_decide_without by done.
Qed.

Lemma unrelated_person_irrelevant_witness :
  ∃ result,
    main (<["Ron"%string := founder "Ron" (Some true)]> family) = Ok result
    ∧ main (delete "Ron"%string (<["Ron"%string := founder "Ron" (Some true)]> family))
      = Ok (delete "Ron"%string result).
Proof.
  apply (unrelated_person_irrelevant
           (<["Ron"%string := founder "Ron" (Some true)]> family) "Ron"
           (founder "Ron" (Some true)));
    [vm_compute; reflexivity|reflexivity|vm_compute; reflexivity].
Defined.

(** ** Mother and father exchanged *)

Lemma inherited_comm (pf pm : Qc) (g : GeneCount) :
  inherited pf pm g = inherited pm pf g.
Proof. destruct g; unfold inherited; ring. Qed.

Lemma parents_swap_parents (p : Person) :
  parents (swap_parents p) = prod_swap <$> parents p.
Proof. unfold parents, swap_parents. cbn. by destruct (father p), (mother p). Qed.

Section parents_exchanged.
Variables people people' : gmap string Person.
Hypothesis same_traits : ∀ n, trait <$> people !! n = trait <$> people' !! n.
Hypothesis same_or_swapped : ∀ n,
  people' !! n ≫= parents = people !! n ≫= parents
  ∨ people' !! n ≫= parents = prod_swap <$> (people !! n ≫= parents).

Lemma exchanged_dom : dom people = dom people'.
Proof.
  apply set_eq. intros n. rewrite !elem_of_dom. specialize (same_traits n).
  destruct (people !! n), (people' !! n); naive_solver.
Qed.

Lemma exchanged_trait (n : string) : people !! n ≫= trait = people' !! n ≫= trait.
Proof.
  specialize (same_traits n). destruct (people !! n), (people' !! n); naive_solver.
Qed.

Lemma exchanged_violates (have_trait : gset string) :
  violates people have_trait = violates people' have_trait.
Proof.
  unfold violates. rewrite exchanged_dom. apply existsb_ext_in. intros n _.
  by rewrite !contradicts_lookup, exchanged_trait.
Qed.

Lemma exchanged_scenarios : scenarios people = scenarios people'.
Proof.
  unfold scenarios. rewrite exchanged_dom. apply bind_ext_in. intros ht _.
  by rewrite exchanged_violates.
Qed.

Lemma exchanged_scenario_probability (one_gene two_genes have_trait : gset string) :
  scenario_probability people one_gene two_genes have_trait
  = scenario_probability people' one_gene two_genes have_trait.
Proof.
  unfold scenario_probability. rewrite exchanged_dom. f_equal.
  apply Forall_fmap_ext, Forall_forall. intros n _. f_equal.
  unfold gene_count_probability.
  destruct (same_or_swapped n) as [->| ->]; [done|].
  destruct (people !! n ≫= parents) as [[f m]|]; [|done].
  cbn. apply inherited_comm.
Qed.

Lemma exchanged_main : main people = main people'.
Proof.
  rewrite !main_scored. do 2 f_equal.
  assert (scored people = scored people') as ->.
  { unfold scored. rewrite exchanged_scenarios.
    apply Forall_fmap_ext, Forall_forall. intros [[one two] ht] _.
    by rewrite exchanged_scenario_probability. }
  f_equal. apply map_eq. intros n. rewrite !lookup_fmap.
  specialize (same_traits n).
  destruct (people !! n), (people' !! n); naive_solver.
Qed.

End parents_exchanged.

(** X18. Mother and father are interchangeable: exchanging the two
    recorded parents of any persons of the data does not change what
    [main] returns. *)
Theorem mother_and_father_interchangeable
    (people : gmap string Person) (swapped : gset string) :
  main (map_imap (λ n p,
          Some (if decide (n ∈ swapped) then swap_parents p else p)) people)
  = main people.
Proof.
  symmetry. apply exchanged_main.
  - intros n. rewrite map_lookup_imap.
    destruct (people !! n) as [p|]; [|done]. cbn. by case_decide.
  - intros n. rewrite map_lookup_imap.
    destruct (people !! n) as [p|]; [|by left]. cbn. case_decide.
    + right. apply parents_swap_parents.
    + by left.
Qed.

(** ** The order of the rows *)

(** X19. When no two rows carry the same name, the order of the rows of
    the data file is irrelevant: [load_data] builds the same dict from any
    reordering of them. *)
Theorem load_data_row_order (rows rows' : list Row) :
  NoDup (row_name <$> rows) → rows ≡ₚ rows' → load_data rows = load_data rows'.
Proof.
  intros Hnd Hperm. unfold load_data. generalize (∅ : gmap string Person).
  induction Hperm as [|row rows rows' Hperm IH|row1 row2 rows
                      |rows rows' rows'' H1 IH1 H2 IH2]; intros data.
  - done.
  - cbn [fold_left]. rewrite fmap_cons in Hnd. apply NoDup_cons in Hnd as [_ Hnd].
    by apply IH.
  - cbn [fold_left]. f_equal. rewrite !fmap_cons in Hnd.
    apply NoDup_cons in Hnd as [Hne _]. apply insert_insert_ne.
    intros Heq. apply Hne. rewrite Heq. left.
  - rewrite IH1 by done. apply IH2.
    by rewrite <- (fmap_Permutation row_name _ _ H1).
Qed.

Lemma load_data_row_order_witness :
  load_data [ {| row_name := "Harry"; row_mother := "Lily"; row_father := "James";
                 row_trait := "" |};
              {| row_name := "James"; row_mother := ""; row_father := "";
                 row_trait := "1" |};
              {| row_name := "Lily"; row_mother := ""; row_father := "";
                 row_trait := "0" |} ]
  = load_data [ {| row_name := "Lily"; row_mother := ""; row_father := "";
                   row_trait := "0" |};
                {| row_name := "Harry"; row_mother := "Lily"; row_father := "James";
                   row_trait := "" |};
                {| row_name := "James"; row_mother := ""; row_father := "";
                   row_trait := "1" |} ].
Proof.
  apply load_data_row_order.
  - decide_by_computation.
  - solve_Permutation.
Defined.
